(** * onedriver: the metadata cache of graph/cache.go

    A shallow embedding of the Go code of the cache (type [Cache] and its
    methods) together with the properties of its tree maintenance, path
    resolution and delta synchronisation.

    Go pointers to [DriveItem] are addresses into an explicit heap, so that
    the sharing of one item between the registry, the callers and the
    parent/child links is visible.  A method is a function in a state monad
    whose outcomes are a normal return, a nil-pointer panic or a deadlock. *)

From Stdlib Require Import ZArith Ascii String.
From stdpp Require Import base option list strings gmap.

Local Open Scope string_scope.
Local Open Scope Z_scope.
Local Open Scope list_scope.

(** ** Data *)

(** Address of a heap-allocated [DriveItem]; a Go [*DriveItem] is an
    [option loc], [None] being nil. *)
Abbreviation loc := nat.

(** Modelled from the spec: the declaration of the struct [DriveItem] and its
    accessors ([ID], [Name], [ParentID], [IsDir], [SetName]) are not part of
    the sources at hand.  The fields are the ones cache.go reads and writes
    ([IDInternal], [Parent.ID], [children], [subdir], [Deleted]) plus the name
    and the directory flag of the spec's Item.  [children] is a Go slice:
    [None] is the nil slice (children unknown), [Some l] a non-nil slice.
    [subdir] is a counter whose integer type is not visible; it is kept as
    an unbounded integer.  The accessors are plain field reads. *)
Record DriveItem := mkDriveItem {
  IDInternal : string;
  NameInternal : string;
  Parent_ID : string;
  is_dir : bool;
  Deleted : bool;
  children : option (list string);
  subdir : Z;
}.

Definition set_IDInternal (v : string) (d : DriveItem) : DriveItem :=
  mkDriveItem v (NameInternal d) (Parent_ID d) (is_dir d) (Deleted d) (children d) (subdir d).
Definition set_NameInternal (v : string) (d : DriveItem) : DriveItem :=
  mkDriveItem (IDInternal d) v (Parent_ID d) (is_dir d) (Deleted d) (children d) (subdir d).
Definition set_Parent_ID (v : string) (d : DriveItem) : DriveItem :=
  mkDriveItem (IDInternal d) (NameInternal d) v (is_dir d) (Deleted d) (children d) (subdir d).
Definition set_children (v : option (list string)) (d : DriveItem) : DriveItem :=
  mkDriveItem (IDInternal d) (NameInternal d) (Parent_ID d) (is_dir d) (Deleted d) v (subdir d).
Definition set_subdir (v : Z) (d : DriveItem) : DriveItem :=
  mkDriveItem (IDInternal d) (NameInternal d) (Parent_ID d) (is_dir d) (Deleted d) (children d) v.

(** The elements a [range] loop over a slice visits: none for nil. *)
Definition slice (c : option (list string)) : list string := default [] c.

(** [*Auth]: nil, or a token. *)
Record Auth := mkAuth { AccessToken : string }.

(** A decoded JSON body of the server.  [driveChildren] and [deltaResponse]
    both read the array under the key "value"; the links are the empty
    string when absent ([omitempty]).  A decoded item has its unexported
    fields ([children], [subdir]) at their zero values: encoding/json cannot
    set them. *)
Record ItemRecord := mkItemRecord {
  rec_id : string;
  rec_name : string;
  rec_parent : string;
  rec_is_dir : bool;
  rec_deleted : bool;
}.

Definition decode (r : ItemRecord) : DriveItem :=
  mkDriveItem (rec_id r) (rec_name r) (rec_parent r) (rec_is_dir r) (rec_deleted r) None 0.

Record Page := mkPage {
  Values : list ItemRecord;
  NextLink : string;
  DeltaLink : string;
}.

(** The program state: the Go heap of items, the mutexes held by the running
    call, the fields of [Cache], and the server with the log of the requests
    sent to it.  The server answers a request from the requests made before
    it and the resource asked for; [None] is a transport error. *)
Record state := mkState {
  heap : list DriveItem;
  held : list loc;
  metadata : gmap string loc;
  root : string;
  auth : option Auth;
  deltaLink : string;
  requests : list string;
  server : list string → string → option Page;
}.

Definition set_heap (v : list DriveItem) (s : state) : state :=
  mkState v (held s) (metadata s) (root s) (auth s) (deltaLink s) (requests s) (server s).
Definition set_held (v : list loc) (s : state) : state :=
  mkState (heap s) v (metadata s) (root s) (auth s) (deltaLink s) (requests s) (server s).
Definition set_metadata (v : gmap string loc) (s : state) : state :=
  mkState (heap s) (held s) v (root s) (auth s) (deltaLink s) (requests s) (server s).
Definition set_deltaLink (v : string) (s : state) : state :=
  mkState (heap s) (held s) (metadata s) (root s) (auth s) v (requests s) (server s).
Definition set_requests (v : list string) (s : state) : state :=
  mkState (heap s) (held s) (metadata s) (root s) (auth s) (deltaLink s) v (server s).

(** ** The monad of cache methods *)

Inductive outcome (A : Type) : Type :=
| Ok (a : A) (s : state)   (* normal return *)
| Panic                    (* nil pointer dereference *)
| Deadlock.                (* a mutex locked again while held *)
Arguments Ok {A} a s.
Arguments Panic {A}.
Arguments Deadlock {A}.

Definition M (A : Type) : Type := state → outcome A.

Definition ret {A} (a : A) : M A := λ s, Ok a s.
Definition bind {A B} (m : M A) (f : A → M B) : M B := λ s,
  match m s with
  | Ok a s' => f a s'
  | Panic => Panic
  | Deadlock => Deadlock
  end.

Declare Scope M_scope.
Delimit Scope M_scope with M.
Bind Scope M_scope with M.
Notation "x ← y ; z" := (bind y (λ x, z))
  (at level 20, y at level 100, z at level 200, only parsing) : M_scope.
Notation "x ;; z" := (bind x (λ _, z))
  (at level 100, z at level 200, only parsing, right associativity) : M_scope.
Local Open Scope M_scope.

Definition gets {A} (f : state → A) : M A := λ s, Ok (f s) s.
Definition modify (f : state → state) : M unit := λ s, Ok tt (f s).
Definition panic {A} : M A := λ _, Panic.
Definition skip : M unit := ret tt.

(** Dereference of a pointer. *)
Definition load (p : option loc) : M DriveItem := λ s,
  match p with
  | None => Panic
  | Some a => match heap s !! a with Some d => Ok d s | None => Panic end
  end.

(** Update of the item a pointer refers to. *)
Definition update (p : option loc) (f : DriveItem → DriveItem) : M unit :=
  d ← load p;
  match p with
  | None => panic
  | Some a => modify (λ s, set_heap (<[a := f d]> (heap s)) s)
  end.

(** [new(DriveItem)] *)
Definition alloc (d : DriveItem) : M loc := λ s,
  Ok (length (heap s)) (set_heap (heap s ++ [d]) s).

(** [p.mutex.Lock()]: every item owns one mutex, named by the item's
    address.  One call runs at a time, so a mutex is held only by the running
    call; locking it again never returns. *)
Definition Lock (p : option loc) : M unit := λ s,
  match p with
  | None => Panic
  | Some a =>
      if bool_decide (a ∈ held s) then Deadlock
      else Ok tt (set_held (a :: held s) s)
  end.

Fixpoint release (a : loc) (l : list loc) : list loc :=
  match l with
  | [] => []
  | b :: l' => if bool_decide (a = b) then l' else b :: release a l'
  end.

Definition Unlock (p : option loc) : M unit := λ s,
  match p with
  | None => Panic
  | Some a => Ok tt (set_held (release a (held s)) s)
  end.

(** Read of a field through a pointer. *)
Definition read {A} (p : option loc) (f : DriveItem → A) : M A :=
  d ← load p; ret (f d).

(** Accessors of [DriveItem]. *)
Definition ID (p : option loc) : M string := read p IDInternal.
Definition Name (p : option loc) : M string := read p NameInternal.
Definition ParentID (p : option loc) : M string := read p Parent_ID.
Definition IsDir (p : option loc) : M bool := read p is_dir.
Definition SetName (p : option loc) (name : string) : M unit :=
  Lock p;; update p (set_NameInternal name);; Unlock p.

(** ** Registry and tree maintenance *)

(** [func (c *Cache) GetID(id string) *DriveItem] *)
Definition GetID (id : string) : M (option loc) :=
  gets (λ s, metadata s !! id).

Definition metadata_Store (id : string) (item : loc) : M unit :=
  modify (λ s, set_metadata (<[id := item]> (metadata s)) s).

Definition metadata_Delete (id : string) : M unit :=
  modify (λ s, set_metadata (delete id (metadata s)) s).

(** Index of the first element equal to [id], as the [range] loops with an
    early exit find it. *)
Fixpoint index_of (id : string) (l : list string) : option nat :=
  match l with
  | [] => None
  | x :: l' => if bool_decide (x = id) then Some 0%nat else S <$> index_of id l'
  end.

(** What [DeleteID] leaves of a child list: the first occurrence of [id] is
    cut out. *)
Definition remove_first (id : string) (l : list string) : list string :=
  match index_of id l with
  | Some i => take i l ++ drop (S i) l
  | None => l
  end.

(** What [MoveID] makes of a child list: the first occurrence of [old] is
    overwritten in place. *)
Definition replace_first (old new : string) (l : list string) : list string :=
  match index_of old l with
  | Some i => <[i := new]> l
  | None => l
  end.

(** [func (c *Cache) InsertID(id string, item *DriveItem)] *)
Definition InsertID (id : string) (item : loc) : M unit :=
  metadata_Store id item;;
  parentID ← ParentID (Some item);
  if bool_decide (parentID = EmptyString) then skip
  else
    parent ← GetID parentID;
    match parent with
    | None => skip
    | Some _ =>
        Lock parent;;
        p ← load parent;
        (match index_of id (slice (children p)) with
         | Some _ => skip
         | None =>
             Lock (Some item);;
             dir ← IsDir (Some item);
             (if dir then update parent (λ d, set_subdir (subdir d + 1) d)
              else skip);;
             cid ← read (Some item) IDInternal;
             update parent (λ d, set_children (Some (slice (children d) ++ [cid])) d);;
             pid ← read parent IDInternal;
             update (Some item) (set_Parent_ID pid);;
             Unlock (Some item)
         end);;
        Unlock parent
    end.

(** [func (c *Cache) DeleteID(id string)] *)
Definition DeleteID (id : string) : M unit :=
  item ← GetID id;
  (match item with
   | Some _ =>
       parentID ← ParentID item;
       parent ← GetID parentID;
       Lock parent;;
       p ← load parent;
       (match index_of id (slice (children p)) with
        | Some i =>
            update parent (λ d,
              set_children (Some (take i (slice (children d)) ++
                                  drop (S i) (slice (children d)))) d);;
            dir ← IsDir item;
            if dir then update parent (λ d, set_subdir (subdir d - 1) d)
            else skip
        | None => skip
        end);;
       Unlock parent
   | None => skip
   end);;
  metadata_Delete id.

Inductive error : Type :=
| ErrNotInCache (id : string)
| ErrNoAuth (item : loc)
| ErrTransport
| ErrNotExist (prefix : list string)
| ErrParentNil
| ErrCouldNotGet (id : string).

(** [func (c *Cache) MoveID(oldID string, newID string) error] *)
Definition MoveID (oldID newID : string) : M (option error) :=
  item0 ← GetID oldID;
  item1 ← (match item0 with
           | Some _ => ret item0
           | None => GetID newID
           end);
  match item1 with
  | None => ret (Some (ErrCouldNotGet oldID))
  | Some item =>
      parentID ← ParentID item1;
      parent ← GetID parentID;
      Lock parent;;
      p ← load parent;
      (match index_of oldID (slice (children p)) with
       | Some i =>
           update parent (λ d, set_children (Some (<[i := newID]> (slice (children d)))) d)
       | None => skip
       end);;
      Unlock parent;;
      Lock item1;;
      update item1 (set_IDInternal newID);;
      Unlock item1;;
      DeleteID oldID;;
      InsertID newID item;;
      ret None
  end.

(** ** Strings and paths

    The functions of Go's [strings] and [path/filepath] packages that the
    cache calls, on byte strings.  [ToLower] maps the ASCII capitals and
    leaves every other byte as it is; separators are the single byte of the
    one-byte string the code passes. *)

Definition lower_ascii (c : ascii) : ascii :=
  let n := nat_of_ascii c in
  if ((65 <=? n) && (n <=? 90))%nat then ascii_of_nat (n + 32) else c.

Fixpoint ToLower (s : string) : string :=
  match s with
  | EmptyString => EmptyString
  | String c s' => String (lower_ascii c) (ToLower s')
  end.

Definition HasSuffix (s suffix : string) : bool :=
  let n := String.length s in
  let k := String.length suffix in
  (k <=? n)%nat && bool_decide (substring (n - k) k s = suffix).

Definition TrimSuffix (s suffix : string) : string :=
  if HasSuffix s suffix then substring 0 (String.length s - String.length suffix) s
  else s.

Definition TrimPrefix (s pre : string) : string :=
  if String.prefix pre s
  then substring (String.length pre) (String.length s - String.length pre) s
  else s.

Definition slash : ascii := "/"%char.

(** [strings.Split(s, "/")] *)
Fixpoint Split (s : string) : list string :=
  match s with
  | EmptyString => [EmptyString]
  | String c s' =>
      if bool_decide (c = slash) then EmptyString :: Split s'
      else match Split s' with
           | x :: xs => String c x :: xs
           | [] => [String c EmptyString]
           end
  end.

(** [strings.Join(l, "/")] *)
Fixpoint Join (l : list string) : string :=
  match l with
  | [] => EmptyString
  | [x] => x
  | x :: l' => x +:+ "/" +:+ Join l'
  end.

(** [filepath.Clean] on a Unix path, element by element: empty and "."
    elements are dropped, ".." removes the element before it (at the root it
    is dropped, in a relative path with nothing to remove it is kept). *)
Fixpoint clean_elems (rooted : bool) (out : list string) (elems : list string)
  : list string :=
  match elems with
  | [] => rev out
  | e :: elems' =>
      if bool_decide (e = EmptyString) || bool_decide (e = ".") then clean_elems rooted out elems'
      else if bool_decide (e = "..") then
        match out with
        | o :: out' =>
            if bool_decide (o = "..") then clean_elems rooted (e :: out) elems'
            else clean_elems rooted out' elems'
        | [] => if rooted then clean_elems rooted out elems'
                else clean_elems rooted [e] elems'
        end
      else clean_elems rooted (e :: out) elems'
  end.

Definition rooted (path : string) : bool :=
  match path with
  | String c _ => bool_decide (c = slash)
  | EmptyString => false
  end.

Definition Clean (path : string) : string :=
  if bool_decide (path = EmptyString) then "."
  else
    let out := Join (clean_elems (rooted path) [] (Split path)) in
    if rooted path then "/" +:+ out
    else if bool_decide (out = EmptyString) then "." else out.

(** The part of [s] up to and including its last separator. *)
Definition upto_last_slash (s : string) : string :=
  match rev (Split s) with
  | _ :: r => Join (rev (EmptyString :: r))
  | [] => EmptyString
  end.

(** [filepath.Dir] *)
Definition Dir (path : string) : string := Clean (upto_last_slash path).

Fixpoint strip_trailing_slashes (fuel : nat) (s : string) : string :=
  match fuel with
  | O => s
  | S fuel' =>
      if bool_decide (s ≠ EmptyString) && HasSuffix s "/"
      then strip_trailing_slashes fuel' (substring 0 (String.length s - 1) s)
      else s
  end.

(** [filepath.Base] *)
Definition Base (path : string) : string :=
  if bool_decide (path = EmptyString) then "."
  else
    let p := strip_trailing_slashes (String.length path) path in
    let b := default EmptyString (last (Split p)) in
    if bool_decide (b = EmptyString) then "/" else b.

(** ** Requests to the server *)

(** Modelled from the spec: the HTTP client is an external collaborator
    ([RemoteAdapter]); [graph_Get] is the package-level function [Get] the
    cache calls.  A request is logged and answered by the server of the
    state. *)
Definition graph_Get (resource : string) (a : option Auth) : M (option Page) := λ s,
  Ok (server s (requests s) resource) (set_requests (requests s ++ [resource]) s).

(** Modelled from the spec: [ChildrenPathID] is not part of the sources at
    hand; it names the resource [get_children(id)] of the remote. *)
Definition ChildrenPathID (id : string) : string :=
  "/me/drive/items/" +:+ id +:+ "/children".

(** The test [auth == nil] or [auth.AccessToken] empty. *)
Definition no_auth (a : option Auth) : bool :=
  match a with
  | None => true
  | Some t => bool_decide (AccessToken t = EmptyString)
  end.

(** [json.Unmarshal(body, &fetched)]: one new item per record. *)
Fixpoint unmarshal_children (rs : list ItemRecord) : M (list loc) :=
  match rs with
  | [] => ret []
  | r :: rs' =>
      c ← alloc (decode r);
      cs ← unmarshal_children rs';
      ret (c :: cs)
  end.

(** ** Children provider and path resolver *)

(** The loop of [GetChildrenID] over a populated child list. *)
Fixpoint cached_children (ids : list string) (result : gmap string loc)
  : M (gmap string loc) :=
  match ids with
  | [] => ret result
  | id :: ids' =>
      child ← GetID id;
      match child with
      | None => cached_children ids' result
      | Some c =>
          name ← Name child;
          cached_children ids' (<[ToLower name := c]> result)
      end
  end.

(** The loop of [GetChildrenID] over the children the server returned. *)
Fixpoint fetched_children (item : option loc) (fetched : list loc)
    (result : gmap string loc) : M (gmap string loc) :=
  match fetched with
  | [] => ret result
  | c :: fetched' =>
      cid ← read (Some c) IDInternal;
      metadata_Store cid c;;
      name ← Name (Some c);
      update item (λ d, set_children (Some (slice (children d) ++ [cid])) d);;
      dir ← IsDir (Some c);
      (if dir then update item (λ d, set_subdir (subdir d + 1) d) else skip);;
      fetched_children item fetched' (<[ToLower name := c]> result)
  end.

(** [func (c *Cache) GetChildrenID(id string, auth *Auth)
      (map[string]*DriveItem, error)].  A nil map is returned as the empty
    map. *)
Definition GetChildrenID (id : string) (a : option Auth)
  : M (gmap string loc * option error) :=
  item ← GetID id;
  match item with
  | None => ret (∅, Some (ErrNotInCache id))
  | Some i =>
      dir ← IsDir item;
      if negb dir then ret (∅, None)
      else
        d ← load item;
        match children d with
        | Some ids =>
            result ← cached_children ids ∅;
            ret (result, None)
        | None =>
            if no_auth a then ret (∅, Some (ErrNoAuth i))
            else
              body ← graph_Get (ChildrenPathID id) a;
              match body with
              | None => ret (∅, Some ErrTransport)
              | Some page =>
                  fetched ← unmarshal_children (Values page);
                  Lock item;;
                  update item (set_children (Some []));;
                  result ← fetched_children item fetched ∅;
                  Unlock item;;
                  ret (result, None)
              end
        end
  end.

(** The loop of [Get] over the path segments [split[i:]]. *)
Fixpoint Get_loop (split : list string) (i : nat) (rest : list string)
    (lastID : string) (item : option loc) (a : option Auth)
  : M (option loc * option error) :=
  match rest with
  | [] => ret (item, None)
  | seg :: rest' =>
      r ← GetChildrenID lastID a;
      match r.2 with
      | Some err => ret (None, Some err)
      | None =>
          match r.1 !! seg with
          | None => ret (None, Some (ErrNotExist (take (S i) split)))
          | Some c =>
              lastID' ← ID (Some c);
              Get_loop split (S i) rest' lastID' (Some c) a
          end
      end
  end.

(** [func (c *Cache) Get(path string, auth *Auth)], returning an item
    pointer and an error. *)
Definition Get (path : string) (a : option Auth) : M (option loc * option error) :=
  lastID ← gets root;
  if bool_decide (path = "/") then
    item ← GetID lastID;
    ret (item, None)
  else
    let path := TrimSuffix (ToLower path) "/" in
    let split := tail (Split path) in
    Get_loop split 0 split lastID None a.

(** [func (c *Cache) GetChildrenPath(path string, auth *Auth)
      (map[string]*DriveItem, error)] *)
Definition GetChildrenPath (path : string) (a : option Auth)
  : M (gmap string loc * option error) :=
  r ← Get path a;
  match r.2 with
  | Some err => ret (∅, Some err)
  | None =>
      id ← ID r.1;
      GetChildrenID id a
  end.

(** [func (c *Cache) Delete(key string)] *)
Definition Delete (key : string) : M unit :=
  r ← Get (ToLower key) None;
  match r.1 with
  | Some _ =>
      id ← ID r.1;
      DeleteID id
  | None => skip
  end.

(** [func (c *Cache) Insert(key string, auth *Auth, item *DriveItem) error] *)
Definition Insert (key : string) (a : option Auth) (item : option loc)
  : M (option error) :=
  let key := ToLower key in
  r ← Get (Dir key) a;
  match r.2 with
  | Some err => ret (Some err)
  | None =>
      match r.1 with
      | None => ret (Some ErrParentNil)
      | Some _ =>
          parentID ← ID r.1;
          Lock item;;
          update item (set_Parent_ID parentID);;
          Unlock item;;
          id ← ID item;
          match item with
          | Some i => InsertID id i;; ret None
          | None => panic
          end
      end
  end.

(** [func (c *Cache) Move(oldPath string, newPath string, auth *Auth) error] *)
Definition Move (oldPath newPath : string) (a : option Auth) : M (option error) :=
  r ← Get oldPath a;
  match r.2 with
  | Some err => ret (Some err)
  | None =>
      let item := r.1 in
      Delete oldPath;;
      (let newBase := Base newPath in
       if bool_decide (Base oldPath ≠ newBase) then SetName item newBase else skip);;
      e ← Insert newPath a item;
      match e with
      | Some err =>
          SetName item (Base oldPath);;
          Insert oldPath a item;;
          ret (Some err)
      | None => ret None
      end
  end.

(** ** Delta synchroniser *)

(** [func (c *Cache) applyDelta(item DriveItem) error]; the record is passed
    by value. *)
Definition applyDelta (item : DriveItem) : M (option error) :=
  parent ← GetID (Parent_ID item);
  match parent with
  | None => ret None
  | Some _ =>
      if Deleted item then
        DeleteID (IDInternal item);;
        ret None
      else ret None
  end.

(** The loop of [pollDeltas] over [page.Values]. *)
Fixpoint apply_all (items : list ItemRecord) : M unit :=
  match items with
  | [] => skip
  | r :: items' => applyDelta (decode r);; apply_all items'
  end.

Section Delta.
(** The constant [graphURL], the prefix of the server's absolute links, is
    declared in another file of the package. *)
Variable graphURL : string.

(** [func (c *Cache) pollDeltas(auth *Auth) (bool, error)] *)
Definition pollDeltas (a : option Auth) : M (bool * option error) :=
  link ← gets deltaLink;
  resp ← graph_Get link a;
  match resp with
  | None => ret (false, Some ErrTransport)
  | Some page =>
      apply_all (Values page);;
      if bool_decide (NextLink page ≠ EmptyString) then
        modify (set_deltaLink (TrimPrefix (NextLink page) graphURL));;
        ret (true, None)
      else
        modify (set_deltaLink (TrimPrefix (DeltaLink page) graphURL));;
        ret (false, None)
  end.
End Delta.

(** ** Well-formedness and sample states *)

(** Every pointer the registry holds refers to an allocated item (in Go a
    non-nil pointer always does). *)
Definition valid (s : state) : Prop :=
  map_Forall (λ _ a, is_Some (heap s !! a)) (metadata s).

(** A server that answers no request. *)
Definition offline : list string → string → option Page := λ _ _, None.

(** A state with the given items on the heap and the given registry, no
    credentials and an unreachable server. *)
Definition cache_of (h : list DriveItem) (m : gmap string loc) (r : string) : state :=
  mkState h [] m r None "/me/drive/root/delta?token=latest" [] offline.

Definition folder (id name parent : string) (ch : option (list string)) (n : Z)
  : DriveItem := mkDriveItem id name parent true false ch n.
Definition file (id name parent : string) : DriveItem :=
  mkDriveItem id name parent false false None 0.

(** What [DeleteID id] makes of the parent [pd] of the item [d]. *)
Definition delete_child (id : string) (d pd : DriveItem) : DriveItem :=
  match index_of id (slice (children pd)) with
  | Some _ =>
      set_subdir (subdir pd - (if is_dir d then 1 else 0))
        (set_children (Some (remove_first id (slice (children pd)))) pd)
  | None => pd
  end.

(** ** Sequences of calls *)

(** A call of a method of the cache (or of [SetName] on an item) by the
    kernel bridge or by the delta task. *)
Inductive call : Type :=
| CallInsertID (id : string) (item : loc)
| CallDeleteID (id : string)
| CallMoveID (oldID newID : string)
| CallGetChildrenID (id : string) (a : option Auth)
| CallGetChildrenPath (path : string) (a : option Auth)
| CallGet (path : string) (a : option Auth)
| CallDelete (key : string)
| CallInsert (key : string) (a : option Auth) (item : option loc)
| CallMove (oldPath newPath : string) (a : option Auth)
| CallSetName (item : option loc) (name : string)
| CallApplyDelta (item : DriveItem)
| CallPollDeltas (graphURL : string) (a : option Auth).

(** The call, its results dropped. *)
Definition exec (c : call) : M unit :=
  match c with
  | CallInsertID id item => InsertID id item
  | CallDeleteID id => DeleteID id
  | CallMoveID oldID newID => MoveID oldID newID;; skip
  | CallGetChildrenID id a => GetChildrenID id a;; skip
  | CallGetChildrenPath path a => GetChildrenPath path a;; skip
  | CallGet path a => Get path a;; skip
  | CallDelete key => Delete key
  | CallInsert key a item => Insert key a item;; skip
  | CallMove oldPath newPath a => Move oldPath newPath a;; skip
  | CallSetName item name => SetName item name
  | CallApplyDelta item => applyDelta item;; skip
  | CallPollDeltas graphURL a => pollDeltas graphURL a;; skip
  end.

Fixpoint run (cs : list call) : M unit :=
  match cs with
  | [] => skip
  | c :: cs' => exec c;; run cs'
  end.

(** The item at [a] is a directory whose child list is not nil. *)
Definition populated_dir (s : state) (a : loc) : Prop :=
  ∃ d, heap s !! a = Some d ∧ is_dir d = true ∧ is_Some (children d).

(** From [s0] to [s] every item is still allocated, has kept its directory
    flag, and has a child list that is not nil if it was not. *)
Definition grows (s0 s : state) : Prop :=
  ∀ a d, heap s0 !! a = Some d →
    ∃ d', heap s !! a = Some d' ∧ is_dir d' = is_dir d ∧
          (is_Some (children d) → is_Some (children d')).

(** A server for the sample runs: the root "r" has one child "a"; the delta
    feed has two pages, the first with a tombstone for "x". *)
Definition sample_server : list string → string → option Page := λ _ resource,
  if bool_decide (resource = ChildrenPathID "r") then
    Some (mkPage [mkItemRecord "a" "A.txt" "r" false false] EmptyString EmptyString)
  else if bool_decide (resource = "/me/drive/root/delta?token=latest") then
    Some (mkPage [mkItemRecord "x" "x.txt" "r" false true]
            "https://graph.microsoft.com/v1.0/me/drive/root/delta?token=p2" EmptyString)
  else if bool_decide (resource = "/me/drive/root/delta?token=p2") then
    Some (mkPage [] EmptyString
            "https://graph.microsoft.com/v1.0/me/drive/root/delta?token=end")
  else None.

(** A state with credentials and the sample server. *)
Definition online_cache_of (h : list DriveItem) (m : gmap string loc) (r : string)
    (link : string) : state :=
  mkState h [] m r (Some (mkAuth "token")) link [] sample_server.

(** ** Invariants of runs *)

(** The method [m] maintains the state predicate [I] whenever it returns. *)
Definition keeps (I : state → Prop) {A} (m : M A) : Prop :=
  ∀ s, I s → match m s with Ok _ s' => I s' | _ => True end.

(** An update of an item that keeps its directory flag and does not turn a
    child list into nil. *)
Definition tame (f : DriveItem → DriveItem) : Prop :=
  ∀ d, is_dir (f d) = is_dir d ∧ (is_Some (children d) → is_Some (children (f d))).

(** The method [m] returns without changing the state. *)
Definition pure {A} (m : M A) : Prop := ∀ s a s', m s = Ok a s' → s' = s.

(** ** The accuracy of the subdirectory counters *)

(** The directory flag of the item at an address ([false] when nothing is
    allocated there). *)
Definition kind_of (h : list DriveItem) (a : loc) : bool :=
  match h !! a with
  | Some d => is_dir d
  | None => false
  end.

(** The id resolves, through the registry, to a directory. *)
Definition resolves_to_dir (s : state) (id : string) : bool :=
  match metadata s !! id with
  | Some a => kind_of (heap s) a
  | None => false
  end.

(** The number of ids of a child list that resolve to directories. *)
Fixpoint dir_count (s : state) (l : list string) : Z :=
  match l with
  | [] => 0
  | id :: l' => (if resolves_to_dir s id then 1 else 0) + dir_count s l'
  end.

(** Invariant I5 of the spec: the counter of every registered directory is
    the number of its children that resolve to directories. *)
Definition subdir_accurate (s : state) : Prop :=
  ∀ id a d, metadata s !! id = Some a → heap s !! a = Some d →
    is_dir d = true → subdir d = dir_count s (slice (children d)).

(** The item at [a] lists [id] among its children. *)
Definition lists (s : state) (a : loc) (id : string) : Prop :=
  match heap s !! a with
  | Some e => id ∈ slice (children e)
  | None => False
  end.

(** The item at [a] lists [id] more than once. *)
Definition lists_twice (s : state) (a : loc) (id : string) : Prop :=
  match heap s !! a with
  | Some e => id ∈ remove_first id (slice (children e))
  | None => False
  end.

#[global] Instance lists_dec s a id : Decision (lists s a id).
Proof. unfold lists. destruct (heap s !! a); apply _. Defined.

#[global] Instance lists_twice_dec s a id : Decision (lists_twice s a id).
Proof. unfold lists_twice. destruct (heap s !! a); apply _. Defined.

(** No registered item lists [id]. *)
Definition unlisted (s : state) (id : string) : Prop :=
  map_Forall (λ _ a, ¬ lists s a id) (metadata s).

(** The item at [a] lists [id] at most once if it is the one at [p], and not
    at all otherwise. *)
Definition listing_allowed (s : state) (id : string) (p a : loc) : Prop :=
  if decide (a = p) then ¬ lists_twice s a id else ¬ lists s a id.

#[global] Instance listing_allowed_dec s id p a : Decision (listing_allowed s id p a).
Proof. unfold listing_allowed. destruct (decide (a = p)); apply _. Defined.

(** No registered item but the one at [p] lists [id], and that one lists it
    at most once. *)
Definition listed_by_at_most (s : state) (id : string) (p : loc) : Prop :=
  map_Forall (λ _ a, listing_allowed s id p a) (metadata s).

(** The parent [DeleteID] and [MoveID] look up for the item registered under
    [id]. *)
Definition parent_of (s : state) (id : string) : option loc :=
  match metadata s !! id with
  | Some i =>
      match heap s !! i with
      | Some d => metadata s !! Parent_ID d
      | None => None
      end
  | None => None
  end.

(** The calls after which the counters are accurate if they were before.
    - [InsertID] registers an item under the id the item carries; either the
      item is registered under that id already, or the id is listed by no
      registered item nor by the item itself, whose own counter is accurate.
    - [DeleteID] removes an id that only the parent of its item lists, and at
      most once.
    - [MoveID] renames to another id, which no registered item lists; the old
      id is listed as for [DeleteID], or by no one if it is not registered.
    - [GetChildrenID] is answered by the server, if it is asked, with
      children of distinct ids that no registered item lists. *)
Definition admissible (s : state) (c : call) : Prop :=
  match c with
  | CallInsertID id i =>
      match heap s !! i with
      | Some d =>
          IDInternal d = id ∧
          (metadata s !! id = Some i ∨
           (unlisted s id ∧ (id ∉ slice (children d)) ∧
            (is_dir d = true → subdir d = dir_count s (slice (children d)))))
      | None => True
      end
  | CallDeleteID id =>
      match parent_of s id with
      | Some p => listed_by_at_most s id p
      | None => True
      end
  | CallMoveID a b =>
      a ≠ b ∧
      match metadata s !! a with
      | Some _ =>
          unlisted s b ∧
          match parent_of s a with
          | Some p => listed_by_at_most s a p
          | None => True
          end
      | None => unlisted s a
      end
  | CallGetChildrenID id au =>
      match server s (requests s) (ChildrenPathID id) with
      | Some page =>
          NoDup (rec_id <$> Values page) ∧
          Forall (λ r, unlisted s (rec_id r)) (Values page)
      | None => True
      end
  | _ => False
  end.

(** Every call of the sequence is admissible in the state it is made in. *)
Fixpoint admissible_run (s : state) (cs : list call) : Prop :=
  match cs with
  | [] => True
  | c :: cs' =>
      admissible s c ∧ ∀ s1, exec c s = Ok tt s1 → admissible_run s1 cs'
  end.

(** No call is in progress, registered pointers are allocated, and the
    counters are accurate. *)
Definition settled (s : state) : Prop :=
  held s = [] ∧ valid s ∧ subdir_accurate s.

(** The registry after the children that the server returned, allocated from
    the address [n] on, have been stored under their ids. *)
Fixpoint store_all (m : gmap string loc) (rs : list ItemRecord) (n : loc)
  : gmap string loc :=
  match rs with
  | [] => m
  | r :: rs' => store_all (<[rec_id r := n]> m) rs' (S n)
  end.

(** The number of directories among the records of a page. *)
Fixpoint ndirs (rs : list ItemRecord) : Z :=
  match rs with
  | [] => 0
  | r :: rs' => (if rec_is_dir r then 1 else 0) + ndirs rs'
  end.

(** The counter of the item at [a] is accurate if the item is a directory. *)
Definition counter_accurate (s : state) (a : loc) : Prop :=
  match heap s !! a with
  | Some d => is_dir d = true → subdir d = dir_count s (slice (children d))
  | None => True
  end.

#[global] Instance counter_accurate_dec s a : Decision (counter_accurate s a).
Proof. unfold counter_accurate. destruct (heap s !! a); apply _. Defined.

(** ** Path resolution answered from the cache *)

(** The segments [Get] walks for a path other than "/". *)
Definition segments (p : string) : list string :=
  tail (Split (TrimSuffix (ToLower p) "/")).

(** The map [GetChildrenID] builds from a populated child list: dangling ids
    are skipped, a later child takes the place of an earlier one with the
    same lower-cased name. *)
Fixpoint child_map (s : state) (ids : list string) (result : gmap string loc)
  : gmap string loc :=
  match ids with
  | [] => result
  | id :: ids' =>
      match metadata s !! id with
      | None => child_map s ids' result
      | Some c =>
          match heap s !! c with
          | Some d => child_map s ids' (<[ToLower (NameInternal d) := c]> result)
          | None => child_map s ids' result
          end
      end
  end.

(** One iteration of the loop of [Get] when the directory registered under
    [lastID] is populated: the child that the segment names. *)
Definition step (s : state) (lastID seg : string) : option loc :=
  match metadata s !! lastID with
  | Some q =>
      match heap s !! q with
      | Some dq =>
          if is_dir dq then
            match children dq with
            | Some ids => child_map s ids ∅ !! seg
            | None => None
            end
          else None
      | None => None
      end
  | None => None
  end.

(** The loop of [Get] when every directory on the way is populated. *)
Fixpoint walk (s : state) (lastID : string) (segs : list string) (item : option loc)
  : option loc :=
  match segs with
  | [] => item
  | seg :: rest =>
      match step s lastID seg with
      | Some c =>
          match heap s !! c with
          | Some d => walk s (IDInternal d) rest (Some c)
          | None => None
          end
      | None => None
      end
  end.

(** [Get] when every directory on the way is populated. *)
Definition resolve (s : state) (p : string) : option loc :=
  if bool_decide (p = "/") then metadata s !! root s
  else walk s (root s) (segments p) None.

(** ** Moves by path *)

(** The item at [a] carries the id [k]. *)
Definition carries (s : state) (k : string) (a : loc) : Prop :=
  match heap s !! a with
  | Some d => IDInternal d = k
  | None => True
  end.

#[global] Instance carries_dec s k a : Decision (carries s k a).
Proof. unfold carries. destruct (heap s !! a); apply _. Defined.

(** Every registered item is registered under the id it carries. *)
Definition keyed (s : state) : Prop :=
  map_Forall (λ k a, carries s k a) (metadata s).

(** The children that the item at [q] lists and that are registered have a
    greater rank than [q]. *)
Definition ranks_children (rank : loc → nat) (s : state) (q : loc) : Prop :=
  match heap s !! q with
  | Some dq =>
      Forall (λ cid, match metadata s !! cid with
                     | Some c => (rank q < rank c)%nat
                     | None => True
                     end) (slice (children dq))
  | None => True
  end.

#[global] Instance ranks_children_dec rank s q : Decision (ranks_children rank s q).
Proof.
  unfold ranks_children. destruct (heap s !! q); [|apply _].
  apply Forall_dec. intros cid. destruct (metadata s !! cid); apply _.
Defined.

(** The listing of children by registered items has no cycle: ranks grow
    from a directory to its children. *)
Definition ranked (rank : loc → nat) (s : state) : Prop :=
  map_Forall (λ _ q, ranks_children rank s q) (metadata s).

(** What [InsertID] makes of the parent [pd] of an item with the id [id]
    that it does not list yet. *)
Definition append_child (id : string) (dir : bool) (pd : DriveItem) : DriveItem :=
  set_children (Some (slice (children pd) ++ [id]))
    (set_subdir (subdir pd + (if dir then 1 else 0)) pd).

(** The state after [Delete] has taken the item [di] at [i] out of the child
    list of its parent [dD] at [D] and out of the registry, and [SetName] has
    given it the name [name]. *)
Definition unlinked (s : state) (i D : loc) (di dD : DriveItem) (name : string)
  : state :=
  set_heap (<[i := set_NameInternal name di]>
              (<[D := delete_child (IDInternal di) di dD]> (heap s)))
    (set_metadata (delete (IDInternal di) (metadata s)) s).

(** The state after [Insert] has registered the item [di] at [i] and
    appended it to the child list of the directory [dD] at [D]. *)
Definition linked (s : state) (i D : loc) (di dD : DriveItem) : state :=
  set_heap (<[i := set_Parent_ID (IDInternal dD) di]>
              (<[D := append_child (IDInternal di) (is_dir di) dD]> (heap s)))
    (set_metadata (<[IDInternal di := i]> (metadata s)) s).

(** The item at [q] is not a directory whose child list is nil. *)
Definition loaded (s : state) (q : loc) : Prop :=
  match heap s !! q with
  | Some dq => is_dir dq = true → children dq ≠ None
  | None => True
  end.

#[global] Instance loaded_dec s q : Decision (loaded s q).
Proof. unfold loaded. destruct (heap s !! q); apply _. Defined.

(** The children of every registered directory are in the cache: no lookup
    asks the server. *)
Definition cached (s : state) : Prop :=
  map_Forall (λ _ q, loaded s q) (metadata s).

(** The segments [Insert] walks to the directory of a path. *)
Definition dir_segments (p : string) : list string :=
  if bool_decide (Dir (ToLower p) = "/") then [] else segments (Dir (ToLower p)).

(** The path is absolute and clean: the resolver walks to its directory, as
    [filepath.Dir] gives it, and then to its last element, as [filepath.Base]
    gives it. *)
Definition splits (p : string) : Prop :=
  p ≠ "/" ∧ ToLower p ≠ "/" ∧
  segments p = dir_segments p ++ [ToLower (Base p)] ∧
  (Dir (ToLower p) ≠ "/" → dir_segments p ≠ []).

(** The second state is the first up to the order of the child lists. *)
Definition same_tree (s s2 : state) : Prop :=
  metadata s2 = metadata s ∧ requests s2 = requests s ∧ held s2 = held s ∧
  length (heap s2) = length (heap s) ∧
  ∀ x d, heap s !! x = Some d →
    ∃ d2, heap s2 !! x = Some d2 ∧
      IDInternal d2 = IDInternal d ∧ NameInternal d2 = NameInternal d ∧
      Parent_ID d2 = Parent_ID d ∧ is_dir d2 = is_dir d ∧ Deleted d2 = Deleted d ∧
      subdir d2 = subdir d ∧
      (children d2 = None ↔ children d = None) ∧
      slice (children d2) ≡ₚ slice (children d).

(** ** Paths without a separator *)

(** The path holds a "/". *)
Fixpoint has_slash (s : string) : bool :=
  match s with
  | EmptyString => false
  | String c s' => bool_decide (c = slash) || has_slash s'
  end.

(** The last byte of the path is a "/". *)
Fixpoint ends_with_slash (s : string) : bool :=
  match s with
  | EmptyString => false
  | String c EmptyString => bool_decide (c = slash)
  | String _ s' => ends_with_slash s'
  end.

(** ** The delta task *)

(** The inner loop of [deltaLoop]: it polls until a poll fails or the server
    announces no next page.  The result tells whether the loop was left
    within [fuel] polls. *)
Fixpoint sync_deltas (graphURL : string) (fuel : nat) : M bool :=
  match fuel with
  | O => ret false
  | S fuel' =>
      a ← gets auth;
      r ← pollDeltas graphURL a;
      match r.2 with
      | Some _ => ret true
      | None => if r.1 then sync_deltas graphURL fuel' else ret true
      end
  end.

(** [func (c *Cache) deltaLoop(interval time.Duration)], its first [rounds]
    passes; the sleep between two passes does not touch the cache.  The
    result tells whether every pass ended within [fuel] polls. *)
Fixpoint deltaLoop (graphURL : string) (fuel rounds : nat) : M bool :=
  match rounds with
  | O => ret true
  | S rounds' =>
      ended ← sync_deltas graphURL fuel;
      if ended then deltaLoop graphURL fuel rounds' else ret false
  end.

(** ** Locks *)

(** A computation that, started with the locks [L] held, returns with the
    locks [L'] held. *)
Definition lock_step {A} (L L' : list loc) (m : M A) : Prop :=
  ∀ s a s', held s = L → m s = Ok a s' → held s' = L'.

(** A computation that returns with the locks held that it found held. *)
Definition balanced {A} (m : M A) : Prop := ∀ L, lock_step L L m.

(** ** The unmount handler *)

(** The numbers of the signals the handler tells apart ([syscall.SIGINT],
    [syscall.SIGTERM]). *)
Definition SIGINT : Z := 2.
Definition SIGTERM : Z := 15.

(** [func UnmountHandler(signal <-chan os.Signal, server *fuse.Server)],
    once a signal has been received: the lines it logs and the status it
    exits with.  [unmount] is the result of [server.Unmount()], the error
    text when it fails. *)
Definition UnmountHandler (sig : Z) (unmount : option string) : list string * Z :=
  let text := if bool_decide (sig = SIGINT) then "SIGINT" else "SIGTERM" in
  let code := if bool_decide (sig = SIGINT) then SIGINT else SIGTERM in
  ([text +:+ " received, unmounting filesystem..."] ++
   match unmount with
   | Some err => [err]
   | None => []
   end,
   128 + code).

(** ** The registry *)

(** A computation that returns with the registry it found. *)
Definition registry_kept {A} (m : M A) : Prop :=
  ∀ s a s', m s = Ok a s' → metadata s' = metadata s.

(** ** The items *)

(** From [s] to [s'] no item is allocated and every item keeps its id, its
    name, its parent id, its kind and its deletion mark: only child lists
    and counters of sub-directories differ. *)
Definition same_items (s s' : state) : Prop :=
  length (heap s') = length (heap s) ∧
  ∀ a d, heap s !! a = Some d →
    ∃ d', heap s' !! a = Some d' ∧
      IDInternal d' = IDInternal d ∧ NameInternal d' = NameInternal d ∧
      Parent_ID d' = Parent_ID d ∧ is_dir d' = is_dir d ∧ Deleted d' = Deleted d.

(** A computation that returns with the items it found, up to their child
    lists and counters. *)
Definition items_kept {A} (m : M A) : Prop :=
  ∀ s a s', m s = Ok a s' → same_items s s'.

(** An update of an item that writes its child list or its counter only. *)
Definition lists_only (f : DriveItem → DriveItem) : Prop :=
  ∀ d, IDInternal (f d) = IDInternal d ∧ NameInternal (f d) = NameInternal d ∧
       Parent_ID (f d) = Parent_ID d ∧ is_dir (f d) = is_dir d ∧
       Deleted (f d) = Deleted d.

(** * Properties *)

(** ** The string functions on sample inputs *)

Example Split_abs : Split "/a/b" = [EmptyString; "a"; "b"].
Proof. reflexivity. Qed.
Example Split_empty : Split EmptyString = [EmptyString].
Proof. reflexivity. Qed.
Example Dir_file : Dir "/a/b/x.txt" = "/a/b".
Proof. reflexivity. Qed.
Example Dir_top : Dir "/x.txt" = "/".
Proof. reflexivity. Qed.
Example Dir_rel : Dir "x.txt" = ".".
Proof. reflexivity. Qed.
Example Dir_dots : Dir "/a/../b/./c" = "/b".
Proof. reflexivity. Qed.
Example Base_file : Base "/a/b/X.txt" = "X.txt".
Proof. reflexivity. Qed.
Example Base_slashes : Base "/a/b//" = "b".
Proof. reflexivity. Qed.
Example Base_root : Base "/" = "/".
Proof. reflexivity. Qed.
Example TrimSuffix_slash : TrimSuffix "/a/b/" "/" = "/a/b".
Proof. reflexivity. Qed.
Example TrimPrefix_url : TrimPrefix "https://g/v1/me/delta" "https://g/v1" = "/me/delta".
Proof. reflexivity. Qed.
Example ToLower_mixed : ToLower "/Docs/ReadMe.TXT" = "/docs/readme.txt".
Proof. reflexivity. Qed.

(** ** Running the methods

    Tactics that evaluate a method one monadic step at a time, and the effect
    of each tree operation as an equation on states. *)

Ltac msimpl :=
  cbn [heap held metadata root auth deltaLink requests server
       IDInternal NameInternal Parent_ID is_dir Deleted children subdir
       Values NextLink DeltaLink fst snd] in *.
Ltac munfold :=
  cbv beta iota delta [bind ret skip gets modify panic read load update Lock Unlock
    GetID ParentID IsDir ID Name metadata_Store metadata_Delete
    set_heap set_held set_metadata set_deltaLink set_requests];
  msimpl.
(** *** Field reads after field writes *)

Create Rewrite HintDb item.

Lemma IDInternal_set_IDInternal v d : IDInternal (set_IDInternal v d) = v.
Proof. reflexivity. Qed.
Lemma IDInternal_set_NameInternal v d : IDInternal (set_NameInternal v d) = IDInternal d.
Proof. reflexivity. Qed.
Lemma IDInternal_set_Parent_ID v d : IDInternal (set_Parent_ID v d) = IDInternal d.
Proof. reflexivity. Qed.
Lemma IDInternal_set_children v d : IDInternal (set_children v d) = IDInternal d.
Proof. reflexivity. Qed.
Lemma IDInternal_set_subdir v d : IDInternal (set_subdir v d) = IDInternal d.
Proof. reflexivity. Qed.
Lemma NameInternal_set_IDInternal v d : NameInternal (set_IDInternal v d) = NameInternal d.
Proof. reflexivity. Qed.
Lemma NameInternal_set_NameInternal v d : NameInternal (set_NameInternal v d) = v.
Proof. reflexivity. Qed.
Lemma NameInternal_set_Parent_ID v d : NameInternal (set_Parent_ID v d) = NameInternal d.
Proof. reflexivity. Qed.
Lemma NameInternal_set_children v d : NameInternal (set_children v d) = NameInternal d.
Proof. reflexivity. Qed.
Lemma NameInternal_set_subdir v d : NameInternal (set_subdir v d) = NameInternal d.
Proof. reflexivity. Qed.
Lemma Parent_ID_set_IDInternal v d : Parent_ID (set_IDInternal v d) = Parent_ID d.
Proof. reflexivity. Qed.
Lemma Parent_ID_set_NameInternal v d : Parent_ID (set_NameInternal v d) = Parent_ID d.
Proof. reflexivity. Qed.
Lemma Parent_ID_set_Parent_ID v d : Parent_ID (set_Parent_ID v d) = v.
Proof. reflexivity. Qed.
Lemma Parent_ID_set_children v d : Parent_ID (set_children v d) = Parent_ID d.
Proof. reflexivity. Qed.
Lemma Parent_ID_set_subdir v d : Parent_ID (set_subdir v d) = Parent_ID d.
Proof. reflexivity. Qed.
Lemma is_dir_set_IDInternal v d : is_dir (set_IDInternal v d) = is_dir d.
Proof. reflexivity. Qed.
Lemma is_dir_set_NameInternal v d : is_dir (set_NameInternal v d) = is_dir d.
Proof. reflexivity. Qed.
Lemma is_dir_set_Parent_ID v d : is_dir (set_Parent_ID v d) = is_dir d.
Proof. reflexivity. Qed.
Lemma is_dir_set_children v d : is_dir (set_children v d) = is_dir d.
Proof. reflexivity. Qed.
Lemma is_dir_set_subdir v d : is_dir (set_subdir v d) = is_dir d.
Proof. reflexivity. Qed.
Lemma Deleted_set_IDInternal v d : Deleted (set_IDInternal v d) = Deleted d.
Proof. reflexivity. Qed.
Lemma Deleted_set_NameInternal v d : Deleted (set_NameInternal v d) = Deleted d.
Proof. reflexivity. Qed.
Lemma Deleted_set_Parent_ID v d : Deleted (set_Parent_ID v d) = Deleted d.
Proof. reflexivity. Qed.
Lemma Deleted_set_children v d : Deleted (set_children v d) = Deleted d.
Proof. reflexivity. Qed.
Lemma Deleted_set_subdir v d : Deleted (set_subdir v d) = Deleted d.
Proof. reflexivity. Qed.
Lemma children_set_IDInternal v d : children (set_IDInternal v d) = children d.
Proof. reflexivity. Qed.
Lemma children_set_NameInternal v d : children (set_NameInternal v d) = children d.
Proof. reflexivity. Qed.
Lemma children_set_Parent_ID v d : children (set_Parent_ID v d) = children d.
Proof. reflexivity. Qed.
Lemma children_set_children v d : children (set_children v d) = v.
Proof. reflexivity. Qed.
Lemma children_set_subdir v d : children (set_subdir v d) = children d.
Proof. reflexivity. Qed.
Lemma subdir_set_IDInternal v d : subdir (set_IDInternal v d) = subdir d.
Proof. reflexivity. Qed.
Lemma subdir_set_NameInternal v d : subdir (set_NameInternal v d) = subdir d.
Proof. reflexivity. Qed.
Lemma subdir_set_Parent_ID v d : subdir (set_Parent_ID v d) = subdir d.
Proof. reflexivity. Qed.
Lemma subdir_set_children v d : subdir (set_children v d) = subdir d.
Proof. reflexivity. Qed.
Lemma subdir_set_subdir v d : subdir (set_subdir v d) = v.
Proof. reflexivity. Qed.
#[global] Hint Rewrite IDInternal_set_IDInternal IDInternal_set_NameInternal IDInternal_set_Parent_ID IDInternal_set_children
  IDInternal_set_subdir NameInternal_set_IDInternal NameInternal_set_NameInternal NameInternal_set_Parent_ID
  NameInternal_set_children NameInternal_set_subdir Parent_ID_set_IDInternal Parent_ID_set_NameInternal
  Parent_ID_set_Parent_ID Parent_ID_set_children Parent_ID_set_subdir is_dir_set_IDInternal
  is_dir_set_NameInternal is_dir_set_Parent_ID is_dir_set_children is_dir_set_subdir
  Deleted_set_IDInternal Deleted_set_NameInternal Deleted_set_Parent_ID Deleted_set_children
  Deleted_set_subdir children_set_IDInternal children_set_NameInternal children_set_Parent_ID
  children_set_children children_set_subdir subdir_set_IDInternal subdir_set_NameInternal
  subdir_set_Parent_ID subdir_set_children subdir_set_subdir : item.


Ltac mside :=
  first [ done | by rewrite list_elem_of_singleton | by apply not_elem_of_nil
        | by (rewrite list_elem_of_singleton; congruence) | congruence
        | by (rewrite ?length_insert; eapply lookup_lt_Some; eassumption) ].

Lemma release_head a l : release a (a :: l) = l.
Proof. simpl. by rewrite bool_decide_eq_true_2. Qed.

Ltac mstep :=
  msimpl;
  match goal with
  | |- _ => progress autorewrite with item
  | |- context [release ?a (?a :: ?l)] => rewrite (release_head a l)
  | |- context [@insert _ _ _ (@list_insert _) ?a ?x
                   (@insert _ _ _ (@list_insert _) ?a ?y ?h)] =>
      rewrite (list_insert_insert_eq h a x y)
  | |- context [@lookup _ _ _ (@list_lookup _) ?a
                   (@insert _ _ _ (@list_insert _) ?a ?x ?h)] =>
      rewrite (list_lookup_insert_eq h a x) by mside
  | |- context [@lookup _ _ _ (@list_lookup _) ?b
                   (@insert _ _ _ (@list_insert _) ?a ?x ?h)] =>
      rewrite (list_lookup_insert_ne h a b x) by mside
  | H : ?x = _ |- context [match ?x with _ => _ end] => rewrite H
  | |- context [bool_decide ?P] =>
      first [ rewrite (bool_decide_eq_true_2 P) by mside
            | rewrite (bool_decide_eq_false_2 P) by mside ]
  end.
Ltac mrun := repeat mstep; msimpl.

Lemma bind_Ok {A B} (m : M A) (f : A → M B) s a s' :
  m s = Ok a s' → bind m f s = f a s'.
Proof. unfold bind. by intros ->. Qed.

Lemma set_subdir_same d : set_subdir (subdir d) d = d.
Proof. by destruct d. Qed.

(** *** index_of and the removal of the first occurrence *)

Lemma index_of_None id l : index_of id l = None ↔ id ∉ l.
Proof.
  induction l as [|x l IH]; simpl.
  - split; [intros _; apply not_elem_of_nil | done].
  - case_bool_decide as Hx.
    + subst. split; [done | intros []; left].
    + destruct (index_of id l); simpl.
      * split; [done|]. intros Hn. exfalso. apply Hn. right. apply dec_stable.
        intros Hid. by apply IH in Hid.
      * split; [|done]. intros _ [->|Hin]%elem_of_cons; [done|]. by apply IH.
Qed.

Lemma index_of_Some id l i :
  index_of id l = Some i → l !! i = Some id ∧ id ∉ take i l.
Proof.
  revert i. induction l as [|x l IH]; intros i; simpl; [done|].
  case_bool_decide as Hx.
  - intros [= <-]. subst. simpl. split; [done | apply not_elem_of_nil].
  - destruct (index_of id l) as [j|] eqn:Hj; simpl; [|done].
    intros [= <-]. destruct (IH j eq_refl) as [H1 H2]. simpl. split; [done|].
    intros [->|Hin]%elem_of_cons; done.
Qed.

Lemma index_of_is_Some id l : id ∈ l → is_Some (index_of id l).
Proof.
  intros Hin. destruct (index_of id l) eqn:H; [by eexists|].
  by apply index_of_None in H.
Qed.

Lemma index_of_app_fresh id l : id ∉ l → index_of id (l ++ [id]) = Some (length l).
Proof.
  induction l as [|x l IH]; simpl; intros Hn.
  - by rewrite bool_decide_eq_true_2.
  - rewrite bool_decide_eq_false_2 by (intros ->; apply Hn; left).
    rewrite IH; [done|]. intros Hin. apply Hn. by right.
Qed.

Lemma remove_first_app_fresh id l : id ∉ l → remove_first id (l ++ [id]) = l.
Proof.
  intros Hn. unfold remove_first. rewrite index_of_app_fresh by done.
  rewrite take_app_length. rewrite drop_ge by (rewrite length_app; simpl; lia).
  by rewrite app_nil_r.
Qed.

Lemma remove_first_notin id l : id ∉ l → remove_first id l = l.
Proof. intros Hn. unfold remove_first. by apply index_of_None in Hn as ->. Qed.

Lemma remove_first_cons id x l :
  remove_first id (x :: l) = if bool_decide (x = id) then l else x :: remove_first id l.
Proof.
  unfold remove_first. simpl. case_bool_decide; simpl.
  - by rewrite drop_0.
  - by destruct (index_of id l).
Qed.

Lemma replace_first_cons old new x l :
  replace_first old new (x :: l) =
    if bool_decide (x = old) then new :: l else x :: replace_first old new l.
Proof.
  unfold replace_first. simpl. case_bool_decide; simpl; [done|].
  by destruct (index_of old l).
Qed.

Lemma remove_first_perm id l : id ∈ l → l ≡ₚ id :: remove_first id l.
Proof.
  induction l as [|x l IH]; [by intros ?%not_elem_of_nil|].
  rewrite remove_first_cons. case_bool_decide as Hx; [by subst|].
  intros [->|Hin]%elem_of_cons; [done|].
  rewrite (IH Hin) at 1. apply Permutation_swap.
Qed.

Lemma remove_first_NoDup id l : NoDup l → id ∉ remove_first id l.
Proof.
  induction 1 as [|x l Hx Hl IH]; [apply not_elem_of_nil|].
  rewrite remove_first_cons. case_bool_decide as Hid; [by subst|].
  intros [->|Hin]%elem_of_cons; done.
Qed.

Lemma remove_first_subseteq id l x : x ∈ remove_first id l → x ∈ l.
Proof.
  induction l as [|y l IH]; [done|].
  rewrite remove_first_cons. case_bool_decide; [by right|].
  intros [->|Hin]%elem_of_cons; [left | right; auto].
Qed.

Lemma replace_first_length old new l : length (replace_first old new l) = length l.
Proof. unfold replace_first. destruct (index_of old l); [apply length_insert | done]. Qed.

Lemma replace_first_lookup old new l i :
  replace_first old new l !! i =
    if bool_decide (index_of old l = Some i) then Some new else l !! i.
Proof.
  unfold replace_first. destruct (index_of old l) as [j|] eqn:Hj.
  - destruct (index_of_Some _ _ _ Hj) as [Hl _]. apply lookup_lt_Some in Hl.
    case_bool_decide as Hij.
    + injection Hij as ->. by apply list_lookup_insert_eq.
    + apply list_lookup_insert_ne. congruence.
  - by rewrite bool_decide_eq_false_2.
Qed.

Lemma index_of_replace_first old new l :
  old ≠ new → old ∈ l → new ∉ l →
  index_of new (replace_first old new l) = index_of old l.
Proof.
  intros Hne. induction l as [|x l IH]; [done|].
  rewrite replace_first_cons. simpl. intros Hin Hnew.
  apply not_elem_of_cons in Hnew as [Hx Hnew].
  case_bool_decide as Ho; simpl.
  - by rewrite bool_decide_eq_true_2.
  - rewrite bool_decide_eq_false_2 by done.
    apply elem_of_cons in Hin as [->|Hin]; [done|]. by rewrite IH.
Qed.

Lemma replace_first_new_in old new l : old ∈ l → new ∈ replace_first old new l.
Proof.
  induction l as [|x l IH]; [by intros ?%not_elem_of_nil|].
  rewrite replace_first_cons. case_bool_decide; [left|].
  intros [->|Hin]%elem_of_cons; [done|]. right; auto.
Qed.

Lemma remove_replace_first old new l :
  old ≠ new → old ∈ l → NoDup l →
  remove_first old (replace_first old new l) = replace_first old new l.
Proof.
  intros Hne Hin Hnd. apply remove_first_notin.
  induction Hnd as [|x l Hx Hl IH]; [by apply not_elem_of_nil in Hin|].
  rewrite replace_first_cons. case_bool_decide as Ho.
  - subst. intros [->|H]%elem_of_cons; done.
  - apply elem_of_cons in Hin as [->|Hin]; [done|].
    intros [->|H]%elem_of_cons; [done|]. by apply IH.
Qed.

(** *** The effect of InsertID *)

Lemma InsertID_stored id i d s :
  heap s !! i = Some d →
  Parent_ID d = EmptyString ∨ <[id:=i]> (metadata s) !! Parent_ID d = None →
  InsertID id i s = Ok tt (set_metadata (<[id:=i]> (metadata s)) s).
Proof.
  intros Hi H. unfold InsertID. destruct s as [h l m r a dl rq sv]. munfold.
  destruct H as [H|H]; mrun; try done.
  case_bool_decide; mrun; done.
Qed.

Lemma InsertID_present id i d p pd k s :
  held s = [] →
  heap s !! i = Some d →
  Parent_ID d ≠ EmptyString →
  <[id:=i]> (metadata s) !! Parent_ID d = Some p →
  heap s !! p = Some pd →
  index_of id (slice (children pd)) = Some k →
  InsertID id i s = Ok tt (set_metadata (<[id:=i]> (metadata s)) s).
Proof.
  intros Hl Hi Hne Hp Hpd Hk. unfold InsertID. destruct s as [h l m r a dl rq sv]. munfold.
  subst l. mrun. done.
Qed.

Lemma InsertID_append id i d p pd s :
  held s = [] →
  heap s !! i = Some d →
  Parent_ID d ≠ EmptyString →
  <[id:=i]> (metadata s) !! Parent_ID d = Some p →
  heap s !! p = Some pd →
  index_of id (slice (children pd)) = None →
  p ≠ i →
  InsertID id i s =
    Ok tt (set_heap
             (<[i := set_Parent_ID (IDInternal pd) d]>
                (<[p := set_children (Some (slice (children pd) ++ [IDInternal d]))
                          (set_subdir (subdir pd + (if is_dir d then 1 else 0)) pd)]>
                   (heap s)))
             (set_metadata (<[id:=i]> (metadata s)) s)).
Proof.
  intros Hl Hi Hne Hp Hpd Hk Hpi. unfold InsertID. destruct s as [h l m r a dl rq sv]. munfold.
  subst l. mrun.
  destruct (is_dir d) eqn:Hd; mrun.
  - destruct pd; done.
  - rewrite Z.add_0_r. destruct pd; done.
Qed.

Lemma InsertID_deadlock id i d s :
  held s = [] →
  heap s !! i = Some d →
  Parent_ID d ≠ EmptyString →
  <[id:=i]> (metadata s) !! Parent_ID d = Some i →
  index_of id (slice (children d)) = None →
  InsertID id i s = Deadlock.
Proof.
  intros Hl Hi Hne Hp Hk. unfold InsertID. destruct s as [h l m r a dl rq sv]. munfold.
  subst l. mrun. done.
Qed.

Lemma InsertID_invalid id i s : heap s !! i = None → InsertID id i s = Panic.
Proof.
  intros Hi. unfold InsertID. destruct s as [h l m r a dl rq sv]. munfold. mrun. done.
Qed.

(** *** The effect of DeleteID *)

Lemma DeleteID_absent id s :
  metadata s !! id = None →
  DeleteID id s = Ok tt (set_metadata (delete id (metadata s)) s).
Proof.
  intros Hi. unfold DeleteID. destruct s as [h l m r a dl rq sv]. munfold. mrun. done.
Qed.

Lemma DeleteID_nil_parent id i d s :
  metadata s !! id = Some i →
  heap s !! i = Some d →
  metadata s !! Parent_ID d = None →
  DeleteID id s = Panic.
Proof.
  intros Hi Hd Hp. unfold DeleteID. destruct s as [h l m r a dl rq sv]. munfold. mrun. done.
Qed.

Lemma DeleteID_unlisted id i d p pd s :
  held s = [] →
  metadata s !! id = Some i →
  heap s !! i = Some d →
  metadata s !! Parent_ID d = Some p →
  heap s !! p = Some pd →
  index_of id (slice (children pd)) = None →
  DeleteID id s = Ok tt (set_metadata (delete id (metadata s)) s).
Proof.
  intros Hl Hi Hd Hp Hpd Hk. unfold DeleteID. destruct s as [h l m r a dl rq sv]. munfold.
  subst l. mrun. done.
Qed.

Lemma DeleteID_listed id i d p pd k s :
  held s = [] →
  metadata s !! id = Some i →
  heap s !! i = Some d →
  metadata s !! Parent_ID d = Some p →
  heap s !! p = Some pd →
  index_of id (slice (children pd)) = Some k →
  DeleteID id s =
    Ok tt (set_heap
             (<[p := set_subdir (subdir pd - (if is_dir d then 1 else 0))
                       (set_children (Some (remove_first id (slice (children pd)))) pd)]>
                (heap s))
             (set_metadata (delete id (metadata s)) s)).
Proof.
  intros Hl Hi Hd Hp Hpd Hk. unfold DeleteID. destruct s as [h l m r a dl rq sv]. munfold.
  subst l. unfold remove_first. rewrite Hk.
  destruct (decide (p = i)) as [->|Hne].
  - assert (pd = d) as -> by congruence.
    mrun. destruct (is_dir d); mrun; [done|].
    rewrite Z.sub_0_r. by destruct d.
  - mrun. destruct (is_dir d); mrun; [done|].
    rewrite Z.sub_0_r. by destruct pd.
Qed.

(** ** DeleteID and the nil parent *)

Lemma valid_lookup s id a : valid s → metadata s !! id = Some a → ∃ d, heap s !! a = Some d.
Proof. intros Hv Ha. exact (Hv id a Ha). Qed.

(** C10. Whenever the registry holds an item under [id], [DeleteID id] locks
    the parent it finds under the item's parent id without testing it for
    nil: the call panics exactly when the registry has no entry for that
    parent id, and returns otherwise.  In particular it panics on a root
    (empty parent id, nothing registered under the empty id) and on an item
    that [InsertID] has just registered while its parent was absent. *)
Theorem DeleteID_faults_iff_parent_absent id i d s :
  held s = [] → valid s → heap s !! i = Some d →
  (metadata s !! id = Some i →
     (DeleteID id s = Panic ↔ metadata s !! Parent_ID d = None) ∧
     (is_Some (metadata s !! Parent_ID d) → ∃ s', DeleteID id s = Ok tt s')) ∧
  (metadata s !! id = Some i → Parent_ID d = EmptyString →
     metadata s !! EmptyString = None → DeleteID id s = Panic) ∧
  (Parent_ID d ≠ EmptyString → <[id:=i]> (metadata s) !! Parent_ID d = None →
     ∃ s1, InsertID id i s = Ok tt s1 ∧ DeleteID id s1 = Panic).
Proof.
  intros Hl Hv Hd. split; [|split].
  - intros Hi.
    assert (Hsome : is_Some (metadata s !! Parent_ID d) → ∃ s', DeleteID id s = Ok tt s').
    { intros [p Hp]. destruct (valid_lookup _ _ _ Hv Hp) as [pd Hpd].
      destruct (index_of id (slice (children pd))) as [k|] eqn:Hk.
      - eexists. by eapply DeleteID_listed.
      - eexists. by eapply DeleteID_unlisted. }
    split; [|done]. split.
    + intros Hpanic. destruct (metadata s !! Parent_ID d) eqn:Hp; [|done].
      destruct Hsome as [s' Hs']; [by eexists|]. congruence.
    + intros Hp. by eapply DeleteID_nil_parent.
  - intros Hi He Hn. eapply DeleteID_nil_parent; [done..|]. by rewrite He.
  - intros Hne Hp. eexists. split.
    + eapply InsertID_stored; [done|]. by right.
    + eapply DeleteID_nil_parent; simpl; [apply lookup_insert_eq|done..].
Qed.

Lemma DeleteID_faults_iff_parent_absent_witness :
  let s := cache_of [folder "r" "root" EmptyString None 0; file "x" "x.txt" "gone"]
                    {["r" := 0%nat]} "r" in
  ∃ s1, InsertID "x" 1%nat s = Ok tt s1 ∧ DeleteID "x" s1 = Panic.
Proof.
  intros s.
  refine (proj2 (proj2 (DeleteID_faults_iff_parent_absent "x" 1%nat
            (file "x" "x.txt" "gone") s _ _ _)) _ _).
  - reflexivity.
  - intros k a. unfold s. simpl. intros [<- <-]%lookup_singleton_Some. by eexists.
  - reflexivity.
  - simpl. discriminate.
  - vm_compute. reflexivity.
Defined.

(** ** InsertID under a present parent *)

(** The parent [InsertID] finds is the entry of the item's parent id in the
    registry after the item itself has been stored under [id]. *)

(** C4, as stated, fails: the id appended to the parent's child list is the
    item's own id field, not the key [id] of the call.  Here an item whose id
    field is "b" is inserted under the key "a": the root's child list becomes
    ["b"]. *)
Lemma InsertID_appends_id_field_not_key :
  let s := cache_of [folder "r" "root" EmptyString (Some []) 0; file "b" "b.txt" "r"]
                    {["r" := 0%nat]} "r" in
  ∃ s', InsertID "a" 1%nat s = Ok tt s' ∧
        (children <$> heap s' !! 0%nat) = Some (Some ["b"]) ∧
        (children <$> heap s' !! 0%nat) ≠ Some (Some ([] ++ ["a"])).
Proof. eexists. split; [vm_compute; reflexivity|]. split; [reflexivity | discriminate]. Qed.

(** C4 (amended). For a call [InsertID id item] whose item's parent id
    resolves to a parent [p]: if [id] is already among the parent's children,
    only the registry entry is written and every item, the parent included, is
    left as it was; otherwise, the parent being another object than the item,
    the item's id field is appended to the parent's children, the parent's
    [subdir] grows by one exactly when the item is a directory, and the item's
    parent id is set to the parent's id field.  When the item is its own
    parent the second lock is never granted. *)
Theorem InsertID_under_present_parent id i d p pd s :
  held s = [] →
  heap s !! i = Some d →
  Parent_ID d ≠ EmptyString →
  <[id:=i]> (metadata s) !! Parent_ID d = Some p →
  heap s !! p = Some pd →
  (id ∈ slice (children pd) →
     ∃ s', InsertID id i s = Ok tt s' ∧ heap s' = heap s ∧
           metadata s' = <[id:=i]> (metadata s)) ∧
  (id ∉ slice (children pd) → p ≠ i →
     ∃ s' pd' d', InsertID id i s = Ok tt s' ∧
       metadata s' = <[id:=i]> (metadata s) ∧
       heap s' !! p = Some pd' ∧ heap s' !! i = Some d' ∧
       children pd' = Some (slice (children pd) ++ [IDInternal d]) ∧
       subdir pd' = subdir pd + (if is_dir d then 1 else 0) ∧
       IDInternal pd' = IDInternal pd ∧
       Parent_ID d' = IDInternal pd ∧
       IDInternal d' = IDInternal d ∧ children d' = children d ∧
       subdir d' = subdir d) ∧
  (id ∉ slice (children pd) → p = i → InsertID id i s = Deadlock).
Proof.
  intros Hl Hd Hne Hp Hpd. split; [|split].
  - intros [k Hk]%index_of_is_Some. eexists. split; [by eapply InsertID_present|]. done.
  - intros Hk%index_of_None Hpi.
    pose proof (lookup_lt_Some _ _ _ Hpd) as Hlp.
    pose proof (lookup_lt_Some _ _ _ Hd) as Hli.
    eexists _, _, _. split; [by eapply InsertID_append|]. simpl.
    split; [done|]. split.
    { rewrite list_lookup_insert_ne by done. by apply list_lookup_insert_eq. }
    split.
    { apply list_lookup_insert_eq. by rewrite length_insert. }
    done.
  - intros Hk%index_of_None ->. assert (pd = d) as -> by congruence.
    by eapply InsertID_deadlock.
Qed.

Lemma InsertID_under_present_parent_witness :
  let s := cache_of [folder "r" "root" EmptyString (Some ["x"]) 0;
                     file "x" "x.txt" "r"; folder "y" "docs" "r" None 0]
                    {["r" := 0%nat; "x" := 1%nat]} "r" in
  ∃ s' pd' d', InsertID "y" 2%nat s = Ok tt s' ∧
    metadata s' = <["y":=2%nat]> (metadata s) ∧
    heap s' !! 0%nat = Some pd' ∧ heap s' !! 2%nat = Some d' ∧
    children pd' = Some (["x"] ++ ["y"]) ∧
    subdir pd' = 0 + 1 ∧
    IDInternal pd' = "r" ∧ Parent_ID d' = "r" ∧
    IDInternal d' = "y" ∧ children d' = None ∧ subdir d' = 0.
Proof.
  intros s.
  refine (proj1 (proj2 (InsertID_under_present_parent "y" 2%nat
            (folder "y" "docs" "r" None 0) 0%nat
            (folder "r" "root" EmptyString (Some ["x"]) 0) s _ _ _ _ _)) _ _).
  - reflexivity.
  - reflexivity.
  - simpl. discriminate.
  - vm_compute. reflexivity.
  - reflexivity.
  - simpl. rewrite list_elem_of_singleton. discriminate.
  - lia.
Defined.

(** ** InsertID followed by DeleteID *)

(** C6, as stated, fails: [InsertID] of an id the parent already lists adds
    nothing, and the [DeleteID] that follows removes the id that was there
    before the pair. *)
Lemma InsertID_DeleteID_of_listed_child_removes_it :
  let s := cache_of [folder "r" "root" EmptyString (Some ["d"]) 1;
                     folder "d" "docs" "r" None 0]
                    {["r" := 0%nat; "d" := 1%nat]} "r" in
  ∃ s1 s2, InsertID "d" 1%nat s = Ok tt s1 ∧ DeleteID "d" s1 = Ok tt s2 ∧
    heap s !! 0%nat = Some (folder "r" "root" EmptyString (Some ["d"]) 1) ∧
    heap s2 !! 0%nat = Some (folder "r" "root" EmptyString (Some []) 0).
Proof.
  eexists _, _. split; [vm_compute; reflexivity|].
  split; [vm_compute; reflexivity|]. split; reflexivity.
Qed.

(** C6 (amended). Let the item carry [id] as its id field and let its parent
    id resolve to a parent, other than the item, that carries that parent id
    as its own id field and does not list [id] yet.  Then [InsertID id item]
    followed by [DeleteID id] both return, and afterwards the parent has the
    children it had before, in the same order (hence the same multiset; an
    unpopulated list comes back as the empty list), and the same
    [subdir]. *)
Theorem InsertID_DeleteID_restores_parent id i d p pd s :
  held s = [] →
  heap s !! i = Some d →
  IDInternal d = id →
  Parent_ID d ≠ EmptyString →
  <[id:=i]> (metadata s) !! Parent_ID d = Some p →
  heap s !! p = Some pd →
  IDInternal pd = Parent_ID d →
  p ≠ i →
  id ∉ slice (children pd) →
  ∃ s1 s2 pd2,
    InsertID id i s = Ok tt s1 ∧ DeleteID id s1 = Ok tt s2 ∧
    heap s2 !! p = Some pd2 ∧
    slice (children pd2) = slice (children pd) ∧
    slice (children pd2) ≡ₚ slice (children pd) ∧
    subdir pd2 = subdir pd.
Proof.
  intros Hl Hd Hid Hne Hp Hpd Hpid Hpi Hk.
  pose proof (lookup_lt_Some _ _ _ Hpd) as Hlp.
  pose proof (lookup_lt_Some _ _ _ Hd) as Hli.
  assert (Hidx : index_of id (slice (children pd)) = None) by by apply index_of_None.
  eexists _, _, _. split; [by eapply InsertID_append|]. split.
  { eapply DeleteID_listed; simpl.
    - done.
    - apply lookup_insert_eq.
    - apply list_lookup_insert_eq. by rewrite length_insert.
    - simpl. by rewrite Hpid.
    - rewrite list_lookup_insert_ne by done. by apply list_lookup_insert_eq.
    - simpl. rewrite Hid. by apply index_of_app_fresh. }
  simpl. split.
  { apply list_lookup_insert_eq. by rewrite !length_insert. }
  simpl. rewrite Hid, remove_first_app_fresh by done.
  split; [done|]. split; [done|]. destruct (is_dir d); lia.
Qed.

Lemma InsertID_DeleteID_restores_parent_witness :
  let s := cache_of [folder "r" "root" EmptyString (Some ["x"]) 0;
                     file "x" "x.txt" "r"; folder "y" "docs" "r" None 0]
                    {["r" := 0%nat; "x" := 1%nat]} "r" in
  ∃ s1 s2 pd2,
    InsertID "y" 2%nat s = Ok tt s1 ∧ DeleteID "y" s1 = Ok tt s2 ∧
    heap s2 !! 0%nat = Some pd2 ∧
    slice (children pd2) = ["x"] ∧ slice (children pd2) ≡ₚ ["x"] ∧ subdir pd2 = 0.
Proof.
  intros s.
  refine (InsertID_DeleteID_restores_parent "y" 2%nat
            (folder "y" "docs" "r" None 0) 0%nat
            (folder "r" "root" EmptyString (Some ["x"]) 0) s _ _ _ _ _ _ _ _ _).
  - reflexivity.
  - reflexivity.
  - reflexivity.
  - simpl. discriminate.
  - vm_compute. reflexivity.
  - reflexivity.
  - reflexivity.
  - lia.
  - simpl. rewrite list_elem_of_singleton. discriminate.
Defined.

(** ** Tombstones *)




(** *** DeleteID and MoveID on a registered item *)

Lemma DeleteID_present id i d p pd s :
  held s = [] →
  metadata s !! id = Some i →
  heap s !! i = Some d →
  metadata s !! Parent_ID d = Some p →
  heap s !! p = Some pd →
  DeleteID id s =
    Ok tt (set_heap (<[p := delete_child id d pd]> (heap s))
             (set_metadata (delete id (metadata s)) s)).
Proof.
  intros Hl Hi Hd Hp Hpd. unfold delete_child.
  destruct (index_of id (slice (children pd))) as [k|] eqn:Hk.
  - by eapply DeleteID_listed.
  - rewrite list_insert_id by done.
    erewrite DeleteID_unlisted by done. by destruct s.
Qed.

Lemma slice_delete_child id d pd :
  slice (children (delete_child id d pd)) = remove_first id (slice (children pd)).
Proof.
  unfold delete_child, remove_first.
  by destruct (index_of id (slice (children pd))).
Qed.

Lemma IDInternal_delete_child id d pd : IDInternal (delete_child id d pd) = IDInternal pd.
Proof. unfold delete_child. by destruct (index_of id (slice (children pd))). Qed.

Lemma Parent_ID_delete_child id d pd : Parent_ID (delete_child id d pd) = Parent_ID pd.
Proof. unfold delete_child. by destruct (index_of id (slice (children pd))). Qed.

Lemma is_dir_delete_child id d pd : is_dir (delete_child id d pd) = is_dir pd.
Proof. unfold delete_child. by destruct (index_of id (slice (children pd))). Qed.

Lemma NameInternal_delete_child id d pd :
  NameInternal (delete_child id d pd) = NameInternal pd.
Proof. unfold delete_child. by destruct (index_of id (slice (children pd))). Qed.

(** The first half of [MoveID]: the child list of the parent and the id
    field of the item are overwritten, then [DeleteID] and [InsertID] run. *)
Lemma MoveID_registered a b i d p pd s :
  held s = [] →
  metadata s !! a = Some i →
  heap s !! i = Some d →
  metadata s !! Parent_ID d = Some p →
  heap s !! p = Some pd →
  ∃ d1 h1,
    h1 = <[p := match index_of a (slice (children pd)) with
                | Some _ => set_children (Some (replace_first a b (slice (children pd)))) pd
                | None => pd
                end]> (heap s) ∧
    h1 !! i = Some d1 ∧
    MoveID a b s =
      (DeleteID a;; InsertID b i;; ret None) (set_heap (<[i := set_IDInternal b d1]> h1) s).
Proof.
  intros Hl Hi Hd Hp Hpd.
  pose proof (lookup_lt_Some _ _ _ Hpd) as Hlp.
  pose proof (lookup_lt_Some _ _ _ Hd) as Hli.
  destruct (lookup_lt_is_Some_2
    (<[p := match index_of a (slice (children pd)) with
            | Some _ => set_children (Some (replace_first a b (slice (children pd)))) pd
            | None => pd
            end]> (heap s)) i) as [d1 Hd1]; [by rewrite length_insert|].
  eexists d1, _. split; [reflexivity|]. split; [done|].
  unfold MoveID. destruct s as [h l m r au dl rq sv]. munfold. subst l. mrun.
  unfold replace_first in *.
  destruct (index_of a (slice (children pd))) as [k|] eqn:Hk; mrun.
  - done.
  - rewrite list_insert_id in Hd1 by done. mrun.
    rewrite (list_insert_id h p pd) by done. by assert (d1 = d) as -> by congruence.
Qed.

Lemma remove_replace_first_keeps_new old new l :
  old ≠ new → old ∈ l → new ∈ remove_first old (replace_first old new l).
Proof.
  intros Hne. induction l as [|x l IH]; [by intros ?%not_elem_of_nil|].
  rewrite replace_first_cons. case_bool_decide as Hx.
  - intros _. rewrite remove_first_cons, bool_decide_eq_false_2 by done. left.
  - intros [->|Hin]%elem_of_cons; [done|].
    rewrite remove_first_cons, bool_decide_eq_false_2 by done. right; auto.
Qed.

(** ** MoveID *)




(** ** Invariants of the methods

    A state predicate that every primitive step maintains is maintained by
    every method that returns.  The steps are the writes to the fields of the
    state and the updates of an item that keep its directory flag and do not
    turn a populated child list into nil. *)

Section Keeps.
Variable I : state → Prop.

Hypothesis I_held : ∀ s l, I s → I (set_held l s).
Hypothesis I_store : ∀ s id a,
  I s → is_Some (heap s !! a) → I (set_metadata (<[id:=a]> (metadata s)) s).
Hypothesis I_delete : ∀ s id, I s → I (set_metadata (delete id (metadata s)) s).
Hypothesis I_deltaLink : ∀ s v, I s → I (set_deltaLink v s).
Hypothesis I_update : ∀ s a d f,
  I s → heap s !! a = Some d → tame f → I (set_heap (<[a := f d]> (heap s)) s).
Hypothesis I_alloc : ∀ s d, I s → I (set_heap (heap s ++ [d]) s).
Hypothesis I_requests : ∀ s x, I s → I (set_requests (requests s ++ [x]) s).

Lemma keeps_ret {A} (a : A) : keeps I (ret a).
Proof. by intros s Hs. Qed.

Lemma keeps_skip : keeps I skip.
Proof. by intros s Hs. Qed.

Lemma keeps_panic {A} : keeps I (@panic A).
Proof. by intros s Hs. Qed.

Lemma keeps_bind {A B} (m : M A) (f : A → M B) :
  keeps I m → (∀ a, keeps I (f a)) → keeps I (bind m f).
Proof.
  intros Hm Hf s Hs. unfold bind. specialize (Hm s Hs).
  destruct (m s) as [a s'| |]; [|done..]. by apply Hf.
Qed.

Lemma keeps_gets {A} (f : state → A) : keeps I (gets f).
Proof. by intros s Hs. Qed.

Lemma keeps_load p : keeps I (load p).
Proof. intros s Hs. unfold load. destruct p as [a|]; [|done]. by destruct (heap s !! a). Qed.

Lemma keeps_read {A} p (f : DriveItem → A) : keeps I (read p f).
Proof. apply keeps_bind; [apply keeps_load | intros; apply keeps_ret]. Qed.

Lemma keeps_update p f : tame f → keeps I (update p f).
Proof.
  intros Hf s Hs. unfold update, bind, load. destruct p as [a|]; [|done].
  destruct (heap s !! a) as [d|] eqn:Hd; [|done]. by apply I_update.
Qed.

Lemma keeps_Lock p : keeps I (Lock p).
Proof.
  intros s Hs. unfold Lock. destruct p as [a|]; [|done].
  case_bool_decide; [done|]. by apply I_held.
Qed.

Lemma keeps_Unlock p : keeps I (Unlock p).
Proof. intros s Hs. unfold Unlock. destruct p as [a|]; [|done]. by apply I_held. Qed.

Lemma keeps_metadata_Delete id : keeps I (metadata_Delete id).
Proof. intros s Hs. by apply I_delete. Qed.

Lemma keeps_alloc d : keeps I (alloc d).
Proof. intros s Hs. by apply I_alloc. Qed.

(** Storing a pointer that has just been read through. *)
Lemma keeps_read_then_Store {A B} c (g : DriveItem → A) (id : A → string)
    (k : A → M B) :
  (∀ a, keeps I (k a)) →
  keeps I (x ← read (Some c) g; metadata_Store (id x) c;; k x).
Proof.
  intros Hk s Hs. unfold bind at 1. unfold read, bind at 1, load.
  destruct (heap s !! c) as [d|] eqn:Hd; [|done]. unfold ret.
  unfold bind, metadata_Store, modify.
  apply (Hk (g d)). apply I_store; [done | by eexists].
Qed.

Lemma tame_set_subdir (g : DriveItem → Z) : tame (λ d, set_subdir (g d) d).
Proof. by intros d. Qed.
Lemma tame_set_children (g : DriveItem → list string) :
  tame (λ d, set_children (Some (g d)) d).
Proof. intros d. split; [done|]. intros _. by eexists. Qed.
Lemma tame_set_children_const l : tame (set_children (Some l)).
Proof. intros d. split; [done|]. intros _. by eexists. Qed.
Lemma tame_set_Parent_ID v : tame (set_Parent_ID v).
Proof. by intros d. Qed.
Lemma tame_set_IDInternal v : tame (set_IDInternal v).
Proof. by intros d. Qed.
Lemma tame_set_NameInternal v : tame (set_NameInternal v).
Proof. by intros d. Qed.

Ltac kstep :=
  match goal with
  | |- keeps I (bind _ _) => apply keeps_bind; [|intros ?]
  | |- keeps I (ret _) => apply keeps_ret
  | |- keeps I skip => apply keeps_skip
  | |- keeps I panic => apply keeps_panic
  | |- keeps I (gets _) => apply keeps_gets
  | |- keeps I (GetID _) => apply keeps_gets
  | |- keeps I (load _) => apply keeps_load
  | |- keeps I (read _ _) => apply keeps_read
  | |- keeps I (ID _) => apply keeps_read
  | |- keeps I (Name _) => apply keeps_read
  | |- keeps I (ParentID _) => apply keeps_read
  | |- keeps I (IsDir _) => apply keeps_read
  | |- keeps I (Lock _) => apply keeps_Lock
  | |- keeps I (Unlock _) => apply keeps_Unlock
  | |- keeps I (metadata_Delete _) => apply keeps_metadata_Delete
  | |- keeps I (alloc _) => apply keeps_alloc
  | |- keeps I (update _ _) =>
      apply keeps_update;
      first [ apply tame_set_subdir | apply tame_set_children
            | apply tame_set_children_const | apply tame_set_Parent_ID
            | apply tame_set_IDInternal | apply tame_set_NameInternal ]
  | |- keeps I (match ?x with _ => _ end) => destruct x
  | |- keeps I (if ?b then _ else _) => destruct b
  | |- keeps I _ => solve [auto]
  end.
Ltac kauto := repeat kstep.

Lemma keeps_SetName p name : keeps I (SetName p name).
Proof. unfold SetName. kauto. Qed.

Lemma keeps_InsertID id i : keeps I (InsertID id i).
Proof.
  intros s Hs. destruct (heap s !! i) as [d|] eqn:Hd;
    [|by rewrite InsertID_invalid].
  unfold InsertID. unfold bind at 1. unfold metadata_Store, modify.
  match goal with |- match ?m _ with _ => _ end => assert (Hk : keeps I m) by kauto end.
  apply Hk. apply I_store; [done | by eexists].
Qed.

Lemma keeps_DeleteID id : keeps I (DeleteID id).
Proof. unfold DeleteID. kauto. Qed.

Lemma keeps_MoveID a b : keeps I (MoveID a b).
Proof.
  pose proof keeps_DeleteID. pose proof keeps_InsertID.
  unfold MoveID. kauto.
Qed.

Lemma keeps_cached_children ids result : keeps I (cached_children ids result).
Proof. revert result. induction ids as [|id ids IH]; intros result; simpl; kauto. Qed.

Lemma keeps_fetched_children item fetched result :
  keeps I (fetched_children item fetched result).
Proof.
  revert result. induction fetched as [|c fetched IH]; intros result; simpl; [kauto|].
  apply (keeps_read_then_Store c IDInternal (λ x, x)). intros cid. kauto.
Qed.

Lemma keeps_unmarshal_children rs : keeps I (unmarshal_children rs).
Proof. induction rs as [|r rs IH]; simpl; kauto. Qed.

Lemma keeps_graph_Get resource a : keeps I (graph_Get resource a).
Proof. intros s Hs. by apply I_requests. Qed.

Lemma keeps_GetChildrenID id a : keeps I (GetChildrenID id a).
Proof.
  pose proof keeps_cached_children. pose proof keeps_fetched_children.
  pose proof keeps_unmarshal_children. pose proof keeps_graph_Get.
  unfold GetChildrenID. kauto.
Qed.

Lemma keeps_Get_loop split i rest lastID item a :
  keeps I (Get_loop split i rest lastID item a).
Proof.
  pose proof keeps_GetChildrenID.
  revert i lastID item. induction rest as [|seg rest IH]; intros i lastID item;
    simpl; kauto.
Qed.

Lemma keeps_Get path a : keeps I (Get path a).
Proof. pose proof keeps_Get_loop. unfold Get. kauto. Qed.

Lemma keeps_GetChildrenPath path a : keeps I (GetChildrenPath path a).
Proof. pose proof keeps_Get. pose proof keeps_GetChildrenID. unfold GetChildrenPath. kauto. Qed.

Lemma keeps_Delete key : keeps I (Delete key).
Proof. pose proof keeps_Get. pose proof keeps_DeleteID. unfold Delete. kauto. Qed.

Lemma keeps_Insert key a item : keeps I (Insert key a item).
Proof. pose proof keeps_Get. pose proof keeps_InsertID. unfold Insert. kauto. Qed.

Lemma keeps_Move oldPath newPath a : keeps I (Move oldPath newPath a).
Proof.
  pose proof keeps_Get. pose proof keeps_Delete. pose proof keeps_Insert.
  pose proof keeps_SetName. unfold Move. kauto.
Qed.

Lemma keeps_applyDelta item : keeps I (applyDelta item).
Proof. pose proof keeps_DeleteID. unfold applyDelta. kauto. Qed.

Lemma keeps_apply_all items : keeps I (apply_all items).
Proof. pose proof keeps_applyDelta. induction items as [|r items IH]; simpl; kauto. Qed.

Lemma keeps_pollDeltas graphURL a : keeps I (pollDeltas graphURL a).
Proof.
  pose proof keeps_apply_all. pose proof keeps_graph_Get.
  assert (∀ v, keeps I (modify (set_deltaLink v))) by (intros v s Hs; by apply I_deltaLink).
  unfold pollDeltas. kauto.
Qed.
End Keeps.

(** ** Populated directories stay populated *)

Lemma grows_refl s : grows s s.
Proof. intros a d Hd. by exists d. Qed.

Lemma valid_grows_held s0 s l : valid s ∧ grows s0 s → valid (set_held l s) ∧ grows s0 (set_held l s).
Proof. by destruct s. Qed.

Lemma valid_grows_store s0 s id a :
  valid s ∧ grows s0 s → is_Some (heap s !! a) →
  valid (set_metadata (<[id:=a]> (metadata s)) s) ∧
  grows s0 (set_metadata (<[id:=a]> (metadata s)) s).
Proof.
  intros [Hv Hg] Ha. split; [|by destruct s].
  unfold valid. simpl. apply map_Forall_insert_2; [done|]. exact Hv.
Qed.

Lemma valid_grows_delete s0 s id :
  valid s ∧ grows s0 s →
  valid (set_metadata (delete id (metadata s)) s) ∧
  grows s0 (set_metadata (delete id (metadata s)) s).
Proof.
  intros [Hv Hg]. split; [|by destruct s].
  unfold valid. simpl. by apply map_Forall_delete.
Qed.

Lemma valid_grows_update s0 s a d f :
  valid s ∧ grows s0 s → heap s !! a = Some d → tame f →
  valid (set_heap (<[a := f d]> (heap s)) s) ∧
  grows s0 (set_heap (<[a := f d]> (heap s)) s).
Proof.
  intros [Hv Hg] Hd Hf. pose proof (lookup_lt_Some _ _ _ Hd) as Hlt. split.
  - intros id b Hb. simpl. apply lookup_lt_is_Some. rewrite length_insert.
    apply lookup_lt_is_Some. exact (Hv id b Hb).
  - intros b d0 Hd0. destruct (Hg b d0 Hd0) as (d1 & Hd1 & Hdir & Hch). simpl.
    destruct (decide (a = b)) as [->|Hne].
    + exists (f d). rewrite list_lookup_insert_eq by done.
      assert (d1 = d) as -> by congruence. destruct (Hf d) as [Hfd Hfc].
      split; [done|]. split; [congruence | auto].
    + exists d1. by rewrite list_lookup_insert_ne.
Qed.

Lemma valid_grows_alloc s0 s d :
  valid s ∧ grows s0 s →
  valid (set_heap (heap s ++ [d]) s) ∧ grows s0 (set_heap (heap s ++ [d]) s).
Proof.
  intros [Hv Hg]. split.
  - intros id b Hb. simpl. apply lookup_lt_is_Some. rewrite length_app.
    pose proof (proj1 (lookup_lt_is_Some _ _) (Hv id b Hb)). lia.
  - intros b d0 Hd0. destruct (Hg b d0 Hd0) as (d1 & Hd1 & Hrest). exists d1. simpl.
    split; [|done]. rewrite lookup_app_l; [done|]. by eapply lookup_lt_Some.
Qed.

Lemma run_keeps (I : state → Prop) :
  (∀ s l, I s → I (set_held l s)) →
  (∀ s id a, I s → is_Some (heap s !! a) → I (set_metadata (<[id:=a]> (metadata s)) s)) →
  (∀ s id, I s → I (set_metadata (delete id (metadata s)) s)) →
  (∀ s v, I s → I (set_deltaLink v s)) →
  (∀ s a d f, I s → heap s !! a = Some d → tame f → I (set_heap (<[a := f d]> (heap s)) s)) →
  (∀ s d, I s → I (set_heap (heap s ++ [d]) s)) →
  (∀ s x, I s → I (set_requests (requests s ++ [x]) s)) →
  ∀ cs, keeps I (run cs).
Proof.
  intros H1 H2 H3 H4 H5 H6 H7 cs. induction cs as [|c cs IH]; simpl.
  - apply keeps_skip.
  - apply keeps_bind; [|done].
    assert (Hskip : ∀ A (m : M A), keeps I m → keeps I (m;; skip)).
    { intros A m Hm. apply keeps_bind; [done|]. intros _. apply keeps_skip. }
    destruct c; cbn [exec].
    + by apply keeps_InsertID.
    + by apply keeps_DeleteID.
    + apply Hskip. by apply keeps_MoveID.
    + apply Hskip. by apply keeps_GetChildrenID.
    + apply Hskip. by apply keeps_GetChildrenPath.
    + apply Hskip. by apply keeps_Get.
    + by apply keeps_Delete.
    + apply Hskip. by apply keeps_Insert.
    + apply Hskip. by apply keeps_Move.
    + by apply keeps_SetName.
    + apply Hskip. by apply keeps_applyDelta.
    + apply Hskip. by apply keeps_pollDeltas.
Qed.

Lemma cached_children_total s ids result :
  valid s → ∃ r, cached_children ids result s = Ok r s.
Proof.
  intros Hv. revert result. induction ids as [|id ids IH]; intros result; simpl.
  - by eexists.
  - unfold bind at 1. unfold GetID, gets.
    destruct (metadata s !! id) as [c|] eqn:Hc; [|apply IH].
    destruct (valid_lookup _ _ _ Hv Hc) as [d Hd].
    unfold Name, read, load, bind, ret. rewrite Hd. apply IH.
Qed.

Lemma GetChildrenID_cached s id a au d ids :
  valid s →
  metadata s !! id = Some a →
  heap s !! a = Some d →
  is_dir d = true →
  children d = Some ids →
  ∃ r, GetChildrenID id au s = Ok (r, None) s.
Proof.
  intros Hv Ha Hd Hdir Hch.
  destruct (cached_children_total s ids ∅ Hv) as [r Hr].
  exists r. unfold GetChildrenID. munfold. rewrite Ha, Hd. msimpl. rewrite Hdir. simpl.
  rewrite Hd. msimpl. rewrite Hch, Hr. done.
Qed.



(** ** Polling the delta feed *)


Lemma apply_all_cons r items :
  apply_all (r :: items) = (applyDelta (decode r);; apply_all items).
Proof. reflexivity. Qed.


(** ** Delete by path *)

Lemma pure_ret {A} (a : A) : pure (ret a).
Proof. by intros s b s' [= _ ->]. Qed.

Lemma pure_gets {A} (f : state → A) : pure (gets f).
Proof. by intros s b s' [= _ ->]. Qed.

Lemma pure_bind {A B} (m : M A) (f : A → M B) :
  pure m → (∀ a, pure (f a)) → pure (bind m f).
Proof.
  intros Hm Hf s b s'. unfold bind. destruct (m s) as [a s1| |] eqn:H1; [|done..].
  apply Hm in H1 as ->. apply Hf.
Qed.

Lemma pure_load p : pure (load p).
Proof.
  intros s b s'. unfold load. destruct p as [a|]; [|done].
  destruct (heap s !! a); [by intros [= _ ->] | done].
Qed.

Lemma pure_read {A} p (f : DriveItem → A) : pure (read p f).
Proof. apply pure_bind; [apply pure_load | intros; apply pure_ret]. Qed.

Ltac pstep :=
  match goal with
  | |- pure (bind _ _) => apply pure_bind; [|intros ?]
  | |- pure (ret _) => apply pure_ret
  | |- pure skip => apply pure_ret
  | |- pure (gets _) => apply pure_gets
  | |- pure (GetID _) => apply pure_gets
  | |- pure (load _) => apply pure_load
  | |- pure (read _ _) => apply pure_read
  | |- pure (ID _) => apply pure_read
  | |- pure (Name _) => apply pure_read
  | |- pure (ParentID _) => apply pure_read
  | |- pure (IsDir _) => apply pure_read
  | |- pure (match ?x with _ => _ end) => destruct x
  | |- pure (if ?b then _ else _) => destruct b
  | |- pure _ => solve [auto]
  end.

Lemma cached_children_pure ids result : pure (cached_children ids result).
Proof. revert result. induction ids as [|id ids IH]; intros result; simpl; repeat pstep. Qed.

Lemma GetChildrenID_nil_auth_pure id : pure (GetChildrenID id None).
Proof.
  pose proof cached_children_pure. unfold GetChildrenID. cbn [no_auth]. repeat pstep.
Qed.

Lemma Get_loop_nil_auth_pure split i rest lastID item :
  pure (Get_loop split i rest lastID item None).
Proof.
  pose proof GetChildrenID_nil_auth_pure.
  revert i lastID item. induction rest as [|seg rest IH]; intros i lastID item;
    simpl; repeat pstep.
Qed.

Lemma Get_nil_auth_pure path : pure (Get path None).
Proof. pose proof Get_loop_nil_auth_pure. unfold Get. repeat pstep. Qed.

Lemma DeleteID_requests id s s' : DeleteID id s = Ok tt s' → requests s' = requests s.
Proof.
  intros H.
  pose proof (keeps_DeleteID (λ x, requests x = requests s)
    (λ x l H, ltac:(by destruct x)) (λ x l H, ltac:(by destruct x))
    (λ x a d f H _ _, ltac:(by destruct x)) id s eq_refl) as Hk.
  by rewrite H in Hk.
Qed.



(** ** Accuracy of the subdirectory counters *)

Lemma kind_of_insert h a d' b :
  (∀ d, h !! a = Some d → is_dir d' = is_dir d) →
  kind_of (<[a := d']> h) b = kind_of h b.
Proof.
  intros Hd. unfold kind_of. destruct (decide (a = b)) as [->|Hne].
  - destruct (h !! b) as [d|] eqn:Hb.
    + apply lookup_lt_Some in Hb as Hlt. rewrite list_lookup_insert_eq by done.
      by apply Hd.
    + rewrite list_insert_ge by (by apply lookup_ge_None). by rewrite Hb.
  - by rewrite list_lookup_insert_ne.
Qed.

Lemma kind_of_app h t b : (b < length h)%nat → kind_of (h ++ t) b = kind_of h b.
Proof. intros Hb. unfold kind_of. by rewrite lookup_app_l. Qed.

Lemma dir_count_agree s s' l :
  (∀ x, x ∈ l → resolves_to_dir s' x = resolves_to_dir s x) →
  dir_count s' l = dir_count s l.
Proof.
  induction l as [|x l IH]; intros H; simpl; [done|].
  rewrite H by left. rewrite IH; [done|]. intros y Hy. apply H. by right.
Qed.

Lemma dir_count_app s l1 l2 : dir_count s (l1 ++ l2) = dir_count s l1 + dir_count s l2.
Proof. induction l1 as [|x l1 IH]; simpl; [done|]. rewrite IH. lia. Qed.

Lemma dir_count_remove_first s id l :
  id ∈ l →
  dir_count s l = (if resolves_to_dir s id then 1 else 0) + dir_count s (remove_first id l).
Proof.
  induction l as [|x l IH]; [by intros ?%not_elem_of_nil|].
  rewrite remove_first_cons. simpl. case_bool_decide as Hx; [by subst|].
  intros [->|Hin]%elem_of_cons; [done|]. simpl. rewrite (IH Hin). lia.
Qed.

Lemma dir_count_replace_first s s' old new l :
  old ∈ l → old ∉ remove_first old l → new ∉ l →
  (∀ x, x ≠ old → x ≠ new → resolves_to_dir s' x = resolves_to_dir s x) →
  resolves_to_dir s' new = resolves_to_dir s old →
  dir_count s' (replace_first old new l) = dir_count s l.
Proof.
  intros Hin Honce Hnew Hother Hsame. induction l as [|x l IH];
    [by apply not_elem_of_nil in Hin|].
  rewrite replace_first_cons. rewrite remove_first_cons in Honce.
  apply not_elem_of_cons in Hnew as [Hxn Hnew]. case_bool_decide as Hx.
  - subst x. simpl. rewrite Hsame. f_equal. apply dir_count_agree.
    intros y Hy. apply Hother; intros ->; done.
  - apply elem_of_cons in Hin as [->|Hin]; [done|].
    apply not_elem_of_cons in Honce as [_ Honce].
    simpl. rewrite (Hother x) by done. f_equal. by apply IH.
Qed.

Lemma unlisted_lookup s id k a e :
  unlisted s id → metadata s !! k = Some a → heap s !! a = Some e →
  id ∉ slice (children e).
Proof. intros Hu Hk He Hin. apply (Hu k a Hk). unfold lists. by rewrite He. Qed.

Lemma listed_by_at_most_other s id p k a e :
  listed_by_at_most s id p → metadata s !! k = Some a → heap s !! a = Some e →
  a ≠ p → id ∉ slice (children e).
Proof.
  intros Hl Hk He Hne Hin. specialize (Hl k a Hk). unfold listing_allowed in Hl.
  rewrite decide_False in Hl by done. apply Hl. unfold lists. by rewrite He.
Qed.

Lemma listed_by_at_most_parent s id p k e :
  listed_by_at_most s id p → metadata s !! k = Some p → heap s !! p = Some e →
  id ∉ remove_first id (slice (children e)).
Proof.
  intros Hl Hk He Hin. specialize (Hl k p Hk). unfold listing_allowed in Hl.
  rewrite decide_True in Hl by done. apply Hl. unfold lists_twice. by rewrite He.
Qed.

Lemma resolves_to_dir_registered s id a d :
  metadata s !! id = Some a → heap s !! a = Some d → resolves_to_dir s id = is_dir d.
Proof. intros Ha Hd. unfold resolves_to_dir, kind_of. by rewrite Ha, Hd. Qed.

(** *** InsertID *)

Lemma InsertID_settled id i s s' :
  settled s → admissible s (CallInsertID id i) →
  InsertID id i s = Ok tt s' → settled s'.
Proof.
  intros (Hl & Hv & Hacc) Hadm Hrun.
  destruct (heap s !! i) as [d|] eqn:Hd; [|by rewrite InsertID_invalid in Hrun].
  simpl in Hadm. rewrite Hd in Hadm. destruct Hadm as [Hid Hadm].
  pose proof (lookup_lt_Some _ _ _ Hd) as Hli.
  (* the registry entry is written; what an id resolves to changes only for [id] *)
  assert (Hstore : ∀ h', (∀ a, kind_of h' a = kind_of (heap s) a) →
            ∀ x, x ≠ id ∨ metadata s !! id = Some i →
              resolves_to_dir (set_heap h' (set_metadata (<[id:=i]> (metadata s)) s)) x
              = resolves_to_dir s x).
  { intros h' Hh' x Hx. unfold resolves_to_dir. simpl.
    destruct (decide (x = id)) as [->|Hne].
    - destruct Hx as [?|Hx]; [done|]. rewrite lookup_insert_eq, Hx. apply Hh'.
    - rewrite lookup_insert_ne by done. destruct (metadata s !! x); [apply Hh' | done]. }
  assert (Hvalid : ∀ h', length h' = length (heap s) →
            valid (set_heap h' (set_metadata (<[id:=i]> (metadata s)) s))).
  { intros h' Hlen k a. simpl. intros Hk. apply lookup_lt_is_Some. rewrite Hlen.
    apply lookup_insert_Some in Hk as [[_ <-]|[_ Hk]]; [done|].
    apply lookup_lt_is_Some. exact (Hv k a Hk). }
  (* every list of a registered item, and the list of the item, counts the same *)
  assert (Hcount : ∀ h', (∀ a, kind_of h' a = kind_of (heap s) a) →
            ∀ k a e, <[id:=i]> (metadata s) !! k = Some a → heap s !! a = Some e →
              dir_count (set_heap h' (set_metadata (<[id:=i]> (metadata s)) s))
                (slice (children e)) = dir_count s (slice (children e))
              ∧ (is_dir e = true → subdir e = dir_count s (slice (children e)))).
  { intros h' Hh' k a e Hk He. destruct Hadm as [Hreg|(Hun & Hself & Hown)].
    - split.
      + apply dir_count_agree. intros x _. apply Hstore; auto.
      + apply lookup_insert_Some in Hk as [[_ <-]|[_ Hk]]; eauto.
    - apply lookup_insert_Some in Hk as [[_ <-]|[Hne Hk]].
      + assert (e = d) as -> by congruence. split; [|done].
        apply dir_count_agree. intros x Hx. apply Hstore; [done|]. left. by intros ->.
      + split; [|by eauto].
        apply dir_count_agree. intros x Hx. apply Hstore; [done|]. left. intros ->.
        by eapply unlisted_lookup. }
  destruct (decide (Parent_ID d = EmptyString)) as [He|He].
  { erewrite InsertID_stored in Hrun by eauto. injection Hrun as <-.
    split; [by destruct s|]. split; [by apply (Hvalid (heap s))|].
    intros k a e Hk Hae Hdir. simpl in Hk, Hae.
    destruct (Hcount (heap s) (λ _, eq_refl) k a e Hk Hae) as [H1 H2].
    replace (set_metadata (<[id:=i]> (metadata s)) s)
      with (set_heap (heap s) (set_metadata (<[id:=i]> (metadata s)) s)) by by destruct s.
    rewrite H1. auto. }
  destruct (<[id:=i]> (metadata s) !! Parent_ID d) as [p|] eqn:Hp; last first.
  { erewrite InsertID_stored in Hrun by eauto. injection Hrun as <-.
    split; [by destruct s|]. split; [by apply (Hvalid (heap s))|].
    intros k a e Hk Hae Hdir. simpl in Hk, Hae.
    destruct (Hcount (heap s) (λ _, eq_refl) k a e Hk Hae) as [H1 H2].
    replace (set_metadata (<[id:=i]> (metadata s)) s)
      with (set_heap (heap s) (set_metadata (<[id:=i]> (metadata s)) s)) by by destruct s.
    rewrite H1. auto. }
  assert (∃ pd, heap s !! p = Some pd) as [pd Hpd].
  { apply lookup_insert_Some in Hp as [[_ <-]|[_ Hp]]; [by eexists|].
    by eapply valid_lookup. }
  pose proof (lookup_lt_Some _ _ _ Hpd) as Hlp.
  destruct (index_of id (slice (children pd))) as [k0|] eqn:Hk0.
  { erewrite InsertID_present in Hrun by eauto. injection Hrun as <-.
    split; [by destruct s|]. split; [by apply (Hvalid (heap s))|].
    intros k a e Hk Hae Hdir. simpl in Hk, Hae.
    destruct (Hcount (heap s) (λ _, eq_refl) k a e Hk Hae) as [H1 H2].
    replace (set_metadata (<[id:=i]> (metadata s)) s)
      with (set_heap (heap s) (set_metadata (<[id:=i]> (metadata s)) s)) by by destruct s.
    rewrite H1. auto. }
  destruct (decide (p = i)) as [->|Hpi].
  { assert (pd = d) as -> by congruence.
    by erewrite InsertID_deadlock in Hrun by eauto. }
  erewrite InsertID_append in Hrun by eauto. injection Hrun as <-.
  set (pd' := set_children (Some (slice (children pd) ++ [IDInternal d]))
                (set_subdir (subdir pd + (if is_dir d then 1 else 0)) pd)).
  set (h' := <[i := set_Parent_ID (IDInternal pd) d]> (<[p := pd']> (heap s))).
  assert (Hkind : ∀ a, kind_of h' a = kind_of (heap s) a).
  { intros a. unfold h'. rewrite kind_of_insert.
    - apply kind_of_insert. intros d0 Hd0. by assert (d0 = pd) as -> by congruence.
    - intros d0. rewrite list_lookup_insert_ne by done. intros Hd0.
      by assert (d0 = d) as -> by congruence. }
  split; [by destruct s|]. split.
  { apply Hvalid. unfold h'. by rewrite !length_insert. }
  intros k a e' Hk Hae Hdir. simpl in Hk, Hae.
  assert (Hidres : resolves_to_dir
            (set_heap h' (set_metadata (<[id:=i]> (metadata s)) s)) id = is_dir d).
  { unfold resolves_to_dir. simpl. rewrite lookup_insert_eq, Hkind.
    unfold kind_of. by rewrite Hd. }
  destruct (decide (a = i)) as [->|Hai].
  - (* the item *)
    unfold h' in Hae. rewrite list_lookup_insert_eq in Hae by (by rewrite length_insert).
    injection Hae as <-. simpl in *.
    destruct (Hcount h' Hkind k i d Hk Hd) as [H1 H2]. rewrite H1. auto.
  - unfold h' in Hae. rewrite list_lookup_insert_ne in Hae by done.
    destruct (decide (a = p)) as [->|Hap].
    + (* the parent *)
      rewrite list_lookup_insert_eq in Hae by done. injection Hae as <-. simpl in *.
      destruct (Hcount h' Hkind k p pd Hk Hpd) as [H1 H2].
      rewrite dir_count_app, H1. simpl. rewrite Hid, Hidres. rewrite <- H2 by done. lia.
    + rewrite list_lookup_insert_ne in Hae by done.
      destruct (Hcount h' Hkind k a e' Hk Hae) as [H1 H2]. rewrite H1. auto.
Qed.

(** *** DeleteID *)

Lemma resolves_to_dir_after_delete s h' id x :
  (∀ a, kind_of h' a = kind_of (heap s) a) → x ≠ id →
  resolves_to_dir (set_heap h' (set_metadata (delete id (metadata s)) s)) x
  = resolves_to_dir s x.
Proof.
  intros Hh' Hx. unfold resolves_to_dir. simpl. rewrite lookup_delete_ne by done.
  destruct (metadata s !! x); [apply Hh' | done].
Qed.

Lemma kind_of_delete_child h p id d pd a :
  h !! p = Some pd → kind_of (<[p := delete_child id d pd]> h) a = kind_of h a.
Proof.
  intros Hpd. apply kind_of_insert. intros d0 Hd0.
  assert (d0 = pd) as -> by congruence. apply is_dir_delete_child.
Qed.

Lemma subdir_delete_child id d pd :
  subdir (delete_child id d pd) =
    subdir pd - (if bool_decide (id ∈ slice (children pd)) then
                   if is_dir d then 1 else 0 else 0).
Proof.
  unfold delete_child. destruct (index_of id (slice (children pd))) as [k|] eqn:Hk.
  - rewrite bool_decide_eq_true_2; [done|].
    apply index_of_Some in Hk as [Hk _]. by eapply list_elem_of_lookup_2.
  - rewrite bool_decide_eq_false_2 by (by apply index_of_None). lia.
Qed.

(** The state [DeleteID] leaves: the registry without [id], the parent at [p]
    without the first occurrence of [id]. *)
Lemma delete_child_settled id i d p pd s :
  settled s →
  metadata s !! id = Some i → heap s !! i = Some d →
  heap s !! p = Some pd →
  listed_by_at_most s id p →
  settled (set_heap (<[p := delete_child id d pd]> (heap s))
             (set_metadata (delete id (metadata s)) s)).
Proof.
  intros (Hl & Hv & Hacc) Hi Hd Hpd Hadm.
  pose proof (lookup_lt_Some _ _ _ Hpd) as Hlp.
  split; [by destruct s|]. split.
  { intros k a. simpl. intros Hk%lookup_delete_Some. destruct Hk as [_ Hk].
    apply lookup_lt_is_Some. rewrite length_insert. apply lookup_lt_is_Some.
    exact (Hv k a Hk). }
  intros k a e' Hk Hae Hdir. simpl in Hk, Hae.
  apply lookup_delete_Some in Hk as [Hkid Hk].
  pose proof (resolves_to_dir_after_delete s (<[p := delete_child id d pd]> (heap s)) id)
    as Hres.
  destruct (decide (a = p)) as [->|Hap].
  - rewrite list_lookup_insert_eq in Hae by done. injection Hae as <-.
    rewrite is_dir_delete_child in Hdir.
    rewrite slice_delete_child, subdir_delete_child.
    pose proof (listed_by_at_most_parent _ _ _ _ _ Hadm Hk Hpd) as Honce.
    rewrite (dir_count_agree s); last first.
    { intros x Hx. apply Hres; [intros a; by apply kind_of_delete_child|].
      by intros ->. }
    rewrite (Hacc k p pd Hk Hpd Hdir).
    case_bool_decide as Hin.
    + rewrite (dir_count_remove_first s id) by done.
      rewrite (resolves_to_dir_registered s id i d) by done. lia.
    + rewrite remove_first_notin by done. lia.
  - rewrite list_lookup_insert_ne in Hae by done.
    rewrite (dir_count_agree s); [by eauto|].
    intros x Hx. apply Hres; [intros b; by apply kind_of_delete_child|].
    intros ->. by eapply (listed_by_at_most_other s id p k a e').
Qed.

Lemma delete_absent_settled id s :
  settled s → metadata s !! id = None →
  settled (set_metadata (delete id (metadata s)) s).
Proof.
  intros Hs Hid. rewrite delete_id by done. by destruct s.
Qed.

Lemma DeleteID_settled id s s' :
  settled s → admissible s (CallDeleteID id) →
  DeleteID id s = Ok tt s' → settled s'.
Proof.
  intros Hs Hadm Hrun. pose proof Hs as (Hl & Hv & _).
  destruct (metadata s !! id) as [i|] eqn:Hi; last first.
  { rewrite DeleteID_absent in Hrun by done. injection Hrun as <-.
    by apply delete_absent_settled. }
  destruct (valid_lookup _ _ _ Hv Hi) as [d Hd].
  simpl in Hadm. unfold parent_of in Hadm. rewrite Hi, Hd in Hadm.
  destruct (metadata s !! Parent_ID d) as [p|] eqn:Hp; last first.
  { by erewrite DeleteID_nil_parent in Hrun. }
  destruct (valid_lookup _ _ _ Hv Hp) as [pd Hpd].
  erewrite DeleteID_present in Hrun by done. injection Hrun as <-.
  by eapply delete_child_settled.
Qed.

(** *** MoveID *)

Lemma replace_first_old_gone old new l :
  old ≠ new → old ∉ remove_first old l → old ∉ replace_first old new l.
Proof.
  intros Hne. induction l as [|x l IH]; [done|].
  rewrite remove_first_cons, replace_first_cons. case_bool_decide as Hx.
  - intros Hn [->|Hin]%elem_of_cons; done.
  - intros [Hxo Hn]%not_elem_of_cons [->|Hin]%elem_of_cons; [done|]. by apply IH.
Qed.

Lemma replace_first_notin old new l : old ∉ l → replace_first old new l = l.
Proof. intros Hn. unfold replace_first. by apply index_of_None in Hn as ->. Qed.

Lemma delete_child_unlisted id d pd :
  id ∉ slice (children pd) → delete_child id d pd = pd.
Proof. intros Hn. unfold delete_child. by apply index_of_None in Hn as ->. Qed.

Lemma MoveID_nil_parent a b i d s :
  metadata s !! a = Some i → heap s !! i = Some d →
  metadata s !! Parent_ID d = None → MoveID a b s = Panic.
Proof.
  intros Hi Hd Hp. unfold MoveID. destruct s as [h l m r au dl rq sv]. munfold. mrun. done.
Qed.

Lemma MoveID_registered_final a b i d p pd s r s' :
  held s = [] → valid s →
  metadata s !! a = Some i → heap s !! i = Some d →
  metadata s !! Parent_ID d = Some p → heap s !! p = Some pd →
  a ≠ b →
  b ∉ slice (children pd) → b ∉ slice (children d) →
  a ∉ remove_first a (slice (children pd)) →
  MoveID a b s = Ok r s' →
  ∃ h' di' pd',
    s' = set_heap h' (set_metadata (<[b:=i]> (delete a (metadata s))) s) ∧
    length h' = length (heap s) ∧
    (∀ x, x ≠ i → x ≠ p → h' !! x = heap s !! x) ∧
    h' !! i = Some di' ∧ h' !! p = Some pd' ∧
    is_dir di' = is_dir d ∧ is_dir pd' = is_dir pd ∧
    (i ≠ p → children di' = children d ∧ subdir di' = subdir d) ∧
    ((a ∈ slice (children pd) ∧
      slice (children pd') = replace_first a b (slice (children pd)) ∧
      subdir pd' = subdir pd) ∨
     ((a ∉ slice (children pd)) ∧ slice (children pd') = slice (children pd) ∧
      subdir pd' = subdir pd) ∨
     ((a ∉ slice (children pd)) ∧ slice (children pd') = slice (children pd) ++ [b] ∧
      subdir pd' = subdir pd + (if is_dir d then 1 else 0))).
Proof.
  intros Hl Hv Hi Hd Hp Hpd Hab Hbl Hbd Honce Hrun.
  pose proof (lookup_lt_Some _ _ _ Hpd) as Hlp.
  pose proof (lookup_lt_Some _ _ _ Hd) as Hli.
  destruct (MoveID_registered a b i d p pd s Hl Hi Hd Hp Hpd)
    as (d1 & h1 & Hh1 & Hd1 & Heq).
  rewrite Heq in Hrun. clear Heq.
  set (l := slice (children pd)) in *.
  set (pd1 := match index_of a l with
              | Some _ => set_children (Some (replace_first a b l)) pd
              | None => pd
              end) in *.
  assert (Hpd1 : is_dir pd1 = is_dir pd ∧ subdir pd1 = subdir pd ∧
                 Parent_ID pd1 = Parent_ID pd ∧
                 slice (children pd1) = replace_first a b l).
  { unfold pd1. destruct (index_of a l) eqn:Hk; [done|].
    apply index_of_None in Hk. by rewrite replace_first_notin. }
  destruct Hpd1 as (Hpd1dir & Hpd1sub & Hpd1par & Hpd1ch).
  assert (Hlen1 : length h1 = length (heap s)) by (subst h1; apply length_insert).
  assert (Hh1p : h1 !! p = Some pd1) by (subst h1; by apply list_lookup_insert_eq).
  assert (Hd1eq : d1 = if decide (i = p) then pd1 else d).
  { case_decide as Hip.
    - subst i. congruence.
    - subst h1. rewrite list_lookup_insert_ne in Hd1 by done. congruence. }
  assert (HPd1 : Parent_ID d1 = Parent_ID d).
  { rewrite Hd1eq. case_decide as Hip; [|done]. subst i. rewrite Hpd1par. congruence. }
  set (d2 := set_IDInternal b d1) in *.
  set (h2 := <[i := d2]> h1) in *.
  assert (Hlen2 : length h2 = length (heap s)) by (unfold h2; rewrite length_insert; lia).
  assert (Hh2i : h2 !! i = Some d2) by (apply list_lookup_insert_eq; lia).
  set (pd2 := if decide (i = p) then d2 else pd1).
  assert (Hh2p : h2 !! p = Some pd2).
  { unfold pd2, h2. case_decide as Hip.
    - subst i. apply list_lookup_insert_eq. lia.
    - by rewrite list_lookup_insert_ne. }
  assert (Hpd2 : is_dir pd2 = is_dir pd ∧ subdir pd2 = subdir pd ∧
                 slice (children pd2) = replace_first a b l).
  { unfold pd2. destruct (decide (i = p)) as [Hip|Hip]; [|done].
    unfold d2. simpl. by rewrite Hd1eq. }
  destruct Hpd2 as (Hpd2dir & Hpd2sub & Hpd2ch).
  assert (Ha2 : a ∉ slice (children pd2)).
  { rewrite Hpd2ch. by apply replace_first_old_gone. }
  (* DeleteID finds nothing to cut out *)
  erewrite bind_Ok in Hrun; last first.
  { eapply (DeleteID_present a i d2 p pd2); simpl; try done. by rewrite HPd1. }
  change (heap (set_heap h2 s)) with h2 in Hrun.
  rewrite delete_child_unlisted in Hrun by done.
  rewrite (list_insert_id h2 p pd2) in Hrun by done.
  set (s3 := set_heap h2 (set_metadata (delete a (metadata (set_heap h2 s))) (set_heap h2 s)))
    in *.
  assert (Hother2 : ∀ x, x ≠ i → x ≠ p → h2 !! x = heap s !! x).
  { intros x Hxi Hxp. unfold h2. rewrite list_lookup_insert_ne by done.
    subst h1. by rewrite list_lookup_insert_ne. }
  assert (Hd2 : is_dir d2 = is_dir d ∧
                (i ≠ p → children d2 = children d ∧ subdir d2 = subdir d)).
  { unfold d2. simpl. rewrite Hd1eq. case_decide as Hip.
    - subst i. split; [|done]. rewrite Hpd1dir. congruence.
    - done. }
  destruct Hd2 as [Hd2dir Hd2same].
  (* the cases in which InsertID leaves the items as they are *)
  assert (Hkeep : s' = set_metadata (<[b:=i]> (delete a (metadata s))) s3 →
    ∃ h' di' pd',
      s' = set_heap h' (set_metadata (<[b:=i]> (delete a (metadata s))) s) ∧
      length h' = length (heap s) ∧
      (∀ x, x ≠ i → x ≠ p → h' !! x = heap s !! x) ∧
      h' !! i = Some di' ∧ h' !! p = Some pd' ∧
      is_dir di' = is_dir d ∧ is_dir pd' = is_dir pd ∧
      (i ≠ p → children di' = children d ∧ subdir di' = subdir d) ∧
      ((a ∈ l ∧ slice (children pd') = replace_first a b l ∧ subdir pd' = subdir pd) ∨
       ((a ∉ l) ∧ slice (children pd') = l ∧ subdir pd' = subdir pd) ∨
       ((a ∉ l) ∧ slice (children pd') = l ++ [b] ∧
        subdir pd' = subdir pd + (if is_dir d then 1 else 0)))).
  { intros ->. exists h2, d2, pd2. split; [done|]. do 7 (split; [done|]).
    destruct (decide (a ∈ l)) as [Hin|Hin]; [left; done|].
    right; left. by rewrite Hpd2ch, replace_first_notin. }
  unfold bind in Hrun.
  destruct (InsertID b i s3) as [[] s4| |] eqn:Hins; [|done..].
  injection Hrun as _ <-.
  destruct (decide (Parent_ID d = EmptyString)) as [He|He].
  { apply Hkeep. erewrite InsertID_stored in Hins; [by injection Hins|done|].
    left. simpl. by rewrite HPd1. }
  destruct (<[b:=i]> (delete a (metadata s)) !! Parent_ID d) as [p'|] eqn:Hp'; last first.
  { apply Hkeep. erewrite InsertID_stored in Hins; [by injection Hins|done|].
    right. simpl. by rewrite HPd1. }
  assert (Hp'case : p' = i ∨ p' = p).
  { apply lookup_insert_Some in Hp' as [[_ <-]|[_ Hp']]; [by left|].
    apply lookup_delete_Some in Hp' as [_ Hp']. right. congruence. }
  assert (∃ pd3, h2 !! p' = Some pd3 ∧
            (slice (children pd3) = replace_first a b l ∨ (p' = i ∧ i ≠ p)))
    as (pd3 & Hpd3 & Hpd3ch).
  { destruct Hp'case as [->| ->].
    - exists d2. split; [done|]. destruct (decide (i = p)) as [->|Hip]; [|by right].
      left. unfold pd2 in Hpd2ch. try rewrite decide_True in Hpd2ch by done.
      exact Hpd2ch.
    - exists pd2. split; [done|]. by left. }
  destruct (index_of b (slice (children pd3))) as [k|] eqn:Hk.
  { apply Hkeep. erewrite InsertID_present in Hins; [by injection Hins|try done..].
    - simpl. by rewrite HPd1.
    - simpl. rewrite HPd1. exact Hp'. }
  apply index_of_None in Hk as Hk'.
  destruct (decide (p' = i)) as [->|Hp'i].
  { erewrite InsertID_deadlock in Hins; [done|done|exact Hh2i|..].
    - simpl. by rewrite HPd1.
    - simpl. rewrite HPd1. exact Hp'.
    - by assert (pd3 = d2) as <- by congruence. }
  destruct Hp'case as [Hx | ->]; [done|].
  destruct Hpd3ch as [Hpd3ch|[? _]]; [|done].
  assert (Hal : a ∉ l).
  { intros Hin. apply Hk'. rewrite Hpd3ch. by apply replace_first_new_in. }
  assert (pd3 = pd2) as -> by congruence.
  assert (Hip : i ≠ p) by done.
  erewrite InsertID_append in Hins; [|done|exact Hh2i|..|exact Hk|done]; cycle 1.
  { simpl. by rewrite HPd1. }
  { simpl. rewrite HPd1. exact Hp'. }
  { exact Hh2p. }
  injection Hins as <-.
  eexists _, _, _. split; [reflexivity|]. simpl.
  split; [by rewrite !length_insert|].
  split. { intros x Hxi Hxp. rewrite !list_lookup_insert_ne by done. by apply Hother2. }
  split; [apply list_lookup_insert_eq; by rewrite length_insert; lia|].
  split. { rewrite list_lookup_insert_ne by done. apply list_lookup_insert_eq. lia. }
  simpl. split; [done|]. split; [done|]. split; [by auto|].
  right; right. split; [done|]. rewrite Hpd2ch, replace_first_notin by done.
  split; [done|]. rewrite Hpd2sub. by replace (is_dir d1) with (is_dir d).
Qed.

Lemma MoveID_registered_settled a b i d p pd s r s' :
  settled s →
  metadata s !! a = Some i → heap s !! i = Some d →
  metadata s !! Parent_ID d = Some p → heap s !! p = Some pd →
  a ≠ b → unlisted s b → listed_by_at_most s a p →
  MoveID a b s = Ok r s' → settled s'.
Proof.
  intros (Hl & Hv & Hacc) Hi Hd Hp Hpd Hab Hub Hla Hrun.
  pose proof (lookup_lt_Some _ _ _ Hpd) as Hlp.
  pose proof (lookup_lt_Some _ _ _ Hd) as Hli.
  set (l := slice (children pd)).
  assert (Hbl : b ∉ l) by by eapply (unlisted_lookup s b (Parent_ID d) p pd).
  assert (Hbd : b ∉ slice (children d)) by by eapply (unlisted_lookup s b a i d).
  assert (Honce : a ∉ remove_first a l)
    by by eapply (listed_by_at_most_parent s a p (Parent_ID d) pd).
  destruct (MoveID_registered_final a b i d p pd s r s' Hl Hv Hi Hd Hp Hpd Hab Hbl Hbd
              Honce Hrun)
    as (h' & di' & pd' & -> & Hlen & Hother & Hi' & Hp' & Hdi & Hdp & Hsame & Hforms).
  fold l in Hforms.
  assert (Hkind : ∀ x, kind_of h' x = kind_of (heap s) x).
  { intros x. unfold kind_of. destruct (decide (x = i)) as [->|Hxi].
    { by rewrite Hi', Hd. }
    destruct (decide (x = p)) as [->|Hxp].
    { by rewrite Hp', Hpd. }
    by rewrite Hother. }
  set (s' := set_heap h' (set_metadata (<[b:=i]> (delete a (metadata s))) s)).
  assert (Hrb : resolves_to_dir s' b = is_dir d).
  { unfold resolves_to_dir. simpl. rewrite lookup_insert_eq, Hkind.
    unfold kind_of. by rewrite Hd. }
  assert (Hro : ∀ x, x ≠ a → x ≠ b → resolves_to_dir s' x = resolves_to_dir s x).
  { intros x Hxa Hxb. unfold resolves_to_dir. simpl.
    rewrite lookup_insert_ne, lookup_delete_ne by done.
    destruct (metadata s !! x); [apply Hkind | done]. }
  assert (Hagree : ∀ ll, a ∉ ll → b ∉ ll → dir_count s' ll = dir_count s ll).
  { intros ll Hall Hbll. apply dir_count_agree. intros x Hx.
    apply Hro; intros ->; done. }
  split; [by destruct s|]. split.
  { intros k x. simpl. intros Hk. apply lookup_lt_is_Some. rewrite Hlen.
    apply lookup_insert_Some in Hk as [[_ <-]|[_ Hk]]; [done|].
    apply lookup_delete_Some in Hk as [_ Hk]. apply lookup_lt_is_Some.
    exact (Hv k x Hk). }
  intros k x e' Hk Hx Hdir. simpl in Hk, Hx.
  assert (Hreg : ∃ kk, metadata s !! kk = Some x).
  { apply lookup_insert_Some in Hk as [[_ <-]|[_ Hk]]; [by eexists|].
    apply lookup_delete_Some in Hk as [_ Hk]. by eexists. }
  destruct Hreg as [kk Hkk].
  destruct (decide (x = p)) as [->|Hxp].
  - (* the parent *)
    assert (e' = pd') as -> by congruence. rewrite Hdp in Hdir.
    pose proof (Hacc kk p pd Hkk Hpd Hdir) as Hpacc. fold l in Hpacc.
    destruct Hforms as [(Hin & Hch & Hsub)|[(Hin & Hch & Hsub)|(Hin & Hch & Hsub)]];
      rewrite Hch, Hsub, Hpacc.
    + symmetry. apply dir_count_replace_first; try done.
      rewrite Hrb. symmetry. by eapply resolves_to_dir_registered.
    + symmetry. by apply Hagree.
    + rewrite dir_count_app, Hagree by done. simpl. rewrite Hrb. lia.
  - destruct (decide (x = i)) as [->|Hxi].
    + (* the item *)
      assert (e' = di') as -> by congruence. rewrite Hdi in Hdir.
      destruct (Hsame Hxp) as [Hch Hsub]. rewrite Hch, Hsub.
      rewrite Hagree; [by eauto | | done].
      by eapply (listed_by_at_most_other s a p kk i d).
    + rewrite Hother in Hx by done.
      rewrite Hagree; [by eauto | |].
      * by eapply (listed_by_at_most_other s a p kk x e').
      * by eapply unlisted_lookup.
Qed.

Lemma MoveID_renamed a b i d p pd s :
  held s = [] →
  metadata s !! a = None →
  metadata s !! b = Some i →
  heap s !! i = Some d →
  metadata s !! Parent_ID d = Some p →
  heap s !! p = Some pd →
  a ∉ slice (children pd) →
  MoveID a b s =
    (DeleteID a;; InsertID b i;; ret None) (set_heap (<[i := set_IDInternal b d]> (heap s)) s).
Proof.
  intros Hl Ha Hi Hd Hp Hpd Hin. apply index_of_None in Hin.
  unfold MoveID. destruct s as [h l m r au dl rq sv]. munfold. subst l. mrun. done.
Qed.

Lemma MoveID_renamed_nil_parent a b i d s :
  metadata s !! a = None → metadata s !! b = Some i → heap s !! i = Some d →
  metadata s !! Parent_ID d = None → MoveID a b s = Panic.
Proof.
  intros Ha Hi Hd Hp. unfold MoveID. destruct s as [h l m r au dl rq sv]. munfold.
  mrun. done.
Qed.

Lemma MoveID_unknown a b s :
  metadata s !! a = None → metadata s !! b = None →
  MoveID a b s = Ok (Some (ErrCouldNotGet a)) s.
Proof.
  intros Ha Hb. unfold MoveID. destruct s as [h l m r au dl rq sv]. munfold. mrun. done.
Qed.

Lemma settled_set_IDInternal s i d v :
  settled s → heap s !! i = Some d →
  settled (set_heap (<[i := set_IDInternal v d]> (heap s)) s).
Proof.
  intros (Hl & Hv & Hacc) Hd. pose proof (lookup_lt_Some _ _ _ Hd) as Hli.
  assert (Hres : ∀ x, resolves_to_dir
            (set_heap (<[i := set_IDInternal v d]> (heap s)) s) x = resolves_to_dir s x).
  { intros x. unfold resolves_to_dir. simpl. destruct (metadata s !! x); [|done].
    apply kind_of_insert. intros d0 Hd0. by assert (d0 = d) as -> by congruence. }
  split; [by destruct s|]. split.
  { intros k x Hk. simpl. apply lookup_lt_is_Some. rewrite length_insert.
    apply lookup_lt_is_Some. exact (Hv k x Hk). }
  intros k x e' Hk Hx Hdir. simpl in Hk, Hx.
  rewrite (dir_count_agree s) by (intros; apply Hres).
  destruct (decide (x = i)) as [->|Hxi].
  - rewrite list_lookup_insert_eq in Hx by done. injection Hx as <-. simpl in *. eauto.
  - rewrite list_lookup_insert_ne in Hx by done. eauto.
Qed.

Lemma MoveID_settled a b s r s' :
  settled s → admissible s (CallMoveID a b) →
  MoveID a b s = Ok r s' → settled s'.
Proof.
  intros Hs [Hab Hadm] Hrun. pose proof Hs as (Hl & Hv & Hacc).
  destruct (metadata s !! a) as [i|] eqn:Hi.
  - destruct Hadm as [Hub Hadm].
    destruct (valid_lookup _ _ _ Hv Hi) as [d Hd].
    unfold parent_of in Hadm. rewrite Hi, Hd in Hadm.
    destruct (metadata s !! Parent_ID d) as [p|] eqn:Hp; last first.
    { by erewrite MoveID_nil_parent in Hrun. }
    destruct (valid_lookup _ _ _ Hv Hp) as [pd Hpd].
    by eapply (MoveID_registered_settled a b i d p pd s r s').
  - destruct (metadata s !! b) as [i|] eqn:Hb; last first.
    { rewrite MoveID_unknown in Hrun by done. by injection Hrun as _ <-. }
    destruct (valid_lookup _ _ _ Hv Hb) as [d Hd].
    destruct (metadata s !! Parent_ID d) as [p|] eqn:Hp; last first.
    { by erewrite MoveID_renamed_nil_parent in Hrun. }
    destruct (valid_lookup _ _ _ Hv Hp) as [pd Hpd].
    pose proof (lookup_lt_Some _ _ _ Hd) as Hli.
    erewrite MoveID_renamed in Hrun; [|try done..]; last first.
    { by eapply unlisted_lookup. }
    set (s2 := set_heap (<[i := set_IDInternal b d]> (heap s)) s) in *.
    assert (Hs2 : settled s2) by by apply settled_set_IDInternal.
    unfold bind in Hrun.
    destruct (DeleteID a s2) as [[] s3| |] eqn:Hdel; [|done..].
    destruct (InsertID b i s3) as [[] s4| |] eqn:Hins; [|done..].
    injection Hrun as _ <-.
    assert (Hs3 : settled s3).
    { eapply DeleteID_settled; [exact Hs2| |exact Hdel].
      simpl. unfold parent_of. simpl. by rewrite Hi. }
    assert (Hs3eq : s3 = set_metadata (delete a (metadata s2)) s2).
    { rewrite DeleteID_absent in Hdel by done. by injection Hdel. }
    eapply InsertID_settled; [exact Hs3| |exact Hins].
    simpl. rewrite Hs3eq. simpl. rewrite list_lookup_insert_eq by done.
    split; [done|]. left. rewrite lookup_delete_ne by done. done.
Qed.

(** *** GetChildrenID *)

Lemma unmarshal_children_effect rs s :
  unmarshal_children rs s =
    Ok (seq (length (heap s)) (length rs)) (set_heap (heap s ++ (decode <$> rs)) s).
Proof.
  revert s. induction rs as [|r rs IH]; intros s; simpl.
  - unfold ret. rewrite app_nil_r. by destruct s.
  - unfold bind at 1. unfold alloc. unfold bind at 1. rewrite IH. simpl.
    rewrite length_app. simpl. rewrite Nat.add_1_r. unfold ret.
    rewrite <- app_assoc. by destruct s.
Qed.

Lemma fetched_children_effect a rs :
  ∀ n s da pre result,
    heap s !! a = Some da →
    children da = Some pre →
    (a < n)%nat →
    (∀ j r, rs !! j = Some r → heap s !! (n + j)%nat = Some (decode r)) →
    ∃ result',
      fetched_children (Some a) (seq n (length rs)) result s =
        Ok result'
          (set_heap
             (<[a := set_subdir (subdir da + ndirs rs)
                       (set_children (Some (pre ++ (rec_id <$> rs))) da)]>
                (heap s))
             (set_metadata (store_all (metadata s) rs n) s)).
Proof.
  induction rs as [|r rs IH]; intros n s da pre result Ha Hpre Han Hrs; simpl.
  - exists result. unfold ret. rewrite app_nil_r, Z.add_0_r.
    replace (set_subdir (subdir da) (set_children (Some pre) da)) with da
      by (destruct da; simpl in *; by subst).
    rewrite list_insert_id by done. by destruct s.
  - pose proof (lookup_lt_Some _ _ _ Ha) as Hla.
    pose proof (Hrs 0%nat r eq_refl) as Hn. rewrite Nat.add_0_r in Hn.
    assert (Hna : a ≠ n) by lia.
    set (da1 := set_children (Some (pre ++ [rec_id r])) da).
    set (da2 := if rec_is_dir r then set_subdir (subdir da1 + 1) da1 else da1).
    set (s2 := set_heap (<[a := da2]> (heap s))
                 (set_metadata (<[rec_id r := n]> (metadata s)) s)).
    destruct (IH (S n) s2 da2 (pre ++ [rec_id r]) (<[ToLower (rec_name r) := n]> result))
      as [result' Hres].
    { unfold s2. simpl. by apply list_lookup_insert_eq. }
    { unfold da2. by destruct (rec_is_dir r). }
    { lia. }
    { intros j r' Hj. unfold s2. simpl. rewrite list_lookup_insert_ne by lia.
      specialize (Hrs (S j) r' Hj). by rewrite Nat.add_succ_r in Hrs. }
    exists result'.
    assert (Hstep : ∀ k : string → M (gmap string loc), (cid ← read (Some n) IDInternal;
              metadata_Store cid n;;
              name ← Name (Some n);
              update (Some a) (λ d, set_children (Some (slice (children d) ++ [cid])) d);;
              dir ← IsDir (Some n);
              (if dir then update (Some a) (λ d, set_subdir (subdir d + 1) d) else skip);;
              k name) s = k (rec_name r) s2).
    { intros k. unfold s2, da2, da1. destruct s as [h l m ro au dl rq sv].
      simpl in *. munfold. mrun. rewrite Hpre. simpl.
      destruct (rec_is_dir r); mrun; done. }
    rewrite (Hstep (λ name, fetched_children (Some a) (seq (S n) (length rs))
                              (<[ToLower name := n]> result))).
    rewrite Hres. f_equal. unfold s2. simpl.
    replace (set_subdir (subdir da2 + ndirs rs)
               (set_children (Some ((pre ++ [rec_id r]) ++ (rec_id <$> rs))) da2))
      with (set_subdir (subdir da + ((if rec_is_dir r then 1 else 0) + ndirs rs))
              (set_children (Some (pre ++ rec_id r :: (rec_id <$> rs))) da)).
    + rewrite list_insert_insert_eq. by destruct s.
    + unfold da2, da1. rewrite <- app_assoc. simpl.
      destruct (rec_is_dir r); destruct da; unfold set_subdir, set_children; simpl;
        f_equal; lia.
Qed.

Lemma GetChildrenID_fetch id au a da page s :
  held s = [] →
  metadata s !! id = Some a →
  heap s !! a = Some da →
  is_dir da = true →
  children da = None →
  no_auth au = false →
  server s (requests s) (ChildrenPathID id) = Some page →
  ∃ result,
    GetChildrenID id au s =
      Ok (result, None)
        (set_heap
           (<[a := set_subdir (subdir da + ndirs (Values page))
                     (set_children (Some (rec_id <$> Values page)) da)]>
              (heap s ++ (decode <$> Values page)))
           (set_metadata (store_all (metadata s) (Values page) (length (heap s)))
              (set_requests (requests s ++ [ChildrenPathID id]) s))).
Proof.
  intros Hl Ha Hda Hdir Hch Hau Hpage.
  pose proof (lookup_lt_Some _ _ _ Hda) as Hla.
  set (rs := Values page).
  set (s1 := set_heap (<[a := set_children (Some []) da]> (heap s ++ (decode <$> rs)))
               (set_held [a] (set_requests (requests s ++ [ChildrenPathID id]) s))).
  destruct (fetched_children_effect a rs (length (heap s)) s1
              (set_children (Some []) da) [] ∅) as [result Hres].
  { unfold s1. simpl. apply list_lookup_insert_eq. rewrite length_app. lia. }
  { done. }
  { done. }
  { intros j r Hj. unfold s1. simpl. rewrite list_lookup_insert_ne by lia.
    rewrite lookup_app_r by lia. replace (length (heap s) + j - length (heap s))%nat
      with j by lia. by rewrite list_lookup_fmap, Hj. }
  exists result. unfold GetChildrenID.
  unfold bind at 1. unfold GetID, gets. rewrite Ha.
  unfold bind at 1. unfold IsDir, read, bind at 1, load. rewrite Hda. unfold ret.
  rewrite Hdir. simpl.
  unfold bind at 1. unfold load. rewrite Hda, Hch, Hau.
  unfold bind at 1. unfold graph_Get. rewrite Hpage.
  unfold bind at 1. rewrite unmarshal_children_effect. fold rs.
  unfold bind at 1. unfold Lock. simpl. rewrite Hl.
  rewrite bool_decide_eq_false_2 by apply not_elem_of_nil.
  unfold bind at 1. unfold update, bind at 1, load. simpl.
  rewrite lookup_app_l, Hda by done. unfold modify. simpl.
  unfold bind at 1.
  match goal with |- context [fetched_children _ _ _ ?st] => change st with s1 end.
  rewrite Hres. unfold bind, Unlock, ret. simpl. rewrite bool_decide_eq_true_2 by done.
  rewrite list_insert_insert_eq. unfold s1. destruct s, da; simpl in *. by subst.
Qed.

(** What a call of [GetChildrenID] that returns has done: nothing, or a
    request that failed, or the fetch of the children. *)
Lemma GetChildrenID_outcomes id au s r s' :
  held s = [] →
  GetChildrenID id au s = Ok r s' →
  s' = s ∨
  s' = set_requests (requests s ++ [ChildrenPathID id]) s ∨
  ∃ a da page,
    metadata s !! id = Some a ∧ heap s !! a = Some da ∧ is_dir da = true ∧
    children da = None ∧ server s (requests s) (ChildrenPathID id) = Some page ∧
    s' = set_heap
           (<[a := set_subdir (subdir da + ndirs (Values page))
                     (set_children (Some (rec_id <$> Values page)) da)]>
              (heap s ++ (decode <$> Values page)))
           (set_metadata (store_all (metadata s) (Values page) (length (heap s)))
              (set_requests (requests s ++ [ChildrenPathID id]) s)).
Proof.
  intros Hl Hrun.
  destruct (metadata s !! id) as [a|] eqn:Ha; last first.
  { left. unfold GetChildrenID, bind, GetID, gets, ret in Hrun. rewrite Ha in Hrun.
    by injection Hrun. }
  destruct (heap s !! a) as [da|] eqn:Hda; last first.
  { unfold GetChildrenID, bind, GetID, gets, IsDir, read, bind, load in Hrun.
    by rewrite Ha, Hda in Hrun. }
  destruct (is_dir da) eqn:Hdir; last first.
  { left. unfold GetChildrenID, bind, GetID, gets, IsDir, read, bind, load, ret in Hrun.
    rewrite Ha, Hda, Hdir in Hrun. by injection Hrun. }
  destruct (children da) as [ids|] eqn:Hch.
  { left. unfold GetChildrenID in Hrun.
    unfold bind at 1 in Hrun. unfold GetID, gets in Hrun. rewrite Ha in Hrun.
    unfold bind at 1 in Hrun. unfold IsDir, read, bind at 1, load, ret in Hrun.
    rewrite Hda, Hdir in Hrun. simpl in Hrun.
    unfold bind at 1 in Hrun. unfold load in Hrun. rewrite Hda, Hch in Hrun.
    unfold bind in Hrun.
    destruct (cached_children ids ∅ s) as [res s1| |] eqn:Hc; [|done..].
    apply cached_children_pure in Hc as ->. unfold ret in Hrun. by injection Hrun. }
  destruct (no_auth au) eqn:Hau.
  { left. unfold GetChildrenID in Hrun.
    unfold bind at 1 in Hrun. unfold GetID, gets in Hrun. rewrite Ha in Hrun.
    unfold bind at 1 in Hrun. unfold IsDir, read, bind at 1, load, ret in Hrun.
    rewrite Hda, Hdir in Hrun. simpl in Hrun.
    unfold bind at 1 in Hrun. unfold load in Hrun. rewrite Hda, Hch, Hau in Hrun.
    by injection Hrun. }
  destruct (server s (requests s) (ChildrenPathID id)) as [page|] eqn:Hpage.
  - right; right. exists a, da, page. do 5 (split; [done|]).
    destruct (GetChildrenID_fetch id au a da page s Hl Ha Hda Hdir Hch Hau Hpage)
      as [result Hres].
    rewrite Hres in Hrun. by injection Hrun.
  - right; left. unfold GetChildrenID in Hrun.
    unfold bind at 1 in Hrun. unfold GetID, gets in Hrun. rewrite Ha in Hrun.
    unfold bind at 1 in Hrun. unfold IsDir, read, bind at 1, load, ret in Hrun.
    rewrite Hda, Hdir in Hrun. simpl in Hrun.
    unfold bind at 1 in Hrun. unfold load in Hrun. rewrite Hda, Hch, Hau in Hrun.
    unfold bind, graph_Get in Hrun. rewrite Hpage in Hrun. by injection Hrun.
Qed.

Lemma store_all_lookup_other m rs n x :
  x ∉ rec_id <$> rs → store_all m rs n !! x = m !! x.
Proof.
  revert m n. induction rs as [|r rs IH]; intros m n; [done|].
  rewrite fmap_cons. cbn [store_all].
  intros [Hx Hin]%not_elem_of_cons. rewrite IH by done. by rewrite lookup_insert_ne.
Qed.

Lemma store_all_lookup_in m rs n j r :
  NoDup (rec_id <$> rs) → rs !! j = Some r →
  store_all m rs n !! rec_id r = Some (n + j)%nat.
Proof.
  revert m n j. induction rs as [|r0 rs IH]; intros m n j; [done|].
  rewrite fmap_cons. cbn [store_all].
  intros [Hr0 Hnd]%NoDup_cons. destruct j as [|j]; simpl.
  - intros [= ->]. rewrite store_all_lookup_other by done.
    rewrite lookup_insert_eq. f_equal. lia.
  - intros Hj. rewrite (IH _ _ j) by done. f_equal. lia.
Qed.

Lemma dir_count_fetched s rs :
  (∀ j r, rs !! j = Some r → resolves_to_dir s (rec_id r) = rec_is_dir r) →
  dir_count s (rec_id <$> rs) = ndirs rs.
Proof.
  induction rs as [|r rs IH]; intros H; [done|].
  rewrite fmap_cons. cbn [dir_count ndirs].
  rewrite (H 0%nat r eq_refl). rewrite IH; [done|].
  intros j r' Hj. by apply (H (S j)).
Qed.

Lemma fetch_settled id a da page s :
  settled s →
  metadata s !! id = Some a →
  heap s !! a = Some da →
  is_dir da = true →
  children da = None →
  NoDup (rec_id <$> Values page) →
  Forall (λ r, unlisted s (rec_id r)) (Values page) →
  settled
    (set_heap
       (<[a := set_subdir (subdir da + ndirs (Values page))
                 (set_children (Some (rec_id <$> Values page)) da)]>
          (heap s ++ (decode <$> Values page)))
       (set_metadata (store_all (metadata s) (Values page) (length (heap s)))
          (set_requests (requests s ++ [ChildrenPathID id]) s))).
Proof.
  intros (Hl & Hv & Hacc) Ha Hda Hdir Hch Hnd Hun.
  pose proof (lookup_lt_Some _ _ _ Hda) as Hla.
  set (rs := Values page) in *. set (n := length (heap s)) in *.
  set (da' := set_subdir (subdir da + ndirs rs) (set_children (Some (rec_id <$> rs)) da)).
  set (h' := <[a := da']> (heap s ++ (decode <$> rs))).
  set (m' := store_all (metadata s) rs n).
  set (s' := set_heap h' (set_metadata m' (set_requests _ s))).
  assert (Hlen : length h' = (n + length rs)%nat).
  { unfold h'. by rewrite length_insert, length_app, length_fmap. }
  assert (Hold : ∀ x, (x < n)%nat → kind_of h' x = kind_of (heap s) x).
  { intros x Hx. unfold h'. rewrite kind_of_insert.
    - by apply kind_of_app.
    - intros d0. rewrite lookup_app_l by done. intros Hd0.
      by assert (d0 = da) as -> by congruence. }
  assert (Hnew : ∀ j r, rs !! j = Some r → h' !! (n + j)%nat = Some (decode r)).
  { intros j r Hj. unfold h'. rewrite list_lookup_insert_ne by (unfold n; lia).
    rewrite lookup_app_r by (unfold n; lia).
    replace (n + j - length (heap s))%nat with j by (unfold n; lia).
    by rewrite list_lookup_fmap, Hj. }
  assert (Hsame : ∀ x, x ∉ rec_id <$> rs → resolves_to_dir s' x = resolves_to_dir s x).
  { intros x Hx. unfold resolves_to_dir. simpl. unfold m'.
    rewrite store_all_lookup_other by done.
    destruct (metadata s !! x) as [y|] eqn:Hy; [|done].
    apply Hold. apply lookup_lt_is_Some. exact (Hv x y Hy). }
  assert (Hfetched : ∀ j r, rs !! j = Some r → resolves_to_dir s' (rec_id r) = rec_is_dir r).
  { intros j r Hj. unfold resolves_to_dir. simpl. unfold m'.
    rewrite (store_all_lookup_in _ _ _ j) by done. unfold kind_of.
    by rewrite (Hnew j r Hj). }
  assert (Hreg : ∀ k y, m' !! k = Some y →
            (∃ j r, rs !! j = Some r ∧ k = rec_id r ∧ y = (n + j)%nat) ∨
            ((k ∉ rec_id <$> rs) ∧ metadata s !! k = Some y)).
  { intros k y Hk. destruct (decide (k ∈ (rec_id <$> rs))) as [Hin|Hin].
    - left. apply list_elem_of_lookup in Hin as [j Hj].
      rewrite list_lookup_fmap in Hj.
      destruct (rs !! j) as [r|] eqn:Hr; [|done]. injection Hj as <-.
      exists j, r. split; [done|]. split; [done|]. unfold m' in Hk.
      rewrite (store_all_lookup_in _ _ _ j r) in Hk by done. congruence.
    - right. split; [done|]. unfold m' in Hk. by rewrite store_all_lookup_other in Hk. }
  split; [by destruct s|]. split.
  { intros k y Hk. simpl in Hk. simpl. apply lookup_lt_is_Some. rewrite Hlen.
    destruct (Hreg k y Hk) as [(j & r & Hj & _ & ->)|[_ Hk']].
    - apply lookup_lt_Some in Hj. lia.
    - pose proof (proj1 (lookup_lt_is_Some _ _) (Hv k y Hk')). unfold n. lia. }
  intros k y e' Hk Hy He'. simpl in Hk, Hy.
  destruct (Hreg k y Hk) as [(j & r & Hj & _ & ->)|[_ Hk']].
  - (* a fetched child *)
    rewrite (Hnew j r Hj) in Hy. by injection Hy as <-.
  - pose proof (proj1 (lookup_lt_is_Some _ _) (Hv k y Hk')) as Hyn.
    destruct (decide (y = a)) as [->|Hya].
    + (* the directory that has been populated *)
      unfold h' in Hy. rewrite list_lookup_insert_eq in Hy
        by (rewrite length_app; lia).
      injection Hy as <-. simpl.
      rewrite (dir_count_fetched s' rs Hfetched).
      pose proof (Hacc k a da Hk' Hda Hdir) as H0. rewrite Hch in H0. simpl in H0. lia.
    + unfold h' in Hy. rewrite list_lookup_insert_ne in Hy by done.
      rewrite lookup_app_l in Hy by done.
      rewrite (dir_count_agree s); [by eauto|].
      intros x Hx. apply Hsame. intros Hin.
      apply list_elem_of_fmap in Hin as (r & -> & Hr).
      rewrite Forall_forall in Hun.
      by apply (unlisted_lookup s (rec_id r) k y e' (Hun r Hr) Hk' Hy).
Qed.

Lemma settled_set_requests s v : settled s → settled (set_requests v s).
Proof.
  intros (Hl & Hv & Hacc). split; [by destruct s|]. split; [by destruct s|].
  intros k a e Hk Ha Hd. rewrite (dir_count_agree s); [by eauto|].
  intros x _. by destruct s.
Qed.

Lemma GetChildrenID_settled id au s r s' :
  settled s → admissible s (CallGetChildrenID id au) →
  GetChildrenID id au s = Ok r s' → settled s'.
Proof.
  intros Hs Hadm Hrun. pose proof Hs as (Hl & _).
  destruct (GetChildrenID_outcomes id au s r s' Hl Hrun)
    as [->|[->|(a & da & page & Ha & Hda & Hdir & Hch & Hpage & ->)]].
  - done.
  - by apply settled_set_requests.
  - simpl in Hadm. rewrite Hpage in Hadm. destruct Hadm as [Hnd Hun].
    by apply fetch_settled.
Qed.

(** *** Sequences of admissible calls *)

Lemma exec_settled c s s' :
  settled s → admissible s c → exec c s = Ok tt s' → settled s'.
Proof.
  intros Hs Hadm Hrun. destruct c; simpl in Hrun; try done.
  - by eapply InsertID_settled.
  - by eapply DeleteID_settled.
  - unfold bind, skip, ret in Hrun.
    destruct (MoveID oldID newID s) as [e s1| |] eqn:Hm; [|done..].
    injection Hrun as <-. by eapply MoveID_settled.
  - unfold bind, skip, ret in Hrun.
    destruct (GetChildrenID id a s) as [e s1| |] eqn:Hm; [|done..].
    injection Hrun as <-. by eapply GetChildrenID_settled.
Qed.

Lemma subdir_accurate_counters s :
  subdir_accurate s ↔ map_Forall (λ _ a, counter_accurate s a) (metadata s).
Proof.
  split.
  - intros H id a Hid. unfold counter_accurate. destruct (heap s !! a) eqn:Ha; [|done].
    by eapply H.
  - intros H id a d Hid Ha. specialize (H id a Hid). unfold counter_accurate in H.
    by rewrite Ha in H.
Qed.

(** C2, as stated, fails: a call of [InsertID] that registers another item
    under an id which a directory lists already changes what the listed id
    resolves to, and no counter is touched.  Here "x" is first a file and
    then a directory; the root lists "x" once and its counter stays 0. *)
Lemma InsertID_of_listed_id_breaks_subdir_count :
  let s := cache_of [folder "r" "root" EmptyString None 0; file "x" "x" "r";
                     folder "x" "x" "r" None 0] ∅ "r" in
  ∃ s', run [CallInsertID "r" 0%nat; CallInsertID "x" 1%nat; CallInsertID "x" 2%nat] s
          = Ok tt s' ∧
        subdir_accurate s ∧
        metadata s' !! "r" = Some 0%nat ∧
        heap s' !! 0%nat = Some (folder "r" "root" EmptyString (Some ["x"]) 0) ∧
        dir_count s' ["x"] = 1 ∧
        ¬ subdir_accurate s'.
Proof.
  eexists. split; [vm_compute; reflexivity|].
  split; [by intros id a d ?|].
  split; [reflexivity|]. split; [reflexivity|]. split; [reflexivity|].
  intros H. by specialize (H "r" 0%nat _ eq_refl eq_refl eq_refl).
Qed.

(** C2 (amended). Start from a state in which no call is in progress,
    registered pointers are allocated and every registered directory has an
    accurate counter, and let a sequence of [InsertID], [DeleteID], [MoveID]
    and [GetChildrenID] calls return, each call being admissible in the state
    it is made in (see [admissible]: ids are registered under the id field of
    their item and are not listed by anyone when they are introduced; an id
    that is removed or renamed is listed by the parent of its item only, and
    once; the server returns children of distinct, unlisted ids).  Then every
    registered directory has an accurate counter again: its [subdir] is the
    number of ids in its child list that resolve to directories. *)
Theorem subdir_accurate_after_admissible_calls cs s s' :
  settled s →
  admissible_run s cs →
  run cs s = Ok tt s' →
  settled s' ∧
  ∀ id a d, metadata s' !! id = Some a → heap s' !! a = Some d →
    is_dir d = true → subdir d = dir_count s' (slice (children d)).
Proof.
  intros Hs Hadm Hrun. cut (settled s'); [intros H; split; [done|apply H]|].
  revert s Hs Hadm Hrun. induction cs as [|c cs IH]; intros s Hs Hadm Hrun; simpl in *.
  - by injection Hrun as <-.
  - destruct Hadm as [Hc Hcs]. unfold bind in Hrun.
    destruct (exec c s) as [[] s1| |] eqn:Hexec; [|done..].
    eapply (IH s1); [by eapply exec_settled | by apply Hcs | done].
Qed.

Lemma subdir_accurate_after_admissible_calls_witness :
  let s := online_cache_of [folder "r" "root" EmptyString None 0;
                            folder "d" "Docs" "r" None 0; file "f" "f.txt" "d"]
             {["r" := 0%nat]} "r" "/me/drive/root/delta?token=latest" in
  let cs := [CallGetChildrenID "r" (Some (mkAuth "token")); CallInsertID "d" 1%nat;
             CallInsertID "f" 2%nat; CallMoveID "f" "g"; CallDeleteID "d"] in
  ∃ s', run cs s = Ok tt s' ∧ settled s' ∧
    ∀ id a d, metadata s' !! id = Some a → heap s' !! a = Some d →
      is_dir d = true → subdir d = dir_count s' (slice (children d)).
Proof.
  intros s cs. eexists. split; [vm_compute; reflexivity|].
  apply (subdir_accurate_after_admissible_calls cs s).
  - split; [reflexivity|]. split.
    + unfold valid. apply (bool_decide_unpack _). vm_compute. reflexivity.
    + apply subdir_accurate_counters. apply (bool_decide_unpack _).
      vm_compute. reflexivity.
  - simpl. split.
    { split; [apply (bool_decide_unpack _); vm_compute; reflexivity|].
      repeat constructor. unfold unlisted. apply (bool_decide_unpack _).
      vm_compute. reflexivity. }
    intros s1 H1. vm_compute in H1. injection H1 as <-. split.
    { simpl. split; [reflexivity|]. right. split.
      - unfold unlisted. apply (bool_decide_unpack _). vm_compute. reflexivity.
      - split; [apply not_elem_of_nil | reflexivity]. }
    intros s2 H2. vm_compute in H2. injection H2 as <-. split.
    { simpl. split; [reflexivity|]. right. split.
      - unfold unlisted. apply (bool_decide_unpack _). vm_compute. reflexivity.
      - split; [apply not_elem_of_nil | discriminate]. }
    intros s3 H3. vm_compute in H3. injection H3 as <-. split.
    { split; [discriminate|]. simpl. split.
      - unfold unlisted. apply (bool_decide_unpack _). vm_compute. reflexivity.
      - unfold listed_by_at_most. apply (bool_decide_unpack _). vm_compute. reflexivity. }
    intros s4 H4. vm_compute in H4. injection H4 as <-. split; [|done].
    simpl. unfold listed_by_at_most. apply (bool_decide_unpack _). vm_compute. reflexivity.
  - vm_compute. reflexivity.
Defined.

(** ** Resolution of paths in the cache *)

Lemma cached_children_child_map s ids result :
  valid s → cached_children ids result s = Ok (child_map s ids result) s.
Proof.
  intros Hv. revert result. induction ids as [|id ids IH]; intros result; simpl; [done|].
  unfold bind at 1. unfold GetID, gets.
  destruct (metadata s !! id) as [c|] eqn:Hc; [|apply IH].
  destruct (valid_lookup _ _ _ Hv Hc) as [d Hd].
  unfold Name, read, load, bind, ret. rewrite Hd. apply IH.
Qed.

Lemma GetChildrenID_populated id au q dq ids s :
  valid s →
  metadata s !! id = Some q → heap s !! q = Some dq →
  is_dir dq = true → children dq = Some ids →
  GetChildrenID id au s = Ok (child_map s ids ∅, None) s.
Proof.
  intros Hv Hq Hdq Hdir Hch. unfold GetChildrenID.
  unfold bind at 1. unfold GetID, gets. rewrite Hq.
  unfold bind at 1. unfold IsDir, read, bind at 1, load, ret. rewrite Hdq, Hdir. simpl.
  unfold bind at 1. unfold load. rewrite Hdq, Hch.
  unfold bind. by rewrite cached_children_child_map.
Qed.

Lemma GetChildrenID_file id au q dq s :
  metadata s !! id = Some q → heap s !! q = Some dq → is_dir dq = false →
  GetChildrenID id au s = Ok (∅, None) s.
Proof.
  intros Hq Hdq Hdir. unfold GetChildrenID.
  unfold bind at 1. unfold GetID, gets. rewrite Hq.
  unfold bind at 1. unfold IsDir, read, bind at 1, load, ret. by rewrite Hdq, Hdir.
Qed.

Lemma GetChildrenID_unknown id au s :
  metadata s !! id = None →
  GetChildrenID id au s = Ok (∅, Some (ErrNotInCache id)) s.
Proof. intros Hq. unfold GetChildrenID, bind, GetID, gets, ret. by rewrite Hq. Qed.

Lemma GetChildrenID_no_auth id au q dq s :
  metadata s !! id = Some q → heap s !! q = Some dq →
  is_dir dq = true → children dq = None → no_auth au = true →
  GetChildrenID id au s = Ok (∅, Some (ErrNoAuth q)) s.
Proof.
  intros Hq Hdq Hdir Hch Hau. unfold GetChildrenID.
  unfold bind at 1. unfold GetID, gets. rewrite Hq.
  unfold bind at 1. unfold IsDir, read, bind at 1, load, ret. rewrite Hdq, Hdir. simpl.
  unfold bind at 1. unfold load. by rewrite Hdq, Hch, Hau.
Qed.

Lemma GetChildrenID_unanswered id au q dq s :
  metadata s !! id = Some q → heap s !! q = Some dq →
  is_dir dq = true → children dq = None → no_auth au = false →
  server s (requests s) (ChildrenPathID id) = None →
  GetChildrenID id au s
  = Ok (∅, Some ErrTransport) (set_requests (requests s ++ [ChildrenPathID id]) s).
Proof.
  intros Hq Hdq Hdir Hch Hau Hsv. unfold GetChildrenID.
  unfold bind at 1. unfold GetID, gets. rewrite Hq.
  unfold bind at 1. unfold IsDir, read, bind at 1, load, ret. rewrite Hdq, Hdir. simpl.
  unfold bind at 1. unfold load. rewrite Hdq, Hch, Hau.
  unfold bind, graph_Get. by rewrite Hsv.
Qed.

(** A call of [GetChildrenID] that sends no request and reports no error
    answers with the children [step] finds. *)
Lemma GetChildrenID_quiet id au s m s' :
  held s = [] → valid s →
  GetChildrenID id au s = Ok (m, None) s' →
  (length (requests s') ≤ length (requests s))%nat →
  s' = s ∧ ∀ seg, m !! seg = step s id seg.
Proof.
  intros Hl Hv Hrun Hlen. unfold step.
  destruct (metadata s !! id) as [q|] eqn:Hq; last first.
  { by rewrite GetChildrenID_unknown in Hrun. }
  destruct (valid_lookup _ _ _ Hv Hq) as [dq Hdq]. rewrite Hdq.
  destruct (is_dir dq) eqn:Hdir; last first.
  { erewrite GetChildrenID_file in Hrun by done. by injection Hrun as <- <-. }
  destruct (children dq) as [ids|] eqn:Hch.
  { erewrite GetChildrenID_populated in Hrun by done. by injection Hrun as <- <-. }
  exfalso. destruct (no_auth au) eqn:Hau.
  { by erewrite GetChildrenID_no_auth in Hrun by done. }
  destruct (server s (requests s) (ChildrenPathID id)) as [page|] eqn:Hpage.
  - destruct (GetChildrenID_fetch id au q dq page s Hl Hq Hdq Hdir Hch Hau Hpage)
      as [result Hres].
    rewrite Hres in Hrun. injection Hrun as _ <-. simpl in Hlen.
    rewrite length_app in Hlen. simpl in Hlen. lia.
  - by erewrite GetChildrenID_unanswered in Hrun by done.
Qed.

(** The requests made are never forgotten. *)
Lemma requests_grow_keeps s0 :
  (∀ s l, (length (requests s0) ≤ length (requests s))%nat →
     (length (requests s0) ≤ length (requests (set_held l s)))%nat) ∧
  (∀ s id a, (length (requests s0) ≤ length (requests s))%nat → is_Some (heap s !! a) →
     (length (requests s0) ≤
      length (requests (set_metadata (<[id:=a]> (metadata s)) s)))%nat) ∧
  (∀ s id, (length (requests s0) ≤ length (requests s))%nat →
     (length (requests s0) ≤
      length (requests (set_metadata (delete id (metadata s)) s)))%nat) ∧
  (∀ s a d f, (length (requests s0) ≤ length (requests s))%nat →
     heap s !! a = Some d → tame f →
     (length (requests s0) ≤
      length (requests (set_heap (<[a := f d]> (heap s)) s)))%nat) ∧
  (∀ s d, (length (requests s0) ≤ length (requests s))%nat →
     (length (requests s0) ≤ length (requests (set_heap (heap s ++ [d]) s)))%nat) ∧
  (∀ s x, (length (requests s0) ≤ length (requests s))%nat →
     (length (requests s0) ≤
      length (requests (set_requests (requests s ++ [x]) s)))%nat).
Proof.
  repeat split; intros; try by destruct s. simpl. rewrite length_app. lia.
Qed.

Lemma GetChildrenID_requests_grow id au s r s' :
  GetChildrenID id au s = Ok r s' → (length (requests s) ≤ length (requests s'))%nat.
Proof.
  intros Hrun. destruct (requests_grow_keeps s) as (H1 & H2 & H3 & H4 & H5 & H6).
  pose proof (keeps_GetChildrenID (λ x, (length (requests s) ≤ length (requests x))%nat)
                H1 H2 H4 H5 H6 id au s (le_n _)) as Hk.
  by rewrite Hrun in Hk.
Qed.

Lemma Get_loop_requests_grow split i rest lastID item au s r s' :
  Get_loop split i rest lastID item au s = Ok r s' →
  (length (requests s) ≤ length (requests s'))%nat.
Proof.
  intros Hrun. destruct (requests_grow_keeps s) as (H1 & H2 & H3 & H4 & H5 & H6).
  pose proof (keeps_Get_loop (λ x, (length (requests s) ≤ length (requests x))%nat)
                H1 H2 H4 H5 H6 split i rest lastID item au s (le_n _)) as Hk.
  by rewrite Hrun in Hk.
Qed.

(** A run of the loop of [Get] that sends no request and reports no error is
    the walk through the cache. *)
Lemma Get_loop_quiet split i rest lastID item au s o s' :
  held s = [] → valid s →
  Get_loop split i rest lastID item au s = Ok (o, None) s' →
  (length (requests s') ≤ length (requests s))%nat →
  s' = s ∧ walk s lastID rest item = o.
Proof.
  intros Hl Hv. revert i lastID item.
  induction rest as [|seg rest IH]; intros i lastID item Hrun Hlen; simpl in *.
  - by injection Hrun as <- <-.
  - unfold bind at 1 in Hrun.
    destruct (GetChildrenID lastID au s) as [[m e] s1| |] eqn:Hg; [|done..].
    simpl in Hrun. destruct e as [err|]; [done|].
    pose proof (GetChildrenID_requests_grow _ _ _ _ _ Hg) as Hgrow1.
    destruct (m !! seg) as [c|] eqn:Hc; [|done].
    unfold bind at 1 in Hrun. unfold ID, read, bind at 1, load, ret in Hrun.
    destruct (heap s1 !! c) as [dc|] eqn:Hdc; [|done].
    pose proof (Get_loop_requests_grow _ _ _ _ _ _ _ _ _ Hrun) as Hgrow2.
    destruct (GetChildrenID_quiet lastID au s m s1 Hl Hv Hg) as [-> Hm]; [lia|].
    rewrite <- Hm, Hc, Hdc. by apply (IH (S i)).
Qed.

(** Conversely a walk through the cache is what [Get] does, with any
    credentials. *)
Lemma walk_Get_loop split i rest lastID item au s x :
  valid s →
  walk s lastID rest item = Some x →
  Get_loop split i rest lastID item au s = Ok (Some x, None) s.
Proof.
  intros Hv. revert i lastID item.
  induction rest as [|seg rest IH]; intros i lastID item Hw; simpl in *.
  - by subst.
  - unfold step in Hw.
    destruct (metadata s !! lastID) as [q|] eqn:Hq; [|done].
    destruct (heap s !! q) as [dq|] eqn:Hdq; [|done].
    destruct (is_dir dq) eqn:Hdir; [|done].
    destruct (children dq) as [ids|] eqn:Hch; [|done].
    destruct (child_map s ids ∅ !! seg) as [c|] eqn:Hc; [|done].
    destruct (heap s !! c) as [dc|] eqn:Hdc; [|done].
    unfold bind at 1. erewrite GetChildrenID_populated by done. simpl. rewrite Hc.
    unfold bind at 1. unfold ID, read, bind at 1, load, ret. rewrite Hdc.
    by apply IH.
Qed.

Lemma lower_ascii_idemp c : lower_ascii (lower_ascii c) = lower_ascii c.
Proof. by destruct c as [[] [] [] [] [] [] [] []]. Qed.

Lemma ToLower_idemp p : ToLower (ToLower p) = ToLower p.
Proof. induction p as [|c p IH]; simpl; [done|]. by rewrite lower_ascii_idemp, IH. Qed.

Lemma segments_ToLower p : segments (ToLower p) = segments p.
Proof. unfold segments. by rewrite ToLower_idemp. Qed.

Lemma Get_quiet p au s o s' :
  held s = [] → valid s →
  Get p au s = Ok (o, None) s' →
  (length (requests s') ≤ length (requests s))%nat →
  s' = s ∧ resolve s p = o.
Proof.
  intros Hl Hv Hrun Hlen. unfold Get in Hrun. unfold resolve.
  unfold bind at 1 in Hrun. unfold gets in Hrun. case_bool_decide.
  - unfold bind, GetID, gets, ret in Hrun. by injection Hrun as <- <-.
  - by apply (Get_loop_quiet _ _ _ _ _ _ _ _ _ Hl Hv Hrun).
Qed.

Lemma resolve_Get p au s x :
  valid s → resolve s p = Some x → Get p au s = Ok (Some x, None) s.
Proof.
  intros Hv Hr. unfold resolve in Hr. unfold Get.
  unfold bind at 1. unfold gets. case_bool_decide.
  - unfold bind, GetID, gets, ret. by rewrite Hr.
  - by apply walk_Get_loop.
Qed.

(** *** The map of the children of a directory *)

Lemma child_map_app s l1 l2 acc :
  child_map s (l1 ++ l2) acc = child_map s l2 (child_map s l1 acc).
Proof.
  revert acc. induction l1 as [|cid l1 IH]; intros acc; simpl; [done|].
  destruct (metadata s !! cid) as [c|]; [|apply IH].
  destruct (heap s !! c); apply IH.
Qed.

Lemma child_map_lookup s ids acc seg c :
  child_map s ids acc !! seg = Some c →
  acc !! seg = Some c ∨
  ∃ cid dc, cid ∈ ids ∧ metadata s !! cid = Some c ∧ heap s !! c = Some dc ∧
            ToLower (NameInternal dc) = seg.
Proof.
  revert acc. induction ids as [|cid ids IH]; intros acc; simpl; [by left|].
  destruct (metadata s !! cid) as [c'|] eqn:Hc'.
  - destruct (heap s !! c') as [dc'|] eqn:Hdc'.
    + intros [Hacc|(cid' & dc & Hin & H1 & H2 & H3)]%IH.
      * apply lookup_insert_Some in Hacc as [[<- <-]|[_ Hacc]]; [|by left].
        right. exists cid, dc'. split; [left|done].
      * right. exists cid', dc. split; [by right|done].
    + intros [Hacc|(cid' & dc & Hin & H1 & H2 & H3)]%IH; [by left|].
      right. exists cid', dc. split; [by right|done].
  - intros [Hacc|(cid' & dc & Hin & H1 & H2 & H3)]%IH; [by left|].
    right. exists cid', dc. split; [by right|done].
Qed.

Lemma child_map_agree s t ids acc :
  (∀ cid, cid ∈ ids →
     metadata t !! cid = metadata s !! cid ∧
     ∀ c, metadata s !! cid = Some c →
       NameInternal <$> heap t !! c = NameInternal <$> heap s !! c) →
  child_map t ids acc = child_map s ids acc.
Proof.
  revert acc. induction ids as [|cid ids IH]; intros acc H; simpl; [done|].
  destruct (H cid) as [Hm Hn]; [left|]. rewrite Hm.
  assert (Hrest : ∀ cid', cid' ∈ ids →
            metadata t !! cid' = metadata s !! cid' ∧
            ∀ c, metadata s !! cid' = Some c →
              NameInternal <$> heap t !! c = NameInternal <$> heap s !! c).
  { intros cid' Hin. apply H. by right. }
  destruct (metadata s !! cid) as [c|]; [|by apply IH].
  specialize (Hn c eq_refl).
  destruct (heap t !! c) as [dt|], (heap s !! c) as [ds|]; simpl in Hn; try done.
  - injection Hn as ->. by apply IH.
  - by apply IH.
Qed.

(** *** Walks *)

Lemma keyed_lookup s k a d :
  keyed s → metadata s !! k = Some a → heap s !! a = Some d → IDInternal d = k.
Proof. intros Hk Ha Hd. specialize (Hk k a Ha). unfold carries in Hk. by rewrite Hd in Hk. Qed.

Lemma ranked_lookup rank s k q dq cid c :
  ranked rank s → metadata s !! k = Some q → heap s !! q = Some dq →
  cid ∈ slice (children dq) → metadata s !! cid = Some c → (rank q < rank c)%nat.
Proof.
  intros Hr Hq Hdq Hin Hc. specialize (Hr k q Hq). unfold ranks_children in Hr.
  rewrite Hdq in Hr. rewrite Forall_forall in Hr. specialize (Hr cid Hin).
  by rewrite Hc in Hr.
Qed.

(** What a successful step has found. *)
Lemma step_Some s k seg c :
  step s k seg = Some c →
  ∃ q dq ids cid dc,
    metadata s !! k = Some q ∧ heap s !! q = Some dq ∧ is_dir dq = true ∧
    children dq = Some ids ∧ child_map s ids ∅ !! seg = Some c ∧
    cid ∈ ids ∧ metadata s !! cid = Some c ∧ heap s !! c = Some dc ∧
    ToLower (NameInternal dc) = seg.
Proof.
  unfold step. intros H.
  destruct (metadata s !! k) as [q|] eqn:Hq; [|done].
  destruct (heap s !! q) as [dq|] eqn:Hdq; [|done].
  destruct (is_dir dq) eqn:Hdir; [|done].
  destruct (children dq) as [ids|] eqn:Hch; [|done].
  destruct (child_map_lookup _ _ _ _ _ H) as [?|(cid & dc & Hin & H1 & H2 & H3)]; [done|].
  by exists q, dq, ids, cid, dc.
Qed.

Lemma walk_rank rank s :
  keyed s → ranked rank s →
  ∀ segs k c0 x, metadata s !! k = Some c0 → walk s k segs (Some c0) = Some x →
    (rank c0 ≤ rank x)%nat.
Proof.
  intros Hk Hr. induction segs as [|seg segs IH]; intros k c0 x Hc0 Hw; simpl in Hw.
  - injection Hw as ->. lia.
  - destruct (step s k seg) as [c|] eqn:Hst; [|done].
    destruct (step_Some _ _ _ _ Hst)
      as (q & dq & ids & cid & dc & Hq & Hdq & Hdir & Hch & Hm & Hin & Hcid & Hdc & Hn).
    rewrite Hdc in Hw.
    assert (q = c0) as -> by congruence.
    pose proof (ranked_lookup rank s k c0 dq cid c Hr Hq Hdq) as Hlt.
    rewrite Hch in Hlt. specialize (Hlt Hin Hcid).
    assert (IDInternal dc = cid) as Hid by by eapply keyed_lookup.
    rewrite Hid in Hw. specialize (IH cid c x Hcid Hw). lia.
Qed.

(** A walk is the same in a state that agrees on the steps from every node
    of a smaller rank than the node reached. *)
Lemma walk_stable rank s t x :
  keyed s → ranked rank s →
  (∀ k q seg c, metadata s !! k = Some q → (rank q < rank x)%nat →
     step s k seg = Some c → step t k seg = Some c) →
  (∀ c d, heap s !! c = Some d →
     ∃ d', heap t !! c = Some d' ∧ IDInternal d' = IDInternal d) →
  ∀ segs k item, walk s k segs item = Some x → walk t k segs item = Some x.
Proof.
  intros Hk Hr Hagree Hids. induction segs as [|seg segs IH]; intros k item Hw;
    simpl in *; [done|].
  destruct (step s k seg) as [c|] eqn:Hst; [|done].
  destruct (step_Some _ _ _ _ Hst)
    as (q & dq & ids & cid & dc & Hq & Hdq & Hdir & Hch & Hm & Hin & Hcid & Hdc & Hn).
  rewrite Hdc in Hw.
  assert (IDInternal dc = cid) as Hid by by eapply keyed_lookup.
  assert (Hlt : (rank q < rank x)%nat).
  { pose proof (ranked_lookup rank s k q dq cid c Hr Hq Hdq) as Hlt.
    rewrite Hch in Hlt. specialize (Hlt Hin Hcid).
    rewrite Hid in Hw. pose proof (walk_rank rank s Hk Hr _ _ _ _ Hcid Hw). lia. }
  rewrite (Hagree k q seg c Hq Hlt Hst).
  destruct (Hids c dc Hdc) as (dc' & -> & ->). by apply IH.
Qed.

Lemma walk_app s l1 l2 k item :
  walk s k (l1 ++ l2) item =
    match l1 with
    | [] => walk s k l2 item
    | _ => match walk s k l1 item with
           | Some x => match heap s !! x with
                       | Some dx => walk s (IDInternal dx) l2 (Some x)
                       | None => None
                       end
           | None => None
           end
    end.
Proof.
  revert k item. induction l1 as [|seg l1 IH]; intros k item; [done|]. simpl.
  destruct (step s k seg) as [c|] eqn:Hst; [|done].
  destruct (heap s !! c) as [dc|] eqn:Hdc; [|done].
  rewrite IH. destruct l1 as [|seg' l1]; [simpl; by rewrite Hdc|done].
Qed.

(** *** Lookups in a cache that holds the children of every directory *)

Lemma Get_loop_cached split i rest lastID item au s :
  valid s → cached s →
  ∃ o e, Get_loop split i rest lastID item au s = Ok (o, e) s ∧
         (e = None → o = walk s lastID rest item) ∧ (is_Some e → o = None).
Proof.
  intros Hv Hc. revert i lastID item.
  induction rest as [|seg rest IH]; intros i lastID item; simpl.
  - exists item, None. split_and!; [done..|]. by intros [? ?].
  - unfold bind at 1. unfold step.
    destruct (metadata s !! lastID) as [q|] eqn:Hq.
    2:{ rewrite GetChildrenID_unknown by done. simpl. by eexists _, _. }
    destruct (Hv _ _ Hq) as [dq Hdq]. rewrite Hdq.
    destruct (is_dir dq) eqn:Hdir.
    2:{ erewrite GetChildrenID_file by done. simpl. rewrite lookup_empty. by eexists _, _. }
    pose proof (Hc _ _ Hq) as Hl. unfold loaded in Hl. rewrite Hdq in Hl.
    destruct (children dq) as [ids|] eqn:Hch; [|by destruct (Hl Hdir)].
    erewrite GetChildrenID_populated by done. simpl.
    destruct (child_map s ids ∅ !! seg) as [c|] eqn:Hcm; [|by eexists _, _].
    destruct (child_map_lookup _ _ _ _ _ Hcm) as [?|(cid & dc & Hin & H1 & H2 & H3)]; [done|].
    unfold bind at 1. unfold ID, read, bind at 1, load, ret. rewrite H2.
    apply IH.
Qed.

Lemma Get_cached p au s :
  valid s → cached s →
  ∃ o e, Get p au s = Ok (o, e) s ∧ (e = None → o = resolve s p) ∧
         (is_Some e → o = None).
Proof.
  intros Hv Hc. unfold Get, resolve. unfold bind at 1. unfold gets.
  case_bool_decide.
  - unfold bind, GetID, gets, ret. eexists _, _. split_and!; [done..|]. by intros [? ?].
  - by apply Get_loop_cached.
Qed.

(** *** What a resolved path has found *)

Lemma walk_found s :
  keyed s →
  ∀ segs k item x, walk s k segs item = Some x →
    (segs = [] ∧ item = Some x) ∨
    ∃ k' q dq dx,
      metadata s !! k' = Some q ∧ heap s !! q = Some dq ∧ is_dir dq = true ∧
      heap s !! x = Some dx ∧ IDInternal dx ∈ slice (children dq) ∧
      metadata s !! IDInternal dx = Some x.
Proof.
  intros Hk. induction segs as [|seg segs IH]; intros k item x Hw; simpl in Hw.
  - by left.
  - right. destruct (step s k seg) as [c|] eqn:Hst; [|done].
    destruct (step_Some _ _ _ _ Hst)
      as (q & dq & ids & cid & dc & Hq & Hdq & Hdir & Hch & Hm & Hin & Hcid & Hdc & Hn).
    rewrite Hdc in Hw.
    assert (IDInternal dc = cid) as Hid by by eapply keyed_lookup.
    destruct (IH _ _ _ Hw) as [[-> Hx]|H]; [|done].
    injection Hx as <-. exists k, q, dq, dc. rewrite Hch, Hid. done.
Qed.

Lemma resolve_registered s p x :
  valid s → keyed s → resolve s p = Some x →
  ∃ dx, heap s !! x = Some dx ∧ metadata s !! IDInternal dx = Some x.
Proof.
  intros Hv Hk. unfold resolve. case_bool_decide.
  - intros Hr. destruct (Hv _ _ Hr) as [dx Hdx]. exists dx. split; [done|].
    by rewrite (keyed_lookup _ _ _ _ Hk Hr Hdx).
  - intros Hw. destruct (walk_found s Hk _ _ _ _ Hw)
      as [[_ ?]|(k' & q & dq & dx & _ & _ & _ & Hdx & _ & Hreg)]; [done|].
    by exists dx.
Qed.

Lemma resolve_listed s p x :
  keyed s → p ≠ "/" → resolve s p = Some x →
  ∃ k' q dq dx,
    metadata s !! k' = Some q ∧ heap s !! q = Some dq ∧ is_dir dq = true ∧
    heap s !! x = Some dx ∧ IDInternal dx ∈ slice (children dq) ∧
    metadata s !! IDInternal dx = Some x.
Proof.
  intros Hk Hp. unfold resolve. rewrite bool_decide_eq_false_2 by done.
  intros Hw. by destruct (walk_found s Hk _ _ _ _ Hw) as [[_ ?]|H].
Qed.

Lemma resolve_ToLower s p :
  p ≠ "/" → ToLower p ≠ "/" → resolve s (ToLower p) = resolve s p.
Proof.
  intros H1 H2. unfold resolve.
  rewrite !bool_decide_eq_false_2 by done. by rewrite segments_ToLower.
Qed.

Lemma resolve_dir s p :
  resolve s (Dir (ToLower p)) =
    if bool_decide (Dir (ToLower p) = "/") then metadata s !! root s
    else walk s (root s) (dir_segments p) None.
Proof.
  unfold resolve, dir_segments. by case_bool_decide.
Qed.

(** *** The two halves of [Move] *)

Lemma SetName_effect i d name s :
  held s = [] → heap s !! i = Some d →
  SetName (Some i) name s =
    Ok tt (set_heap (<[i := set_NameInternal name d]> (heap s)) s).
Proof.
  intros Hl Hd. unfold SetName. destruct s as [h l m r a dl rq sv]. munfold.
  subst l. mrun. done.
Qed.

Lemma set_NameInternal_same d : set_NameInternal (NameInternal d) d = d.
Proof. by destruct d. Qed.

Lemma Delete_present key i d p pd s :
  held s = [] → valid s →
  key ≠ "/" → ToLower key ≠ "/" →
  resolve s key = Some i → heap s !! i = Some d →
  metadata s !! IDInternal d = Some i →
  metadata s !! Parent_ID d = Some p → heap s !! p = Some pd →
  Delete key s =
    Ok tt (set_heap (<[p := delete_child (IDInternal d) d pd]> (heap s))
             (set_metadata (delete (IDInternal d) (metadata s)) s)).
Proof.
  intros Hl Hv Hk1 Hk2 Hr Hd Hreg Hp Hpd. unfold Delete. unfold bind at 1.
  rewrite (resolve_Get (ToLower key) None s i Hv) by by rewrite resolve_ToLower.
  simpl. unfold bind at 1. unfold ID, read, bind at 1, load, ret. rewrite Hd.
  by eapply DeleteID_present.
Qed.

Lemma Move_unlinks a b au s i di D dD :
  held s = [] → valid s →
  a ≠ "/" → ToLower a ≠ "/" →
  resolve s a = Some i → heap s !! i = Some di →
  metadata s !! IDInternal di = Some i →
  metadata s !! Parent_ID di = Some D → heap s !! D = Some dD →
  D ≠ i →
  NameInternal di = Base a →
  Move a b au s =
    (e ← Insert b au (Some i);
     match e with
     | Some err => SetName (Some i) (Base a);; Insert a au (Some i);; ret (Some err)
     | None => ret None
     end) (unlinked s i D di dD (Base b)).
Proof.
  intros Hl Hv Ha1 Ha2 Hr Hdi Hreg HD HdD Hne Hname. unfold Move. unfold bind at 1.
  rewrite (resolve_Get a au s i Hv Hr). simpl. unfold bind at 1.
  rewrite (Delete_present a i di D dD s) by done.
  unfold bind at 1. unfold unlinked. case_bool_decide as Hb.
  - rewrite (SetName_effect i di); [done|done|].
    simpl. by rewrite list_lookup_insert_ne.
  - unfold skip, ret. rewrite <- Hb, <- Hname.
    rewrite set_NameInternal_same.
    rewrite (list_insert_id _ i di); [done|].
    simpl. by rewrite list_lookup_insert_ne.
Qed.

Lemma Insert_linked b au s i di D dD :
  held s = [] → valid s →
  resolve s (Dir (ToLower b)) = Some D →
  heap s !! i = Some di → heap s !! D = Some dD →
  metadata s !! IDInternal dD = Some D →
  IDInternal dD ≠ EmptyString → IDInternal dD ≠ IDInternal di →
  D ≠ i →
  IDInternal di ∉ slice (children dD) →
  Insert b au (Some i) s = Ok None (linked s i D di dD).
Proof.
  intros Hl Hv Hr Hdi HdD Hreg Hne Hnid HDi Hnin. unfold Insert. unfold bind at 1.
  rewrite (resolve_Get _ au s D Hv Hr). simpl.
  unfold bind at 1. unfold ID at 1, read, bind at 1, load, ret. rewrite HdD.
  unfold bind at 1. unfold Lock. rewrite Hl. rewrite bool_decide_eq_false_2 by apply not_elem_of_nil.
  unfold bind at 1. unfold update at 1. unfold bind at 1. unfold load. simpl. rewrite Hdi.
  unfold modify. simpl.
  unfold bind at 1. unfold Unlock. simpl. rewrite bool_decide_eq_true_2 by done.
  unfold bind at 1. unfold ID, read, bind at 1, load, ret. simpl.
  rewrite list_lookup_insert_eq by by eapply lookup_lt_Some.
  autorewrite with item.
  unfold bind at 1.
  rewrite (InsertID_append (IDInternal di) i (set_Parent_ID (IDInternal dD) di) D dD).
  - unfold linked, append_child. simpl. autorewrite with item.
    rewrite (list_insert_insert_ne _ D i) by done.
    rewrite list_insert_insert_eq.
    destruct s, di; simpl in *. by subst.
  - done.
  - simpl. by rewrite list_lookup_insert_eq by by eapply lookup_lt_Some.
  - by autorewrite with item.
  - autorewrite with item. simpl. by rewrite lookup_insert_ne.
  - simpl. by rewrite list_lookup_insert_ne.
  - by apply index_of_None.
  - done.
Qed.

(** *** The heaps of [unlinked] and [linked], item by item *)

Lemma insert2_lookup {A} (h : list A) i j (x y a b : A) z :
  h !! i = Some a → h !! j = Some b → i ≠ j →
  <[i:=x]> (<[j:=y]> h) !! z =
    if decide (z = i) then Some x else if decide (z = j) then Some y else h !! z.
Proof.
  intros Hi Hj Hne. destruct (decide (z = i)) as [->|Hzi].
  - rewrite list_lookup_insert_eq; [done|].
    rewrite length_insert. by eapply lookup_lt_Some.
  - rewrite list_lookup_insert_ne by done. destruct (decide (z = j)) as [->|Hzj].
    + rewrite list_lookup_insert_eq; [done|]. by eapply lookup_lt_Some.
    + by rewrite list_lookup_insert_ne.
Qed.

Lemma unlinked_lookup s i D di dD name x :
  heap s !! i = Some di → heap s !! D = Some dD → D ≠ i →
  heap (unlinked s i D di dD name) !! x =
    if decide (x = i) then Some (set_NameInternal name di)
    else if decide (x = D) then Some (delete_child (IDInternal di) di dD)
    else heap s !! x.
Proof. intros Hi HD Hne. unfold unlinked. simpl. by eapply insert2_lookup. Qed.

Lemma linked_lookup s i D di dD x :
  heap s !! i = Some di → heap s !! D = Some dD → D ≠ i →
  heap (linked s i D di dD) !! x =
    if decide (x = i) then Some (set_Parent_ID (IDInternal dD) di)
    else if decide (x = D) then Some (append_child (IDInternal di) (is_dir di) dD)
    else heap s !! x.
Proof. intros Hi HD Hne. unfold linked. simpl. by eapply insert2_lookup. Qed.

Lemma delete_append id di dir d :
  children d ≠ None → id ∉ slice (children d) → is_dir di = dir →
  delete_child id di (append_child id dir d) = d.
Proof.
  intros Hch Hnin <-. unfold delete_child, append_child. autorewrite with item. simpl.
  rewrite index_of_app_fresh by done. rewrite remove_first_app_fresh by done.
  destruct d as [a b c e f [ch|] n]; [|done].
  unfold set_subdir, set_children. simpl. f_equal. lia.
Qed.

Lemma IDInternal_append_child id dir d : IDInternal (append_child id dir d) = IDInternal d.
Proof. by destruct d. Qed.

Lemma NameInternal_append_child id dir d :
  NameInternal (append_child id dir d) = NameInternal d.
Proof. by destruct d. Qed.

Lemma is_dir_append_child id dir d : is_dir (append_child id dir d) = is_dir d.
Proof. by destruct d. Qed.

Lemma Parent_ID_append_child id dir d : Parent_ID (append_child id dir d) = Parent_ID d.
Proof. by destruct d. Qed.

Lemma children_append_child id dir d :
  children (append_child id dir d) = Some (slice (children d) ++ [id]).
Proof. by destruct d. Qed.

Lemma Deleted_delete_child id d pd : Deleted (delete_child id d pd) = Deleted pd.
Proof. unfold delete_child. by destruct (index_of _ _), pd. Qed.

(** *** Steps and walks that a change of the state keeps *)

Lemma step_preserved s t k seg c q :
  metadata s !! k = Some q →
  step s k seg = Some c →
  metadata t !! k = Some q →
  (∀ dq, heap s !! q = Some dq → is_dir dq = true → children dq ≠ None →
     ∃ dq', heap t !! q = Some dq' ∧ is_dir dq' = is_dir dq ∧
            children dq' = children dq) →
  (∀ dq cid, heap s !! q = Some dq → cid ∈ slice (children dq) →
     metadata t !! cid = metadata s !! cid) →
  (∀ x, NameInternal <$> heap t !! x = NameInternal <$> heap s !! x) →
  step t k seg = Some c.
Proof.
  intros Hq Hst Hq' Hdq Hcid Hnames. unfold step in *. rewrite Hq in Hst. rewrite Hq'.
  destruct (heap s !! q) as [dq|] eqn:Hh; [|done].
  destruct (is_dir dq) eqn:Hdir; [|done].
  destruct (children dq) as [ids|] eqn:Hch; [|done].
  destruct (Hdq dq eq_refl Hdir) as (dq' & -> & -> & ->); [by rewrite Hch|].
  rewrite Hdir, Hch. rewrite <- Hst. f_equal. apply child_map_agree.
  intros cid Hin. split; [apply (Hcid dq); [done|by rewrite Hch]|]. intros; apply Hnames.
Qed.

Lemma resolve_stable rank s t p x :
  keyed s → ranked rank s →
  root t = root s →
  (p = "/" → metadata s !! root s = Some x → metadata t !! root s = Some x) →
  (∀ k q seg c, metadata s !! k = Some q → (rank q < rank x)%nat →
     step s k seg = Some c → step t k seg = Some c) →
  (∀ c d, heap s !! c = Some d →
     ∃ d', heap t !! c = Some d' ∧ IDInternal d' = IDInternal d) →
  resolve s p = Some x → resolve t p = Some x.
Proof.
  intros Hk Hr Hroot Hrq Hstep Hids. unfold resolve. rewrite Hroot. case_bool_decide.
  - by apply Hrq.
  - by apply (walk_stable rank).
Qed.

(** A path resolves through its directory. *)
Lemma resolve_child s p P dP x :
  splits p →
  resolve s (Dir (ToLower p)) = Some P →
  heap s !! P = Some dP →
  (Dir (ToLower p) = "/" → IDInternal dP = root s) →
  step s (IDInternal dP) (ToLower (Base p)) = Some x →
  is_Some (heap s !! x) →
  resolve s p = Some x.
Proof.
  intros (Hp1 & Hp2 & Hseg & Hne) Hr HdP Hroot Hst [dx Hdx].
  rewrite resolve_dir in Hr. unfold resolve.
  rewrite bool_decide_eq_false_2 by done. rewrite Hseg, walk_app.
  case_bool_decide as Hd.
  - unfold dir_segments. rewrite bool_decide_eq_true_2 by done. simpl.
    rewrite <- (Hroot Hd), Hst. by rewrite Hdx.
  - specialize (Hne Hd). destruct (dir_segments p) as [|seg segs] eqn:Hds; [done|].
    rewrite Hr, HdP. simpl. rewrite Hst. by rewrite Hdx.
Qed.

Lemma resolve_parent_step s p x :
  splits p → valid s → keyed s →
  resolve s p = Some x →
  ∃ P dP, resolve s (Dir (ToLower p)) = Some P ∧ heap s !! P = Some dP ∧
          metadata s !! IDInternal dP = Some P ∧
          step s (IDInternal dP) (ToLower (Base p)) = Some x.
Proof.
  intros (Hp1 & Hp2 & Hseg & Hne) Hv Hk Hr.
  unfold resolve in Hr. rewrite bool_decide_eq_false_2 in Hr by done.
  rewrite Hseg, walk_app in Hr. rewrite resolve_dir.
  case_bool_decide as Hd.
  - unfold dir_segments in Hr. rewrite bool_decide_eq_true_2 in Hr by done.
    simpl in Hr. destruct (step s (root s) (ToLower (Base p))) as [c|] eqn:Hst; [|done].
    destruct (heap s !! c); [|done]. injection Hr as ->.
    destruct (step_Some _ _ _ _ Hst) as (q & dq & _ & _ & _ & Hq & Hdq & _).
    exists q, dq. rewrite (keyed_lookup _ _ _ _ Hk Hq Hdq). done.
  - specialize (Hne Hd). destruct (dir_segments p) as [|seg segs] eqn:Hds; [done|].
    destruct (walk s (root s) (seg :: segs) None) as [P|] eqn:Hw; [|done].
    destruct (heap s !! P) as [dP|] eqn:HdP; [|done].
    simpl in Hr.
    destruct (step s (IDInternal dP) (ToLower (Base p))) as [c|] eqn:Hst; [|done].
    destruct (heap s !! c); [|done]. injection Hr as ->.
    exists P, dP. split_and!; [done..| |done].
    destruct (walk_found s Hk _ _ _ _ Hw) as [[? _]|(_ & _ & _ & dx & _ & _ & _ & Hdx & _ & Hreg)];
      [done|]. congruence.
Qed.

(** *** Linking an item that no directory lists *)

Lemma linked_metadata s i D di dD :
  metadata (linked s i D di dD) = <[IDInternal di := i]> (metadata s).
Proof. done. Qed.

Lemma unlinked_metadata s i D di dD name :
  metadata (unlinked s i D di dD name) = delete (IDInternal di) (metadata s).
Proof. done. Qed.

Section Link.

Variable rank : loc → nat.
Variables (t : state) (i D' : loc) (di dD' : DriveItem) (key : string).

Local Abbreviation t_l := (linked t i D' di dD').

Hypothesis Hvalid_t : valid t.
Hypothesis Hkeyed_t : keyed t.
Hypothesis Hranked_t : ranked rank t.
Hypothesis Hitem_t : heap t !! i = Some di.
Hypothesis Hfresh : metadata t !! IDInternal di = None.
Hypothesis Hunl : ∀ k q dq,
  metadata t !! k = Some q → heap t !! q = Some dq → IDInternal di ∉ slice (children dq).
Hypothesis Hsplit : splits key.
Hypothesis Hres' : resolve t (Dir (ToLower key)) = Some D'.
Hypothesis HdD' : heap t !! D' = Some dD'.
Hypothesis Hreg' : metadata t !! IDInternal dD' = Some D'.
Hypothesis HDi' : D' ≠ i.
Hypothesis Hdir' : is_dir dD' = true.
Hypothesis Hnm : ToLower (NameInternal di) = ToLower (Base key).

Lemma link_lookup x :
  heap t_l !! x =
    if decide (x = i) then Some (set_Parent_ID (IDInternal dD') di)
    else if decide (x = D') then Some (append_child (IDInternal di) (is_dir di) dD')
    else heap t !! x.
Proof. by rewrite (linked_lookup t i D' di dD' x Hitem_t HdD' HDi'). Qed.

Lemma link_registry k q :
  metadata t !! k = Some q → metadata t_l !! k = Some q.
Proof.
  intros Hk. rewrite linked_metadata. rewrite lookup_insert_ne; [done|].
  intros <-. congruence.
Qed.

Lemma link_registered : metadata t_l !! IDInternal di = Some i.
Proof. rewrite linked_metadata. apply lookup_insert_eq. Qed.

Lemma link_valid : valid t_l.
Proof.
  intros k q Hk. rewrite linked_metadata in Hk. rewrite link_lookup.
  repeat case_decide; [done..|].
  apply lookup_insert_Some in Hk as [[_ <-]|[_ Hk]]; [done|]. by apply (Hvalid_t k).
Qed.

Lemma link_names x : NameInternal <$> heap t_l !! x = NameInternal <$> heap t !! x.
Proof.
  rewrite link_lookup. repeat case_decide; subst; [| |done].
  - by rewrite Hitem_t.
  - rewrite HdD'. by destruct dD'.
Qed.

Lemma link_ids c d :
  heap t !! c = Some d → ∃ d', heap t_l !! c = Some d' ∧ IDInternal d' = IDInternal d.
Proof.
  intros Hc. rewrite link_lookup. repeat case_decide; subst; [| |by eauto].
  - rewrite Hitem_t in Hc. injection Hc as <-. by eexists.
  - rewrite HdD' in Hc. injection Hc as <-. eexists. split; [done|].
    by rewrite IDInternal_append_child.
Qed.

Lemma link_resolves_dir : resolve t_l (Dir (ToLower key)) = Some D'.
Proof.
  apply (resolve_stable rank t t_l _ D' Hkeyed_t Hranked_t).
  - done.
  - intros _ Hroot. change (root t_l) with (root t). by apply link_registry.
  - intros k q seg c Hk Hlt Hst.
    eapply (step_preserved t t_l k seg c q Hk Hst).
    + by apply link_registry.
    + intros dq Hdq _ _. rewrite link_lookup.
      destruct (decide (q = i)) as [->|Hqi].
      { rewrite Hitem_t in Hdq. injection Hdq as <-. by eexists. }
      destruct (decide (q = D')) as [->|HqD]; [lia|]. by eexists.
    + intros dq cid Hdq Hcid. rewrite linked_metadata.
      rewrite lookup_insert_ne; [done|].
      intros <-. by apply (Hunl k q dq).
    + apply link_names.
  - apply link_ids.
  - done.
Qed.

Lemma link_item : heap t_l !! i = Some (set_Parent_ID (IDInternal dD') di).
Proof. rewrite link_lookup. by rewrite decide_True. Qed.

Lemma link_destination :
  heap t_l !! D' = Some (append_child (IDInternal di) (is_dir di) dD').
Proof. rewrite link_lookup. rewrite decide_False by done. by rewrite decide_True. Qed.

Lemma link_step : step t_l (IDInternal dD') (ToLower (Base key)) = Some i.
Proof.
  unfold step. rewrite (link_registry _ _ Hreg'), link_destination.
  rewrite is_dir_append_child, Hdir', children_append_child.
  rewrite child_map_app. cbn [child_map].
  rewrite link_registered, link_item. autorewrite with item. rewrite Hnm.
  apply lookup_insert_eq.
Qed.

Lemma link_resolves : resolve t_l key = Some i.
Proof.
  apply (resolve_child t_l key D' (append_child (IDInternal di) (is_dir di) dD') i
           Hsplit link_resolves_dir link_destination).
  - intros Hd. rewrite IDInternal_append_child.
    rewrite resolve_dir, bool_decide_eq_true_2 in Hres' by done.
    by apply (keyed_lookup t _ D' dD' Hkeyed_t).
  - rewrite IDInternal_append_child. apply link_step.
  - rewrite link_item. by eexists.
Qed.

End Link.

(** *** A move and the move back *)

Lemma bind_ret_Ok {A B C} (m1 : M A) (m2 : M B) (x y : C) s0 s1 :
  (m1;; m2;; ret x) s0 = Ok y s1 → x = y.
Proof.
  unfold bind, ret. destruct (m1 s0) as [? s2| |]; [|done..].
  destruct (m2 s2); congruence.
Qed.

Section RoundTrip.

Variable rank : loc → nat.
Variables (s : state) (i D : loc) (di dD : DriveItem).
Hypothesis Hheld : held s = [].
Hypothesis Hvalid : valid s.
Hypothesis Hkeyed : keyed s.
Hypothesis Hranked : ranked rank s.
Hypothesis Hcached : cached s.
Hypothesis Hnamed : metadata s !! EmptyString = None.
Hypothesis Hdi : heap s !! i = Some di.
Hypothesis Hreg : metadata s !! IDInternal di = Some i.
Hypothesis HD : metadata s !! Parent_ID di = Some D.
Hypothesis HdD : heap s !! D = Some dD.
Hypothesis Hin : IDInternal di ∈ slice (children dD).
Hypothesis Hlist : listed_by_at_most s (IDInternal di) D.

Lemma parent_above : (rank D < rank i)%nat.
Proof. by eapply (ranked_lookup rank s (Parent_ID di) D dD (IDInternal di) i). Qed.

Lemma parent_differs : D ≠ i.
Proof. pose proof parent_above. intros ->. lia. Qed.

Lemma parent_id : IDInternal dD = Parent_ID di.
Proof. by eapply keyed_lookup. Qed.

Lemma registered_once k : metadata s !! k = Some i → k = IDInternal di.
Proof. intros Hk. symmetry. by eapply keyed_lookup. Qed.

Lemma item_unlisted k q dq :
  metadata s !! k = Some q → heap s !! q = Some dq → q ≠ D →
  IDInternal di ∉ slice (children dq).
Proof. intros. by eapply listed_by_at_most_other. Qed.

Lemma parent_lists_once : IDInternal di ∉ remove_first (IDInternal di) (slice (children dD)).
Proof. by eapply listed_by_at_most_parent. Qed.

Lemma children_delete_child :
  children (delete_child (IDInternal di) di dD) =
    Some (remove_first (IDInternal di) (slice (children dD))).
Proof.
  unfold delete_child. destruct (index_of_is_Some _ _ Hin) as [k ->].
  by autorewrite with item.
Qed.

Lemma unlinked_held name : held (unlinked s i D di dD name) = [].
Proof. done. Qed.

Lemma unlinked_registry name k q :
  metadata (unlinked s i D di dD name) !! k = Some q ↔
  k ≠ IDInternal di ∧ metadata s !! k = Some q.
Proof. unfold unlinked. simpl. rewrite lookup_delete_Some. split; intros [? ?]; auto. Qed.

Lemma unlinked_valid name : valid (unlinked s i D di dD name).
Proof.
  intros k q [Hne Hk]%unlinked_registry.
  rewrite (unlinked_lookup s i D di dD name q Hdi HdD parent_differs).
  repeat case_decide; [done..|]. by apply (Hvalid k).
Qed.

Lemma unlinked_keyed name : keyed (unlinked s i D di dD name).
Proof.
  intros k q [Hne Hk]%unlinked_registry. unfold carries.
  rewrite (unlinked_lookup s i D di dD name q Hdi HdD parent_differs).
  repeat case_decide; subst.
  - autorewrite with item. by eapply keyed_lookup.
  - rewrite IDInternal_delete_child. by eapply keyed_lookup.
  - apply (Hkeyed k q Hk).
Qed.

Lemma unlinked_ranked name : ranked rank (unlinked s i D di dD name).
Proof.
  intros k q [Hne Hk]%unlinked_registry. unfold ranks_children.
  pose proof (Hranked k q Hk) as Hq. unfold ranks_children in Hq.
  rewrite (unlinked_lookup s i D di dD name q Hdi HdD parent_differs).
  assert (Hsub : ∀ l l', l' ⊆ l →
    Forall (λ cid, match metadata s !! cid with
                   | Some c => (rank q < rank c)%nat | None => True end) l →
    Forall (λ cid, match metadata (unlinked s i D di dD name) !! cid with
                   | Some c => (rank q < rank c)%nat | None => True end) l').
  { intros l l' Hl. rewrite !Forall_forall. intros H cid Hcid.
    destruct (metadata (unlinked s i D di dD name) !! cid) as [c|] eqn:Hc; [|done].
    apply unlinked_registry in Hc as [_ Hc]. specialize (H cid (Hl _ Hcid)).
    by rewrite Hc in H. }
  repeat case_decide; subst.
  - rewrite Hdi in Hq. autorewrite with item. by eapply Hsub.
  - rewrite HdD in Hq. rewrite slice_delete_child. eapply Hsub; [|done].
    intros x. apply remove_first_subseteq.
  - destruct (heap s !! q); [|done]. by eapply Hsub.
Qed.

Lemma unlinked_cached name : cached (unlinked s i D di dD name).
Proof.
  intros k q [Hne Hk]%unlinked_registry. unfold loaded.
  pose proof (Hcached k q Hk) as Hq. unfold loaded in Hq.
  rewrite (unlinked_lookup s i D di dD name q Hdi HdD parent_differs).
  repeat case_decide; subst.
  - rewrite Hdi in Hq. by autorewrite with item.
  - by rewrite children_delete_child.
  - done.
Qed.

Lemma unlinked_unlisted name k q dq :
  metadata (unlinked s i D di dD name) !! k = Some q →
  heap (unlinked s i D di dD name) !! q = Some dq →
  IDInternal di ∉ slice (children dq).
Proof.
  intros [Hne Hk]%unlinked_registry.
  rewrite (unlinked_lookup s i D di dD name q Hdi HdD parent_differs).
  repeat case_decide; subst.
  - intros [= <-]. autorewrite with item.
    eapply item_unlisted; [done..|]. pose proof parent_differs. congruence.
  - intros [= <-]. rewrite slice_delete_child. apply parent_lists_once.
  - intros Hdq. by eapply item_unlisted.
Qed.

Lemma unlinked_item name :
  heap (unlinked s i D di dD name) !! i = Some (set_NameInternal name di).
Proof.
  rewrite (unlinked_lookup s i D di dD name i Hdi HdD parent_differs).
  by rewrite decide_True.
Qed.

(** Where a successful [Move] has put the item. *)
Lemma Move_succeeds_inv a b au s1 :
  a ≠ "/" → ToLower a ≠ "/" →
  resolve s a = Some i →
  NameInternal di = Base a →
  Move a b au s = Ok None s1 →
  ∃ D' dD',
    resolve (unlinked s i D di dD (Base b)) (Dir (ToLower b)) = Some D' ∧
    heap (unlinked s i D di dD (Base b)) !! D' = Some dD' ∧
    metadata (unlinked s i D di dD (Base b)) !! IDInternal dD' = Some D' ∧
    D' ≠ i ∧ IDInternal dD' ≠ EmptyString ∧ IDInternal dD' ≠ IDInternal di ∧
    (IDInternal di ∉ slice (children dD')) ∧
    s1 = linked (unlinked s i D di dD (Base b)) i D' (set_NameInternal (Base b) di) dD'.
Proof.
  intros Ha1 Ha2 Hr Hname.
  rewrite (Move_unlinks a b au s i di D dD); [|done..|apply parent_differs|done].
  set (s' := unlinked s i D di dD (Base b)).
  assert (Hv' : valid s') by apply unlinked_valid.
  assert (Hk' : keyed s') by apply unlinked_keyed.
  unfold bind at 1. unfold Insert at 1. unfold bind at 1.
  destruct (Get_cached (Dir (ToLower b)) au s' Hv' (unlinked_cached _))
    as (o & e & -> & Hoe & _).
  simpl. destruct e as [err|].
  { unfold ret at 1. cbn beta iota. by intros H%bind_ret_Ok. }
  specialize (Hoe eq_refl). subst o.
  destruct (resolve s' (Dir (ToLower b))) as [D'|] eqn:Hres.
  2:{ unfold ret at 1. cbn beta iota. by intros H%bind_ret_Ok. }
  destruct (resolve_registered s' _ D' Hv' Hk' Hres) as (dD' & HdD' & Hreg').
  assert (Hne0 : IDInternal dD' ≠ EmptyString).
  { intros He. rewrite He in Hreg'. apply unlinked_registry in Hreg' as [_ Hreg'].
    by rewrite Hnamed in Hreg'. }
  assert (Hneid : IDInternal dD' ≠ IDInternal di).
  { intros He. rewrite He in Hreg'. by apply unlinked_registry in Hreg' as [? _]. }
  assert (HDi : D' ≠ i).
  { intros ->. unfold s' in HdD'. rewrite unlinked_item in HdD'.
    injection HdD' as <-. by autorewrite with item in Hneid. }
  assert (Hnin : IDInternal di ∉ slice (children dD')) by by eapply unlinked_unlisted.
  pose proof (Insert_linked b au s' i (set_NameInternal (Base b) di) D' dD'
    (unlinked_held _) Hv' Hres (unlinked_item _) HdD' Hreg' Hne0) as Hins.
  autorewrite with item in Hins. specialize (Hins Hneid HDi Hnin).
  unfold Insert at 1 in Hins. unfold bind at 1 in Hins.
  rewrite (resolve_Get _ au s' D' Hv' Hres) in Hins. simpl in Hins.
  rewrite Hins. simpl. intros [= <-]. exists D', dD'. done.
Qed.

(** The state once the item, unlinked, is about to be linked to its old
    parent again: it is the item [dx], which is the item [di] but for its
    parent id. *)
Section Relink.

Variables (a n : string) (dx : DriveItem).

Local Abbreviation s_u := (unlinked s i D di dD n).
Local Abbreviation s_w := (set_heap (<[i := dx]> (heap s_u)) s_u).
Local Abbreviation dD_v := (delete_child (IDInternal di) di dD).

Hypothesis Hsplit_a : splits a.
Hypothesis Hres : resolve s a = Some i.
Hypothesis Hx_id : IDInternal dx = IDInternal di.
Hypothesis Hx_name : NameInternal dx = NameInternal di.
Hypothesis Hx_dir : is_dir dx = is_dir di.
Hypothesis Hx_del : Deleted dx = Deleted di.
Hypothesis Hx_ch : children dx = children di.
Hypothesis Hx_sub : subdir dx = subdir di.

Lemma relink_lookup x :
  heap s_w !! x = if decide (x = i) then Some dx else heap s_u !! x.
Proof.
  simpl heap at 1. destruct (decide (x = i)) as [->|Hxi].
  - rewrite list_lookup_insert_eq; [done|].
    eapply lookup_lt_Some, unlinked_item.
  - by rewrite list_lookup_insert_ne.
Qed.

Lemma relink_valid : valid s_w.
Proof.
  intros k q Hk. rewrite relink_lookup.
  case_decide; [done|]. by apply (unlinked_valid n k).
Qed.

Lemma relink_parent : heap s_w !! D = Some dD_v.
Proof.
  rewrite relink_lookup. rewrite decide_False by apply parent_differs.
  rewrite (unlinked_lookup s i D di dD n D Hdi HdD parent_differs).
  rewrite decide_False by apply parent_differs. by rewrite decide_True.
Qed.

Lemma relink_item : heap s_w !! i = Some dx.
Proof. rewrite relink_lookup. by rewrite decide_True. Qed.

Lemma relink_names x : NameInternal <$> heap s_w !! x = NameInternal <$> heap s !! x.
Proof.
  rewrite relink_lookup. destruct (decide (x = i)) as [->|Hxi].
  - rewrite Hdi. simpl. by rewrite Hx_name.
  - rewrite (unlinked_lookup s i D di dD n x Hdi HdD parent_differs).
    rewrite decide_False by done. case_decide; [|done]. subst.
    rewrite HdD. cbn [fmap option_fmap option_map]. by rewrite NameInternal_delete_child.
Qed.

Lemma relink_ids c d :
  heap s !! c = Some d → ∃ d', heap s_w !! c = Some d' ∧ IDInternal d' = IDInternal d.
Proof.
  intros Hc. rewrite relink_lookup. destruct (decide (c = i)) as [->|Hci].
  - eexists. split; [done|]. congruence.
  - rewrite (unlinked_lookup s i D di dD n c Hdi HdD parent_differs).
    rewrite decide_False by done. case_decide; [|by eauto]. subst.
    eexists. split; [done|]. rewrite IDInternal_delete_child. congruence.
Qed.

(** The path of the item resolved through its parent. *)
Lemma resolved_through_parent : resolve s (Dir (ToLower a)) = Some D.
Proof.
  destruct (resolve_parent_step s a i Hsplit_a Hvalid Hkeyed Hres)
    as (P & dP & HP & HdP & HregP & Hst).
  destruct (step_Some _ _ _ _ Hst)
    as (q & dq & ids & cid & dc & Hq & Hdq & _ & Hch & _ & Hcid & Hc & _).
  assert (q = P) as -> by congruence.
  apply registered_once in Hc. subst cid.
  destruct (decide (P = D)) as [->|HPD]; [done|].
  destruct (item_unlisted _ _ _ Hq Hdq HPD). by rewrite Hch.
Qed.

Lemma relink_resolves_dir : resolve s_w (Dir (ToLower a)) = Some D.
Proof.
  pose proof parent_above as Hlt. pose proof parent_differs as HDi.
  apply (resolve_stable rank s s_w _ D Hkeyed Hranked).
  - done.
  - intros _ Hroot. apply unlinked_registry. split; [|done].
    intros He. rewrite He in Hroot. congruence.
  - intros k q seg c Hk Hq Hst.
    assert (Hqi : q ≠ i) by (intros ->; lia).
    assert (HqD : q ≠ D) by (intros ->; lia).
    eapply (step_preserved s s_w k seg c q Hk Hst).
    + apply unlinked_registry. split; [|done]. intros ->. congruence.
    + intros dq Hdq _ _. rewrite relink_lookup. rewrite decide_False by done.
      rewrite (unlinked_lookup s i D di dD n q Hdi HdD parent_differs).
      rewrite !decide_False by done. by eexists.
    + intros dq cid Hdq Hcid.
      unfold unlinked. simpl. rewrite lookup_delete_ne; [done|].
      intros <-. by apply (item_unlisted k q dq).
    + apply relink_names.
  - apply relink_ids.
  - apply resolved_through_parent.
Qed.

Lemma relink_runs au :
  Insert a au (Some i) s_w = Ok None (linked s_w i D dx dD_v).
Proof.
  pose proof parent_differs as HDi.
  apply Insert_linked.
  - done.
  - apply relink_valid.
  - apply relink_resolves_dir.
  - apply relink_item.
  - apply relink_parent.
  - rewrite IDInternal_delete_child, parent_id.
    apply unlinked_registry. split; [|done]. intros He. rewrite He in HD. congruence.
  - rewrite IDInternal_delete_child, parent_id. intros He. rewrite He in HD. congruence.
  - rewrite IDInternal_delete_child, parent_id, Hx_id.
    intros He. rewrite He in HD. congruence.
  - done.
  - rewrite slice_delete_child, Hx_id. apply parent_lists_once.
Qed.

Lemma relink_same_tree : same_tree s (linked s_w i D dx dD_v).
Proof.
  pose proof parent_differs as HDi.
  unfold same_tree. split_and!.
  - rewrite linked_metadata. change (metadata s_w) with (metadata s_u).
    rewrite unlinked_metadata, Hx_id. by apply insert_delete_id.
  - done.
  - done.
  - simpl. by rewrite !length_insert.
  - intros x d Hx.
    rewrite (linked_lookup s_w i D dx dD_v x relink_item relink_parent HDi).
    destruct (decide (x = i)) as [->|Hxi].
    { eexists. split; [done|]. autorewrite with item.
      rewrite IDInternal_delete_child, parent_id.
      assert (d = di) as -> by congruence. rewrite Hx_ch. by split_and!. }
    destruct (decide (x = D)) as [->|HxD].
    { eexists. split; [done|]. assert (d = dD) as -> by congruence.
      rewrite IDInternal_append_child, NameInternal_append_child, Parent_ID_append_child,
        is_dir_append_child, children_append_child.
      rewrite IDInternal_delete_child, NameInternal_delete_child, Parent_ID_delete_child,
        is_dir_delete_child, slice_delete_child.
      split_and!; try done.
      - unfold append_child. autorewrite with item. by rewrite Deleted_delete_child.
      - unfold append_child. autorewrite with item. rewrite subdir_delete_child.
        rewrite bool_decide_eq_true_2 by done. rewrite Hx_dir. lia.
      - split; [done|]. intros Hn. rewrite Hn in Hin. simpl in Hin.
        by apply not_elem_of_nil in Hin.
      - simpl. rewrite Hx_id. rewrite (remove_first_perm _ _ Hin) at 2.
        by rewrite Permutation_app_comm. }
    rewrite relink_lookup. rewrite decide_False by done.
    rewrite (unlinked_lookup s i D di dD n x Hdi HdD parent_differs).
    rewrite !decide_False by done. exists d. by split_and!.
Qed.

End Relink.

(** The move to [b] and the move back to [a]. *)
Section Back.

Variables (a b : string) (D' : loc) (dD' : DriveItem).

Local Abbreviation s_u := (unlinked s i D di dD (Base b)).
Local Abbreviation di_u := (set_NameInternal (Base b) di).
Local Abbreviation s_m := (linked s_u i D' di_u dD').
Local Abbreviation di_m := (set_Parent_ID (IDInternal dD') di_u).
Local Abbreviation dD_m := (append_child (IDInternal di) (is_dir di) dD').
Local Abbreviation s_v := (unlinked s_m i D' di_m dD_m (Base a)).
Local Abbreviation di_v := (set_NameInternal (Base a) di_m).
Local Abbreviation dD_v := (delete_child (IDInternal di) di dD).
Local Abbreviation s_w := (set_heap (<[i := di_v]> (heap s_u)) s_u).

Hypothesis Hsplit_a : splits a.
Hypothesis Hsplit_b : splits b.
Hypothesis Hres : resolve s a = Some i.
Hypothesis Hname : NameInternal di = Base a.
Hypothesis Hres' : resolve s_u (Dir (ToLower b)) = Some D'.
Hypothesis HdD' : heap s_u !! D' = Some dD'.
Hypothesis Hreg' : metadata s_u !! IDInternal dD' = Some D'.
Hypothesis HDi' : D' ≠ i.
Hypothesis Hneid : IDInternal dD' ≠ IDInternal di.
Hypothesis Hnin' : IDInternal di ∉ slice (children dD').
Hypothesis Hdir' : is_dir dD' = true.

Lemma moved_registry : metadata s_m = metadata s.
Proof. simpl. by apply insert_delete_id. Qed.

Lemma moved_lookup x :
  heap s_m !! x =
    if decide (x = i) then Some di_m
    else if decide (x = D') then Some dD_m
    else heap s_u !! x.
Proof. by rewrite (linked_lookup s_u i D' di_u dD' x (unlinked_item _) HdD' HDi'). Qed.

Lemma destination_loaded : children dD' ≠ None.
Proof.
  pose proof (unlinked_cached (Base b) _ _ Hreg') as H. unfold loaded in H.
  rewrite HdD' in H. by apply H.
Qed.

Lemma destination_registered : metadata s !! IDInternal dD' = Some D'.
Proof. by apply unlinked_registry in Hreg' as [_ ?]. Qed.

Lemma moved_item : heap s_m !! i = Some di_m.
Proof. rewrite moved_lookup. by rewrite decide_True. Qed.

Lemma moved_destination : heap s_m !! D' = Some dD_m.
Proof. rewrite moved_lookup. rewrite decide_False by done. by rewrite decide_True. Qed.

Lemma moved_valid : valid s_m.
Proof.
  apply (link_valid s_u i D' di_u dD');
    first [done | apply unlinked_valid | apply unlinked_item].
Qed.

Lemma moved_resolves : resolve s_m b = Some i.
Proof.
  apply (link_resolves rank s_u i D' di_u dD' b);
    first [done | apply unlinked_keyed | apply unlinked_ranked | apply unlinked_item
          | apply lookup_delete_eq | apply unlinked_unlisted].
Qed.

(** After the move back has unlinked the item again, the state is as after
    the first unlinking, but for the name and the parent id of the item. *)
Lemma back_lookup x :
  heap s_v !! x = if decide (x = i) then Some di_v else heap s_u !! x.
Proof.
  rewrite (unlinked_lookup s_m i D' di_m dD_m (Base a) x moved_item moved_destination HDi').
  destruct (decide (x = i)) as [->|Hxi]; [done|].
  destruct (decide (x = D')) as [->|HxD].
  - autorewrite with item. rewrite HdD'. f_equal.
    apply delete_append; [apply destination_loaded|done|done].
  - rewrite moved_lookup. by rewrite !decide_False.
Qed.

Lemma back_registry : metadata s_v = metadata s_u.
Proof.
  unfold unlinked at 1. simpl. autorewrite with item.
  rewrite delete_insert_eq. by rewrite delete_delete_eq.
Qed.

Lemma back_state : s_v = s_w.
Proof.
  assert (Hh : heap s_v = heap s_w).
  { apply list_eq. intros x. rewrite back_lookup.
    by rewrite (relink_lookup (Base b) di_v x). }
  pose proof back_registry as Hm.
  unfold unlinked at 1 in Hh. unfold unlinked at 1 in Hm. unfold unlinked at 1.
  simpl in Hh, Hm. unfold set_heap, set_metadata in *. simpl in *.
  by rewrite Hh, Hm.
Qed.

Lemma round_trip_runs au :
  Move b a au s_m = Ok None (linked s_w i D di_v dD_v).
Proof.
  pose proof parent_differs as HDi. destruct Hsplit_b as (Hb1 & Hb2 & _).
  rewrite (Move_unlinks b a au s_m i di_m D' dD_m); first last.
  - by autorewrite with item.
  - done.
  - apply moved_destination.
  - autorewrite with item. rewrite moved_registry. apply destination_registered.
  - autorewrite with item. by rewrite moved_registry.
  - apply moved_item.
  - apply moved_resolves.
  - done.
  - done.
  - apply moved_valid.
  - done.
  - unfold bind at 1. rewrite back_state.
    rewrite (relink_runs a (Base b) di_v); [done|done|done|by autorewrite with item..].
Qed.

Lemma round_trip_same_tree : same_tree s (linked s_w i D di_v dD_v).
Proof. apply (relink_same_tree (Base b) di_v); by autorewrite with item. Qed.

End Back.

(** A move that fails once it has taken the item out of its place. *)
Section RollBack.

Variables (a b : string).

Local Abbreviation s_u := (unlinked s i D di dD (Base b)).
Local Abbreviation di_w := (set_NameInternal (Base a) (set_NameInternal (Base b) di)).
Local Abbreviation dD_v := (delete_child (IDInternal di) di dD).
Local Abbreviation s_w := (set_heap (<[i := di_w]> (heap s_u)) s_u).

Hypothesis Hsplit_a : splits a.
Hypothesis Hres : resolve s a = Some i.
Hypothesis Hname : NameInternal di = Base a.

Lemma roll_back_runs au err :
  Insert b au (Some i) s_u = Ok (Some err) s_u →
  Move a b au s = Ok (Some err) (linked s_w i D di_w dD_v).
Proof.
  intros Hins. destruct Hsplit_a as (Ha1 & Ha2 & _).
  rewrite (Move_unlinks a b au s i di D dD); [|done..|apply parent_differs|done].
  unfold bind at 1. rewrite Hins. unfold bind at 1.
  rewrite (SetName_effect i (set_NameInternal (Base b) di)); [|done|apply unlinked_item].
  unfold bind at 1.
  rewrite (relink_runs a (Base b) di_w); [done|done|done|by autorewrite with item..].
Qed.

Lemma roll_back_same_tree : same_tree s (linked s_w i D di_w dD_v).
Proof. apply (relink_same_tree (Base b) di_w); by autorewrite with item. Qed.

(** [Insert] of the unlinked item fails in the state it was called in, or
    links the item. *)
Lemma Insert_unlinked au :
  (∃ err, Insert b au (Some i) s_u = Ok (Some err) s_u) ∨
  (∃ D' dD', Insert b au (Some i) s_u
             = Ok None (linked s_u i D' (set_NameInternal (Base b) di) dD')).
Proof.
  assert (Hv' : valid s_u) by apply unlinked_valid.
  assert (Hk' : keyed s_u) by apply unlinked_keyed.
  destruct (Get_cached (Dir (ToLower b)) au s_u Hv' (unlinked_cached _))
    as (o & e & Hget & Hoe & _).
  destruct e as [err|].
  { left. exists err. unfold Insert. unfold bind at 1. by rewrite Hget. }
  specialize (Hoe eq_refl). subst o.
  destruct (resolve s_u (Dir (ToLower b))) as [D'|] eqn:Hres'.
  2:{ left. exists ErrParentNil. unfold Insert. unfold bind at 1. by rewrite Hget. }
  right.
  destruct (resolve_registered s_u _ D' Hv' Hk' Hres') as (dD' & HdD' & Hreg').
  assert (Hne0 : IDInternal dD' ≠ EmptyString).
  { intros He. rewrite He in Hreg'. apply unlinked_registry in Hreg' as [_ Hreg'].
    by rewrite Hnamed in Hreg'. }
  assert (Hneid : IDInternal dD' ≠ IDInternal di).
  { intros He. rewrite He in Hreg'. by apply unlinked_registry in Hreg' as [? _]. }
  assert (HDi : D' ≠ i).
  { intros ->. rewrite unlinked_item in HdD'.
    injection HdD' as <-. by autorewrite with item in Hneid. }
  assert (Hnin : IDInternal di ∉ slice (children dD')) by by eapply unlinked_unlisted.
  exists D', dD'.
  apply Insert_linked; try done. apply unlinked_item.
Qed.

End RollBack.

End RoundTrip.

(** The parent of a resolved item, when only it lists the item, is the
    directory the item was found in. *)
Lemma resolved_listed_by_parent s p i di D dD :
  keyed s → p ≠ "/" →
  resolve s p = Some i → heap s !! i = Some di →
  heap s !! D = Some dD →
  listed_by_at_most s (IDInternal di) D →
  metadata s !! IDInternal di = Some i ∧ IDInternal di ∈ slice (children dD).
Proof.
  intros Hk Hp Hr Hdi HdD Hlist.
  destruct (resolve_listed s p i Hk Hp Hr)
    as (k' & q & dq & dx & Hq & Hdq & _ & Hdx & Hin & Hreg).
  assert (dx = di) as -> by congruence. split; [done|].
  destruct (decide (q = D)) as [->|Hne]; [congruence|].
  by destruct (listed_by_at_most_other s _ D k' q dq Hlist Hq Hdq Hne).
Qed.







(** ** Paths as [Get] reads them *)

Lemma lower_ascii_slash c : lower_ascii c = slash ↔ c = slash.
Proof.
  split; [|by intros ->].
  destruct c as [[] [] [] [] [] [] [] []]; intros H; try done; vm_compute in H; done.
Qed.

Lemma ToLower_root p : ToLower p = "/" ↔ p = "/".
Proof.
  split; [|by intros ->]. destruct p as [|c p]; [done|]. simpl.
  intros [= Hc Hp]. apply (proj1 (lower_ascii_slash c)) in Hc. subst c.
  by destruct p.
Qed.

Lemma has_slash_ToLower p : has_slash (ToLower p) = has_slash p.
Proof.
  induction p as [|c p IH]; simpl; [done|]. rewrite IH. f_equal.
  apply bool_decide_ext, lower_ascii_slash.
Qed.

Lemma ends_with_slash_ToLower p : ends_with_slash (ToLower p) = ends_with_slash p.
Proof.
  induction p as [|c p IH]; [done|]. destruct p as [|c' p].
  - simpl. apply bool_decide_ext, lower_ascii_slash.
  - exact IH.
Qed.

Lemma substring_all s : substring 0 (String.length s) s = s.
Proof. induction s as [|c s IH]; simpl; [done|]. by rewrite IH. Qed.

Lemma HasSuffix_slash s : HasSuffix s "/" = ends_with_slash s.
Proof.
  unfold HasSuffix. induction s as [|c s IH]; [done|].
  destruct s as [|c' s].
  - clear IH. simpl. apply bool_decide_ext. split; [by intros [= ->]|by intros ->].
  - change (ends_with_slash (String c (String c' s))) with (ends_with_slash (String c' s)).
    rewrite <- IH. clear IH.
    change (String.length (String c (String c' s))) with (S (String.length (String c' s))).
    change (String.length "/") with 1%nat.
    replace (S (String.length (String c' s)) - 1)%nat
      with (S (String.length (String c' s) - 1)) by (simpl; lia).
    simpl substring at 1. done.
Qed.

Lemma ends_with_slash_has_slash s : ends_with_slash s = true → has_slash s = true.
Proof.
  induction s as [|c s IH]; [done|]. destruct s as [|c' s].
  - simpl. intros ->. done.
  - intros H. change (has_slash (String c (String c' s)))
      with (bool_decide (c = slash) || has_slash (String c' s)).
    rewrite IH by done. apply orb_true_r.
Qed.

Lemma TrimSuffix_no_slash s : ends_with_slash s = false → TrimSuffix s "/" = s.
Proof. intros H. unfold TrimSuffix. by rewrite HasSuffix_slash, H. Qed.

Lemma ends_with_slash_app s : ends_with_slash (s +:+ "/") = true.
Proof.
  induction s as [|c s IH]; [done|]. destruct s as [|c' s]; [done|]. exact IH.
Qed.

Lemma length_app_slash s : String.length (s +:+ "/") = S (String.length s).
Proof. induction s as [|c s IH]; simpl; [done|]. by rewrite IH. Qed.

Lemma substring_app_slash s : substring 0 (String.length s) (s +:+ "/") = s.
Proof. induction s as [|c s IH]; simpl; [done|]. by rewrite IH. Qed.

Lemma TrimSuffix_app_slash s : TrimSuffix (s +:+ "/") "/" = s.
Proof.
  unfold TrimSuffix. rewrite HasSuffix_slash, ends_with_slash_app.
  rewrite length_app_slash. simpl. rewrite Nat.sub_0_r. apply substring_app_slash.
Qed.

Lemma ToLower_app_slash s : ToLower (s +:+ "/") = ToLower s +:+ "/".
Proof. induction s as [|c s IH]; simpl; [done|]. by rewrite IH. Qed.

Lemma Split_no_slash s : has_slash s = false → Split s = [s].
Proof.
  induction s as [|c s IH]; [done|]. simpl.
  intros [Hc Hs]%orb_false_elim. rewrite Hc. by rewrite IH.
Qed.


Lemma Get_without_separator p au s :
  has_slash p = false → Get p au s = Ok (None, None) s.
Proof.
  intros Hp. unfold Get. unfold bind, gets.
  rewrite bool_decide_eq_false_2 by (by intros ->).
  rewrite TrimSuffix_no_slash.
  2:{ destruct (ends_with_slash (ToLower p)) eqn:He; [|done].
      apply ends_with_slash_has_slash in He. by rewrite has_slash_ToLower, Hp in He. }
  rewrite Split_no_slash by by rewrite has_slash_ToLower. done.
Qed.

(** X3. A path without a separator names nothing: [Get] returns no item and no
    error, whatever the cache holds, and [GetChildrenPath], which reads the
    id of the item it is given, faults. *)
Theorem path_without_separator_resolves_to_nil p au s :
  has_slash p = false →
  Get p au s = Ok (None, None) s ∧ GetChildrenPath p au s = Panic.
Proof.
  intros Hp. split; [by apply Get_without_separator|].
  unfold GetChildrenPath. unfold bind at 1. by rewrite Get_without_separator.
Qed.

Lemma path_without_separator_resolves_to_nil_witness :
  Get "readme.txt" None (cache_of [folder "r" "root" EmptyString None 0]
                           {["r" := 0%nat]} "r")
    = Ok (None, None) (cache_of [folder "r" "root" EmptyString None 0]
                         {["r" := 0%nat]} "r") ∧
  GetChildrenPath "readme.txt" None
    (cache_of [folder "r" "root" EmptyString None 0] {["r" := 0%nat]} "r") = Panic.
Proof. apply path_without_separator_resolves_to_nil. reflexivity. Defined.

Lemma Dir_without_separator p : has_slash p = false → Dir p = ".".
Proof.
  intros Hp. unfold Dir, upto_last_slash. by rewrite Split_no_slash.
Qed.



(** ** Lookups *)





(** X6. When [GetChildrenID] asks the server for the children of a directory
    whose child list is nil and the server answers, the child list becomes
    the ids of the records in the order of the answer, the counter of
    sub-directories grows by the number of directories among them, every
    record is decoded into a new item, and, the ids of the answer being
    distinct, each is registered under its id. *)
Theorem GetChildrenID_fetch_registers_children id au a da page s :
  held s = [] →
  metadata s !! id = Some a →
  heap s !! a = Some da →
  is_dir da = true →
  children da = None →
  no_auth au = false →
  server s (requests s) (ChildrenPathID id) = Some page →
  ∃ result s' da',
    GetChildrenID id au s = Ok (result, None) s' ∧
    held s' = [] ∧
    requests s' = requests s ++ [ChildrenPathID id] ∧
    length (heap s') = (length (heap s) + length (Values page))%nat ∧
    heap s' !! a = Some da' ∧
    children da' = Some (rec_id <$> Values page) ∧
    subdir da' = subdir da + ndirs (Values page) ∧
    (∀ j r, Values page !! j = Some r →
       heap s' !! (length (heap s) + j)%nat = Some (decode r)) ∧
    (NoDup (rec_id <$> Values page) →
       ∀ j r, Values page !! j = Some r →
         metadata s' !! rec_id r = Some (length (heap s) + j)%nat).
Proof.
  intros Hl Ha Hda Hdir Hch Hau Hsv.
  destruct (GetChildrenID_fetch id au a da page s Hl Ha Hda Hdir Hch Hau Hsv)
    as [result Hrun].
  assert (Hlt : (a < length (heap s))%nat) by by eapply lookup_lt_Some.
  eexists result, _, _. split; [exact Hrun|]. split_and!.
  - done.
  - done.
  - simpl. by rewrite length_insert, length_app, length_fmap.
  - simpl. apply list_lookup_insert_eq. rewrite length_app. lia.
  - by autorewrite with item.
  - by autorewrite with item.
  - intros j r Hj. simpl. rewrite list_lookup_insert_ne by lia.
    rewrite lookup_app_r by lia.
    replace (length (heap s) + j - length (heap s))%nat with j by lia.
    by rewrite list_lookup_fmap, Hj.
  - intros Hnd j r Hj. simpl. by apply store_all_lookup_in.
Qed.

Lemma GetChildrenID_fetch_registers_children_witness :
  let s := online_cache_of [folder "r" "root" EmptyString None 0]
             {["r" := 0%nat]} "r" "/me/drive/root/delta?token=latest" in
  ∃ page result s' da',
    server s (requests s) (ChildrenPathID "r") = Some page ∧
    GetChildrenID "r" (auth s) s = Ok (result, None) s' ∧
    held s' = [] ∧
    requests s' = requests s ++ [ChildrenPathID "r"] ∧
    length (heap s') = (length (heap s) + length (Values page))%nat ∧
    heap s' !! 0%nat = Some da' ∧
    children da' = Some (rec_id <$> Values page) ∧
    subdir da' = 0 + ndirs (Values page) ∧
    (∀ j r, Values page !! j = Some r →
       heap s' !! (length (heap s) + j)%nat = Some (decode r)) ∧
    (NoDup (rec_id <$> Values page) →
       ∀ j r, Values page !! j = Some r →
         metadata s' !! rec_id r = Some (length (heap s) + j)%nat).
Proof.
  intros s.
  destruct (server s (requests s) (ChildrenPathID "r")) as [page|] eqn:Hsv;
    [|by vm_compute in Hsv].
  exists page.
  destruct (GetChildrenID_fetch_registers_children "r" (auth s) 0%nat
              (folder "r" "root" EmptyString None 0) page s)
    as (result & s' & da' & H); [by vm_compute..|done|].
  exists result, s', da'. by split.
Defined.

(** ** Computations that keep the registry *)

Lemma rk_ret {A} (a : A) : registry_kept (ret a).
Proof. by intros s x s' [= _ <-]. Qed.

Lemma rk_panic {A} : registry_kept (@panic A).
Proof. by intros s x s' H. Qed.

Lemma rk_bind {A B} (m : M A) (f : A → M B) :
  registry_kept m → (∀ a, registry_kept (f a)) → registry_kept (bind m f).
Proof.
  intros Hm Hf s b s'. unfold bind.
  destruct (m s) as [a s1| |] eqn:Hrun; [|done..].
  intros Hrun'. rewrite (Hf _ _ _ _ Hrun'). by eapply Hm.
Qed.

Lemma rk_gets {A} (f : state → A) : registry_kept (gets f).
Proof. by intros s x s' [= _ <-]. Qed.

Lemma rk_load p : registry_kept (load p).
Proof.
  intros s x s'. unfold load. destruct p as [a|]; [|done].
  destruct (heap s !! a); [|done]. by intros [= _ <-].
Qed.

Lemma rk_read {A} p (f : DriveItem → A) : registry_kept (read p f).
Proof. apply rk_bind; [apply rk_load|intros; apply rk_ret]. Qed.

Lemma rk_update p f : registry_kept (update p f).
Proof.
  intros s x s'. unfold update, bind, load. destruct p as [a|]; [|done].
  destruct (heap s !! a); [|done]. by intros [= _ <-].
Qed.

Lemma rk_Lock p : registry_kept (Lock p).
Proof.
  intros s x s'. unfold Lock. destruct p as [a|]; [|done].
  case_bool_decide; [done|]. by intros [= _ <-].
Qed.

Lemma rk_Unlock p : registry_kept (Unlock p).
Proof. intros s x s'. unfold Unlock. destruct p as [a|]; [|done]. by intros [= _ <-]. Qed.

Ltac rstep :=
  match goal with
  | |- registry_kept (bind _ _) => apply rk_bind; [|intros ?]
  | |- registry_kept (ret _) => apply rk_ret
  | |- registry_kept skip => apply rk_ret
  | |- registry_kept panic => apply rk_panic
  | |- registry_kept (gets _) => apply rk_gets
  | |- registry_kept (GetID _) => apply rk_gets
  | |- registry_kept (load _) => apply rk_load
  | |- registry_kept (read _ _) => apply rk_read
  | |- registry_kept (ID _) => apply rk_read
  | |- registry_kept (ParentID _) => apply rk_read
  | |- registry_kept (IsDir _) => apply rk_read
  | |- registry_kept (update _ _) => apply rk_update
  | |- registry_kept (Lock _) => apply rk_Lock
  | |- registry_kept (Unlock _) => apply rk_Unlock
  | |- registry_kept (match ?x with _ => _ end) => destruct x
  | |- registry_kept (if ?b then _ else _) => destruct b
  end.


(** ** Insertion by path *)

(** X8. [Insert] resolves the directory part of the key, lower-cased, and links
    the item to the directory found: once [Get] has returned the directory
    [dD], another object than the item, registered under the id it carries
    and not listing the id of the item, [Insert] registers the item under
    its own id, writes the id of the directory into the parent id of the
    item, appends the id of the item to the child list of the directory and
    counts it there when it is a directory. *)
Theorem Insert_links_item_to_resolved_directory key au s s0 i di D dD :
  Get (Dir (ToLower key)) au s = Ok (Some D, None) s0 →
  held s0 = [] →
  heap s0 !! i = Some di → heap s0 !! D = Some dD →
  metadata s0 !! IDInternal dD = Some D →
  IDInternal dD ≠ EmptyString → IDInternal dD ≠ IDInternal di →
  D ≠ i →
  IDInternal di ∉ slice (children dD) →
  ∃ s1 d1 dD1,
    Insert key au (Some i) s = Ok None s1 ∧
    metadata s1 = <[IDInternal di := i]> (metadata s0) ∧
    held s1 = [] ∧ requests s1 = requests s0 ∧
    heap s1 !! i = Some d1 ∧ d1 = set_Parent_ID (IDInternal dD) di ∧
    heap s1 !! D = Some dD1 ∧
    children dD1 = Some (slice (children dD) ++ [IDInternal di]) ∧
    subdir dD1 = subdir dD + (if is_dir di then 1 else 0) ∧
    ∀ x, x ≠ i → x ≠ D → heap s1 !! x = heap s0 !! x.
Proof.
  intros Hget Hl Hdi HdD Hreg Hne Hnid HDi Hnin.
  exists (linked s0 i D di dD), (set_Parent_ID (IDInternal dD) di),
    (append_child (IDInternal di) (is_dir di) dD).
  split_and!.
  - unfold Insert. unfold bind at 1. rewrite Hget. simpl.
    unfold bind at 1. unfold ID at 1, read, bind at 1, load, ret. rewrite HdD.
    unfold bind at 1. unfold Lock. rewrite Hl.
    rewrite bool_decide_eq_false_2 by apply not_elem_of_nil.
    unfold bind at 1. unfold update at 1. unfold bind at 1. unfold load. simpl. rewrite Hdi.
    unfold modify. simpl.
    unfold bind at 1. unfold Unlock. simpl. rewrite bool_decide_eq_true_2 by done.
    unfold bind at 1. unfold ID, read, bind at 1, load, ret. simpl.
    rewrite list_lookup_insert_eq by by eapply lookup_lt_Some.
    autorewrite with item.
    unfold bind at 1.
    rewrite (InsertID_append (IDInternal di) i (set_Parent_ID (IDInternal dD) di) D dD).
    + unfold linked, append_child. simpl. autorewrite with item.
      rewrite (list_insert_insert_ne _ D i) by done.
      rewrite list_insert_insert_eq.
      destruct s0, di; simpl in *. by subst.
    + done.
    + simpl. by rewrite list_lookup_insert_eq by by eapply lookup_lt_Some.
    + by autorewrite with item.
    + autorewrite with item. simpl. by rewrite lookup_insert_ne.
    + simpl. by rewrite list_lookup_insert_ne.
    + by apply index_of_None.
    + done.
  - done.
  - done.
  - done.
  - rewrite (linked_lookup s0 i D di dD i Hdi HdD HDi). by rewrite decide_True.
  - done.
  - rewrite (linked_lookup s0 i D di dD D Hdi HdD HDi).
    rewrite decide_False by done. by rewrite decide_True.
  - by rewrite children_append_child.
  - unfold append_child. by autorewrite with item.
  - intros x Hxi HxD. rewrite (linked_lookup s0 i D di dD x Hdi HdD HDi).
    by rewrite !decide_False.
Qed.

Lemma Insert_links_item_to_resolved_directory_witness :
  let s := cache_of [folder "r" "root" EmptyString (Some ["d"]) 1;
                     folder "d" "Docs" "r" (Some []) 0; file "n" "New.txt" EmptyString]
                    {["r" := 0%nat; "d" := 1%nat]} "r" in
  ∃ s1 d1 dD1,
    Insert "/Docs/New.txt" None (Some 2%nat) s = Ok None s1 ∧
    metadata s1 = <["n" := 2%nat]> (metadata s) ∧
    held s1 = [] ∧ requests s1 = requests s ∧
    heap s1 !! 2%nat = Some d1 ∧ d1 = set_Parent_ID "d" (file "n" "New.txt" EmptyString) ∧
    heap s1 !! 1%nat = Some dD1 ∧
    children dD1 = Some ([] ++ ["n"]) ∧
    subdir dD1 = 0 + 0 ∧
    ∀ x, x ≠ 2%nat → x ≠ 1%nat → heap s1 !! x = heap s !! x.
Proof.
  intros s.
  apply (Insert_links_item_to_resolved_directory "/Docs/New.txt" None s s 2%nat
           (file "n" "New.txt" EmptyString) 1%nat (folder "d" "Docs" "r" (Some []) 0)).
  all: try (vm_compute; reflexivity).
  all: try (by vm_compute).
  apply not_elem_of_nil.
Defined.

(** ** Renaming again, deleting again *)

(** X13. [MoveID] performed again, once the item is registered under the new id
    only and carries it, and its parent lists the new id and not the old one,
    returns without an error and changes nothing. *)
Theorem MoveID_again_changes_nothing a b i d p pd s :
  held s = [] →
  metadata s !! a = None →
  metadata s !! b = Some i →
  heap s !! i = Some d → IDInternal d = b →
  metadata s !! Parent_ID d = Some p → heap s !! p = Some pd →
  (a ∉ slice (children pd)) → b ∈ slice (children pd) →
  MoveID a b s = Ok None s.
Proof.
  intros Hl Ha Hb Hd Hid Hp Hpd Hnin Hin.
  rewrite (MoveID_renamed a b i d p pd s) by done.
  assert (Hsame : set_heap (<[i := set_IDInternal b d]> (heap s)) s = s).
  { rewrite <- Hid. replace (set_IDInternal (IDInternal d) d) with d by by destruct d.
    rewrite list_insert_id by done. by destruct s. }
  rewrite Hsame.
  unfold bind at 1. rewrite DeleteID_absent by done.
  rewrite delete_id by done.
  replace (set_metadata (metadata s) s) with s by by destruct s.
  unfold bind at 1.
  assert (Hins : InsertID b i s = Ok tt s).
  { replace (Ok tt s) with (Ok tt (set_metadata (<[b:=i]> (metadata s)) s)).
    2:{ rewrite insert_id by done. by destruct s. }
    destruct (decide (Parent_ID d = EmptyString)) as [He|He].
    - eapply InsertID_stored; [done|]. by left.
    - destruct (index_of_is_Some _ _ Hin) as [k Hk].
      eapply (InsertID_present b i d p pd k); try done.
      by rewrite insert_id. }
  by rewrite Hins.
Qed.

Lemma MoveID_again_changes_nothing_witness :
  let s := cache_of [folder "r" "root" EmptyString (Some ["x"; "local-1"; "y"]) 0;
                     file "x" "x.txt" "r"; file "local-1" "new.txt" "r";
                     file "y" "y.txt" "r"]
                    {["r" := 0%nat; "x" := 1%nat; "local-1" := 2%nat; "y" := 3%nat]} "r" in
  ∃ s1, MoveID "local-1" "srv-7" s = Ok None s1 ∧
        MoveID "local-1" "srv-7" s1 = Ok None s1.
Proof.
  intros s. eexists. split; [vm_compute; reflexivity|].
  apply (MoveID_again_changes_nothing "local-1" "srv-7" 2%nat (file "srv-7" "new.txt" "r")
           0%nat (folder "r" "root" EmptyString (Some ["x"; "srv-7"; "y"]) 0)).
  all: try (vm_compute; reflexivity).
  - vm_compute. intros H. repeat (apply elem_of_cons in H as [H|H]; [done|]).
    by apply not_elem_of_nil in H.
  - vm_compute. apply elem_of_cons. right. apply elem_of_cons. by left.
Defined.

(** X14. Whenever [DeleteID id] returns, in whatever state it was called,
    [id] is no longer registered and the registry is unchanged under every
    other id: [GetID id] then returns nil, and a second [DeleteID id] returns
    and changes nothing. *)
Theorem DeleteID_again_changes_nothing id s s' :
  DeleteID id s = Ok tt s' →
  metadata s' = delete id (metadata s) ∧
  GetID id s' = Ok None s' ∧
  DeleteID id s' = Ok tt s'.
Proof.
  intros Hrun.
  assert (Hm : metadata s' = delete id (metadata s)).
  { unfold DeleteID in Hrun. unfold bind at 1 in Hrun. unfold GetID at 1, gets in Hrun.
    unfold bind at 1 in Hrun.
    match type of Hrun with
    | match ?m s with _ => _ end = _ =>
        assert (Hk : registry_kept m) by repeat rstep;
        destruct (m s) as [u s0| |] eqn:Hpre; [|done..]
    end.
    unfold metadata_Delete, modify in Hrun. injection Hrun as <-.
    simpl. by rewrite (Hk _ _ _ Hpre). }
  assert (Hnone : metadata s' !! id = None) by (rewrite Hm; apply lookup_delete_eq).
  split_and!; [done| |].
  - unfold GetID, gets. by rewrite Hnone.
  - rewrite DeleteID_absent by done. rewrite delete_id by done. by destruct s'.
Qed.

Lemma DeleteID_again_changes_nothing_witness :
  let s := cache_of [folder "r" "root" EmptyString (Some ["x"]) 0; file "x" "x.txt" "r"]
                    {["r" := 0%nat; "x" := 1%nat]} "r" in
  let s' := cache_of [folder "r" "root" EmptyString (Some []) 0; file "x" "x.txt" "r"]
                     {["r" := 0%nat]} "r" in
  DeleteID "x" s = Ok tt s' ∧
  metadata s' = delete "x" (metadata s) ∧
  GetID "x" s' = Ok None s' ∧
  DeleteID "x" s' = Ok tt s'.
Proof.
  intros s s'.
  assert (H : DeleteID "x" s = Ok tt s') by (vm_compute; reflexivity).
  split; [exact H|]. exact (DeleteID_again_changes_nothing "x" s s' H).
Defined.

(** ** The root *)

(** X15. The path "/" names the item registered under the root id, in every
    state and without a request.  When that item carries the root id and its
    parent id is not registered, as for the root of a drive, which has no
    parent, [Delete] and [Move] of "/" fault on the nil parent. *)
Theorem root_is_resolved_but_not_deleted_or_moved au s r dr :
  metadata s !! root s = Some r → heap s !! r = Some dr →
  IDInternal dr = root s →
  metadata s !! Parent_ID dr = None →
  Get "/" au s = Ok (Some r, None) s ∧
  Delete "/" s = Panic ∧
  ∀ b, Move "/" b au s = Panic.
Proof.
  intros Hr Hdr Hid Hp.
  assert (Hget : ∀ au', Get "/" au' s = Ok (Some r, None) s).
  { intros au'. unfold Get, bind, gets, GetID, ret. simpl. by rewrite Hr. }
  assert (Hdel : Delete "/" s = Panic).
  { unfold Delete. unfold bind at 1.
    change (ToLower "/") with "/". rewrite Hget. simpl.
    unfold bind at 1. unfold ID, read, bind at 1, load, ret. rewrite Hdr, Hid.
    by eapply DeleteID_nil_parent. }
  split_and!; [apply Hget|done|].
  intros b. unfold Move. unfold bind at 1. rewrite Hget. simpl.
  unfold bind at 1. by rewrite Hdel.
Qed.

Lemma root_is_resolved_but_not_deleted_or_moved_witness :
  let s := cache_of [folder "r" "root" EmptyString (Some ["x"]) 0; file "x" "x.txt" "r"]
                    {["r" := 0%nat; "x" := 1%nat]} "r" in
  Get "/" None s = Ok (Some 0%nat, None) s ∧
  Delete "/" s = Panic ∧
  ∀ b, Move "/" b None s = Panic.
Proof.
  intros s.
  by apply (root_is_resolved_but_not_deleted_or_moved None s 0%nat
              (folder "r" "root" EmptyString (Some ["x"]) 0)).
Defined.

(** ** The delta task *)

Lemma keeps_sync_deltas I graphURL fuel :
  (∀ s l, I s → I (set_held l s)) →
  (∀ s id, I s → I (set_metadata (delete id (metadata s)) s)) →
  (∀ s v, I s → I (set_deltaLink v s)) →
  (∀ s a d f, I s → heap s !! a = Some d → tame f → I (set_heap (<[a := f d]> (heap s)) s)) →
  (∀ s x, I s → I (set_requests (requests s ++ [x]) s)) →
  keeps I (sync_deltas graphURL fuel).
Proof.
  intros H1 H2 H3 H4 H5. induction fuel as [|fuel IH]; simpl.
  - apply keeps_ret.
  - apply keeps_bind; [apply keeps_gets|]. intros a.
    apply keeps_bind; [by apply keeps_pollDeltas|]. intros [cont [err|]]; simpl.
    + apply keeps_ret.
    + destruct cont; [done|apply keeps_ret].
Qed.

Lemma keeps_deltaLoop I graphURL fuel rounds :
  (∀ s l, I s → I (set_held l s)) →
  (∀ s id, I s → I (set_metadata (delete id (metadata s)) s)) →
  (∀ s v, I s → I (set_deltaLink v s)) →
  (∀ s a d f, I s → heap s !! a = Some d → tame f → I (set_heap (<[a := f d]> (heap s)) s)) →
  (∀ s x, I s → I (set_requests (requests s ++ [x]) s)) →
  keeps I (deltaLoop graphURL fuel rounds).
Proof.
  intros H1 H2 H3 H4 H5. induction rounds as [|rounds IH]; simpl.
  - apply keeps_ret.
  - apply keeps_bind; [by apply keeps_sync_deltas|]. intros [|]; [done|apply keeps_ret].
Qed.

Lemma same_items_refl s : same_items s s.
Proof. split; [done|]. intros a d Hd. by exists d. Qed.

Lemma same_items_trans s1 s2 s3 : same_items s1 s2 → same_items s2 s3 → same_items s1 s3.
Proof.
  intros [Hl1 H1] [Hl2 H2]. split; [congruence|]. intros a d Hd.
  destruct (H1 a d Hd) as (d' & Hd' & ? & ? & ? & ? & ?).
  destruct (H2 a d' Hd') as (d'' & Hd'' & ? & ? & ? & ? & ?).
  exists d''. split_and!; congruence.
Qed.

Lemma ik_same {A} (m : M A) :
  (∀ s a s', m s = Ok a s' → heap s' = heap s) → items_kept m.
Proof.
  intros H s a s' Hrun. split; rewrite (H s a s' Hrun); [done|].
  intros x d Hd. by exists d.
Qed.

Lemma ik_ret {A} (a : A) : items_kept (ret a).
Proof. apply ik_same. by intros s x s' [= _ <-]. Qed.

Lemma ik_panic {A} : items_kept (@panic A).
Proof. by intros s x s' H. Qed.

Lemma ik_bind {A B} (m : M A) (f : A → M B) :
  items_kept m → (∀ a, items_kept (f a)) → items_kept (bind m f).
Proof.
  intros Hm Hf s b s'. unfold bind.
  destruct (m s) as [a s1| |] eqn:Hrun; [|done..].
  intros Hrun'. eapply same_items_trans; [by eapply Hm|by eapply Hf].
Qed.

Lemma ik_gets {A} (f : state → A) : items_kept (gets f).
Proof. apply ik_same. by intros s x s' [= _ <-]. Qed.

Lemma ik_load p : items_kept (load p).
Proof.
  apply ik_same. intros s x s'. unfold load. destruct p as [a|]; [|done].
  destruct (heap s !! a); [|done]. by intros [= _ <-].
Qed.

Lemma ik_read {A} p (f : DriveItem → A) : items_kept (read p f).
Proof. apply ik_bind; [apply ik_load|intros; apply ik_ret]. Qed.

Lemma ik_update p f : lists_only f → items_kept (update p f).
Proof.
  intros Hf s x s'. unfold update, bind, load. destruct p as [a|]; [|done].
  destruct (heap s !! a) as [d|] eqn:Hd; [|done]. intros [= _ <-]. split.
  - simpl. apply length_insert.
  - intros b db Hb. simpl. destruct (decide (b = a)) as [->|Hne].
    + rewrite list_lookup_insert_eq by by eapply lookup_lt_Some.
      exists (f d). assert (db = d) as -> by congruence. split; [done|]. apply Hf.
    + rewrite list_lookup_insert_ne by done. exists db. by split_and!.
Qed.

Lemma ik_Lock p : items_kept (Lock p).
Proof.
  apply ik_same. intros s x s'. unfold Lock. destruct p as [a|]; [|done].
  case_bool_decide; [done|]. by intros [= _ <-].
Qed.

Lemma ik_Unlock p : items_kept (Unlock p).
Proof.
  apply ik_same. intros s x s'. unfold Unlock. destruct p as [a|]; [|done].
  by intros [= _ <-].
Qed.

Lemma ik_metadata_Delete id : items_kept (metadata_Delete id).
Proof. apply ik_same. by intros s x s' [= _ <-]. Qed.

Lemma ik_graph_Get resource a : items_kept (graph_Get resource a).
Proof. apply ik_same. by intros s x s' [= _ <-]. Qed.

Lemma ik_set_deltaLink v : items_kept (modify (set_deltaLink v)).
Proof. apply ik_same. by intros s x s' [= _ <-]. Qed.

Ltac istep :=
  match goal with
  | |- items_kept (bind _ _) => apply ik_bind; [|intros ?]
  | |- items_kept (ret _) => apply ik_ret
  | |- items_kept skip => apply ik_ret
  | |- items_kept panic => apply ik_panic
  | |- items_kept (gets _) => apply ik_gets
  | |- items_kept (GetID _) => apply ik_gets
  | |- items_kept (load _) => apply ik_load
  | |- items_kept (read _ _) => apply ik_read
  | |- items_kept (ID _) => apply ik_read
  | |- items_kept (ParentID _) => apply ik_read
  | |- items_kept (IsDir _) => apply ik_read
  | |- items_kept (update _ _) => apply ik_update; intros ?; by autorewrite with item
  | |- items_kept (Lock _) => apply ik_Lock
  | |- items_kept (Unlock _) => apply ik_Unlock
  | |- items_kept (metadata_Delete _) => apply ik_metadata_Delete
  | |- items_kept (graph_Get _ _) => apply ik_graph_Get
  | |- items_kept (modify (set_deltaLink _)) => apply ik_set_deltaLink
  | |- items_kept (match ?x with _ => _ end) => destruct x
  | |- items_kept (if ?b then _ else _) => destruct b
  | H : ∀ _, items_kept _ |- items_kept _ => solve [apply H]
  | H : ∀ _ _, items_kept _ |- items_kept _ => solve [apply H]
  end.

Lemma items_kept_DeleteID id : items_kept (DeleteID id).
Proof. unfold DeleteID. repeat istep. Qed.

Lemma items_kept_applyDelta item : items_kept (applyDelta item).
Proof. pose proof items_kept_DeleteID. unfold applyDelta. repeat istep. Qed.

Lemma items_kept_apply_all items : items_kept (apply_all items).
Proof.
  pose proof items_kept_applyDelta.
  induction items as [|r items IH]; simpl; repeat istep; apply IH.
Qed.

Lemma items_kept_pollDeltas graphURL a : items_kept (pollDeltas graphURL a).
Proof. pose proof items_kept_apply_all. unfold pollDeltas. repeat istep. Qed.

Lemma items_kept_sync_deltas graphURL fuel : items_kept (sync_deltas graphURL fuel).
Proof.
  pose proof items_kept_pollDeltas.
  induction fuel as [|fuel IH]; simpl; repeat istep; apply IH.
Qed.

Lemma items_kept_deltaLoop graphURL fuel rounds :
  items_kept (deltaLoop graphURL fuel rounds).
Proof.
  pose proof items_kept_sync_deltas.
  induction rounds as [|rounds IH]; simpl; repeat istep; apply IH.
Qed.

(** X16. However many pages the delta task polls, it registers no item and
    allocates none, and it renames no item, gives none another parent and
    changes the id, the kind and the deletion mark of none: it removes ids
    from the registry and from child lists, and a change on the server that
    is not a deletion does not reach the cache.  The root id and the
    credentials stay, and the requests it makes are added at the end of the
    log. *)
Theorem deltaLoop_registers_nothing graphURL fuel rounds s r s' :
  deltaLoop graphURL fuel rounds s = Ok r s' →
  metadata s' ⊆ metadata s ∧ same_items s s' ∧
  root s' = root s ∧ auth s' = auth s ∧ requests s `prefix_of` requests s'.
Proof.
  intros Hrun.
  pose proof (keeps_deltaLoop
    (λ x, metadata x ⊆ metadata s ∧
          root x = root s ∧ auth x = auth s ∧ requests s `prefix_of` requests x)
    graphURL fuel rounds) as Hk.
  unfold keeps in Hk. specialize (Hk ltac:(done)).
  specialize (Hk (λ x id H,
    ltac:(destruct H as (Hm & H); split; [|exact H];
          etrans; [apply delete_subseteq|exact Hm]))).
  specialize (Hk ltac:(done)).
  specialize (Hk ltac:(done)).
  specialize (Hk (λ x v H,
    ltac:(destruct H as (Hm & Hr & Ha & Hp); do 3 (split; [done|]);
          simpl; by apply prefix_app_r))).
  specialize (Hk s). rewrite Hrun in Hk.
  destruct Hk as (Hm & Hr & Ha & Hp); [done|].
  split_and!; [done| |done..]. by eapply items_kept_deltaLoop.
Qed.

Lemma deltaLoop_registers_nothing_witness :
  let s := online_cache_of [folder "r" "root" EmptyString (Some ["x"]) 0;
                            file "x" "x.txt" "r"]
             {["r" := 0%nat; "x" := 1%nat]} "r" "/me/drive/root/delta?token=latest" in
  ∃ r s', deltaLoop "https://graph.microsoft.com/v1.0" 5 1 s = Ok r s' ∧
    metadata s' ⊆ metadata s ∧ same_items s s' ∧
    root s' = root s ∧ auth s' = auth s ∧ requests s `prefix_of` requests s'.
Proof.
  intros s.
  destruct (deltaLoop "https://graph.microsoft.com/v1.0" 5 1 s) as [r s'| |] eqn:Hrun;
    [|by vm_compute in Hrun..].
  exists r, s'. split; [done|].
  by apply (deltaLoop_registers_nothing "https://graph.microsoft.com/v1.0" 5 1 s r s').
Defined.

Lemma pollDeltas_unanswered graphURL au s :
  server s (requests s) (deltaLink s) = None →
  pollDeltas graphURL au s
  = Ok (false, Some ErrTransport) (set_requests (requests s ++ [deltaLink s]) s).
Proof.
  intros Hsv. unfold pollDeltas. unfold bind at 1. unfold gets.
  unfold bind at 1. unfold graph_Get. by rewrite Hsv.
Qed.

(** X17. While the server answers no request for the delta link, every pass of
    the delta task makes one request, for the same link, and leaves the
    cache as it is: after [rounds] passes the log has grown by [rounds]
    requests for the link and nothing else has changed. *)
Theorem deltaLoop_retries_the_same_link graphURL fuel rounds s :
  (∀ log, server s log (deltaLink s) = None) →
  deltaLoop graphURL (S fuel) rounds s
  = Ok true (set_requests (requests s ++ replicate rounds (deltaLink s)) s).
Proof.
  revert s. induction rounds as [|rounds IH]; intros s Hsv.
  - simpl. rewrite app_nil_r. by destruct s.
  - cbn [deltaLoop]. unfold bind at 1. cbn [sync_deltas].
    unfold bind at 1. unfold gets. unfold bind at 1.
    rewrite pollDeltas_unanswered by apply Hsv. simpl.
    rewrite IH by apply Hsv. simpl.
    rewrite <- app_assoc. by destruct s.
Qed.

Lemma deltaLoop_retries_the_same_link_witness :
  let s := cache_of [folder "r" "root" EmptyString (Some ["x"]) 0; file "x" "x.txt" "r"]
                    {["r" := 0%nat; "x" := 1%nat]} "r" in
  deltaLoop "https://graph.microsoft.com/v1.0" 3 2 s
  = Ok true (set_requests (requests s ++ replicate 2 (deltaLink s)) s).
Proof.
  intros s. apply (deltaLoop_retries_the_same_link "https://graph.microsoft.com/v1.0" 2 2 s).
  intros log. reflexivity.
Defined.

(** ** Locks *)

Lemma ls_ret {A} L (a : A) : lock_step L L (ret a).
Proof. intros s x s' Hl [= _ <-]. done. Qed.

Lemma ls_panic {A} L L' : lock_step L L' (@panic A).
Proof. by intros s x s' Hl H. Qed.

Lemma ls_bind {A B} L L1 L2 (m : M A) (f : A → M B) :
  lock_step L L1 m → (∀ a, lock_step L1 L2 (f a)) → lock_step L L2 (bind m f).
Proof.
  intros Hm Hf s b s' Hl. unfold bind.
  destruct (m s) as [a s1| |] eqn:Hrun; [|done..].
  intros Hrun'. eapply Hf; [|exact Hrun']. by eapply Hm.
Qed.

Lemma ls_gets {A} L (f : state → A) : lock_step L L (gets f).
Proof. intros s x s' Hl [= _ <-]. done. Qed.

Lemma ls_load L p : lock_step L L (load p).
Proof.
  intros s x s' Hl. unfold load. destruct p as [a|]; [|done].
  destruct (heap s !! a); [|done]. by intros [= _ <-].
Qed.

Lemma ls_read {A} L p (f : DriveItem → A) : lock_step L L (read p f).
Proof. eapply ls_bind; [apply ls_load|intros; apply ls_ret]. Qed.

Lemma ls_update L p f : lock_step L L (update p f).
Proof.
  intros s x s' Hl. unfold update, bind, load. destruct p as [a|]; [|done].
  destruct (heap s !! a); [|done]. by intros [= _ <-].
Qed.

Lemma ls_metadata_Store L id item : lock_step L L (metadata_Store id item).
Proof. intros s x s' Hl [= _ <-]. done. Qed.

Lemma ls_metadata_Delete L id : lock_step L L (metadata_Delete id).
Proof. intros s x s' Hl [= _ <-]. done. Qed.

Lemma ls_set_deltaLink L v : lock_step L L (modify (set_deltaLink v)).
Proof. intros s x s' Hl [= _ <-]. done. Qed.

Lemma ls_alloc L d : lock_step L L (alloc d).
Proof. intros s x s' Hl [= _ <-]. done. Qed.

Lemma ls_graph_Get L resource a : lock_step L L (graph_Get resource a).
Proof. intros s x s' Hl [= _ <-]. done. Qed.

Lemma ls_Lock L a : lock_step L (a :: L) (Lock (Some a)).
Proof.
  intros s x s' Hl. unfold Lock. case_bool_decide; [done|].
  intros [= _ <-]. simpl. by rewrite Hl.
Qed.

Lemma ls_Unlock L a : lock_step (a :: L) L (Unlock (Some a)).
Proof.
  intros s x s' Hl. unfold Unlock. intros [= _ <-]. simpl.
  rewrite Hl. apply release_head.
Qed.

Lemma ls_Lock_nil {A} L L' (k : unit → M A) : lock_step L L' (bind (Lock None) k).
Proof. by intros s x s' Hl H. Qed.

Ltac lstep :=
  match goal with
  | |- lock_step _ _ (bind (Lock (Some _)) _) => eapply ls_bind; [apply ls_Lock|intros ?]
  | |- lock_step _ _ (bind (Lock None) _) => apply ls_Lock_nil
  | |- lock_step _ _ (bind (Lock ?p) _) => destruct p
  | |- lock_step _ _ (bind _ _) => eapply ls_bind; [|intros ?]
  | |- lock_step _ _ (ret _) => apply ls_ret
  | |- lock_step _ _ skip => apply ls_ret
  | |- lock_step _ _ panic => apply ls_panic
  | |- lock_step _ _ (gets _) => apply ls_gets
  | |- lock_step _ _ (GetID _) => apply ls_gets
  | |- lock_step _ _ (load _) => apply ls_load
  | |- lock_step _ _ (read _ _) => apply ls_read
  | |- lock_step _ _ (ID _) => apply ls_read
  | |- lock_step _ _ (Name _) => apply ls_read
  | |- lock_step _ _ (ParentID _) => apply ls_read
  | |- lock_step _ _ (IsDir _) => apply ls_read
  | |- lock_step _ _ (update _ _) => apply ls_update
  | |- lock_step _ _ (metadata_Store _ _) => apply ls_metadata_Store
  | |- lock_step _ _ (metadata_Delete _) => apply ls_metadata_Delete
  | |- lock_step _ _ (alloc _) => apply ls_alloc
  | |- lock_step _ _ (graph_Get _ _) => apply ls_graph_Get
  | |- lock_step _ _ (modify (set_deltaLink _)) => apply ls_set_deltaLink
  | |- lock_step (?a :: _) _ (Unlock (Some ?a)) => apply ls_Unlock
  | |- lock_step _ _ (match ?x with _ => _ end) => destruct x
  | |- lock_step _ _ (if ?b then _ else _) => destruct b
  | H : ∀ _, balanced _ |- lock_step _ _ _ => solve [apply H]
  | H : ∀ _ _, balanced _ |- lock_step _ _ _ => solve [apply H]
  | H : ∀ _ _ _, balanced _ |- lock_step _ _ _ => solve [apply H]
  | H : ∀ _ _ _ _, balanced _ |- lock_step _ _ _ => solve [apply H]
  | H : ∀ _ _ _ _ _ _, balanced _ |- lock_step _ _ _ => solve [apply H]
  end.
Ltac lauto := intros ?; repeat lstep.

Lemma balanced_SetName p name : balanced (SetName p name).
Proof. unfold SetName. lauto. Qed.

Lemma balanced_InsertID id i : balanced (InsertID id i).
Proof. unfold InsertID. lauto. Qed.

Lemma balanced_DeleteID id : balanced (DeleteID id).
Proof. unfold DeleteID. lauto. Qed.

Lemma balanced_MoveID a b : balanced (MoveID a b).
Proof.
  pose proof balanced_DeleteID. pose proof balanced_InsertID.
  unfold MoveID. lauto.
Qed.

Lemma balanced_cached_children ids result : balanced (cached_children ids result).
Proof. revert result. induction ids as [|id ids IH]; intros result; simpl; lauto. Qed.

Lemma balanced_fetched_children item fetched result :
  balanced (fetched_children item fetched result).
Proof.
  revert result. induction fetched as [|c fetched IH]; intros result; simpl; lauto.
Qed.

Lemma balanced_unmarshal_children rs : balanced (unmarshal_children rs).
Proof. induction rs as [|r rs IH]; simpl; lauto; apply IH. Qed.

Lemma balanced_GetChildrenID id a : balanced (GetChildrenID id a).
Proof.
  pose proof balanced_cached_children. pose proof balanced_fetched_children.
  pose proof balanced_unmarshal_children.
  unfold GetChildrenID. lauto.
Qed.

Lemma balanced_Get_loop split i rest lastID item a :
  balanced (Get_loop split i rest lastID item a).
Proof.
  pose proof balanced_GetChildrenID.
  revert i lastID item. induction rest as [|seg rest IH]; intros i lastID item;
    simpl; lauto.
Qed.

Lemma balanced_Get path a : balanced (Get path a).
Proof. pose proof balanced_Get_loop. unfold Get. lauto. Qed.

Lemma balanced_GetChildrenPath path a : balanced (GetChildrenPath path a).
Proof.
  pose proof balanced_Get. pose proof balanced_GetChildrenID.
  unfold GetChildrenPath. lauto.
Qed.

Lemma balanced_Delete key : balanced (Delete key).
Proof. pose proof balanced_Get. pose proof balanced_DeleteID. unfold Delete. lauto. Qed.

Lemma balanced_Insert key a item : balanced (Insert key a item).
Proof. pose proof balanced_Get. pose proof balanced_InsertID. unfold Insert. lauto. Qed.

Lemma balanced_Move oldPath newPath a : balanced (Move oldPath newPath a).
Proof.
  pose proof balanced_Get. pose proof balanced_Delete. pose proof balanced_Insert.
  pose proof balanced_SetName. unfold Move. lauto.
Qed.

Lemma balanced_applyDelta item : balanced (applyDelta item).
Proof. pose proof balanced_DeleteID. unfold applyDelta. lauto. Qed.

Lemma balanced_apply_all items : balanced (apply_all items).
Proof.
  pose proof balanced_applyDelta. induction items as [|r items IH]; simpl; lauto; apply IH.
Qed.

Lemma balanced_pollDeltas graphURL a : balanced (pollDeltas graphURL a).
Proof. pose proof balanced_apply_all. unfold pollDeltas. lauto. Qed.

Lemma balanced_sync_deltas graphURL fuel : balanced (sync_deltas graphURL fuel).
Proof.
  pose proof balanced_pollDeltas. induction fuel as [|fuel IH]; simpl; lauto; apply IH.
Qed.

Lemma balanced_deltaLoop graphURL fuel rounds : balanced (deltaLoop graphURL fuel rounds).
Proof.
  pose proof balanced_sync_deltas.
  induction rounds as [|rounds IH]; simpl; lauto; apply IH.
Qed.

Lemma balanced_exec c : balanced (exec c).
Proof.
  pose proof balanced_InsertID. pose proof balanced_DeleteID. pose proof balanced_MoveID.
  pose proof balanced_GetChildrenID. pose proof balanced_GetChildrenPath.
  pose proof balanced_Get. pose proof balanced_Delete. pose proof balanced_Insert.
  pose proof balanced_Move. pose proof balanced_SetName. pose proof balanced_applyDelta.
  pose proof balanced_pollDeltas.
  destruct c; simpl; lauto.
Qed.

(** X18. Every method of the cache that returns has released the locks it took,
    on every path through it, and no other: a sequence of calls, and the
    delta task, return with the locks held that they found held. *)
Theorem calls_return_their_locks graphURL fuel rounds cs s s' :
  (run cs;; deltaLoop graphURL fuel rounds;; skip) s = Ok tt s' →
  held s' = held s.
Proof.
  pose proof balanced_exec as Hexec. pose proof balanced_deltaLoop as Hloop.
  assert (Hrun : ∀ cs', balanced (run cs')).
  { induction cs' as [|c cs' IH]; simpl; lauto; apply IH. }
  intros H.
  assert (Hb : balanced (run cs;; deltaLoop graphURL fuel rounds;; skip)) by lauto.
  by eapply (Hb (held s)).
Qed.

Lemma calls_return_their_locks_witness :
  let s := online_cache_of [folder "r" "root" EmptyString None 0;
                            folder "y" "docs" "r" None 0]
             {["r" := 0%nat]} "r" "/me/drive/root/delta?token=latest" in
  let cs := [CallGetChildrenPath "/" (Some (mkAuth "token")); CallInsert "/docs" None (Some 1%nat);
             CallMove "/docs" "/a.txt/papers" None; CallMoveID "y" "z"; CallDelete "/docs"] in
  ∃ s', (run cs;; deltaLoop "https://graph.microsoft.com/v1.0" 5 2;; skip) s = Ok tt s' ∧
        held s' = held s.
Proof.
  intros s cs.
  destruct ((run cs;; deltaLoop "https://graph.microsoft.com/v1.0" 5 2;; skip) s)
    as [[] s'| |] eqn:Hrun; [|by vm_compute in Hrun..].
  exists s'. split; [done|].
  by apply (calls_return_their_locks "https://graph.microsoft.com/v1.0" 5 2 cs s s').
Defined.

(** ** Insertion and lookup *)

Lemma child_map_keeps_key s ids acc k :
  is_Some (acc !! k) → is_Some (child_map s ids acc !! k).
Proof.
  revert acc. induction ids as [|cid ids IH]; intros acc Hk; simpl; [done|].
  destruct (metadata s !! cid) as [c|]; [|by apply IH].
  destruct (heap s !! c) as [dc|]; [|by apply IH].
  apply IH. destruct (decide (ToLower (NameInternal dc) = k)) as [->|Hne].
  - rewrite lookup_insert_eq. by eexists.
  - by rewrite lookup_insert_ne.
Qed.

Lemma child_map_has_key s ids acc cid c dc :
  cid ∈ ids → metadata s !! cid = Some c → heap s !! c = Some dc →
  is_Some (child_map s ids acc !! ToLower (NameInternal dc)).
Proof.
  revert acc. induction ids as [|x ids IH]; intros acc Hin Hc Hdc.
  - by apply elem_of_nil in Hin.
  - apply elem_of_cons in Hin as [<-|Hin]; simpl.
    + rewrite Hc, Hdc. apply child_map_keeps_key. rewrite lookup_insert_eq. by eexists.
    + destruct (metadata s !! x) as [c'|]; [|by apply IH].
      destruct (heap s !! c') as [dc'|]; by apply IH.
Qed.





(** ** The unmount handler *)


(** ** Insertion and lookup by id *)

(** X20. Whenever [InsertID id item] returns, in whatever state it was
    called, the registry holds the item under [id] and is unchanged under
    every other id: [GetID id] then returns the item, and [GetID] of another
    id returns what it returned before. *)
Theorem InsertID_then_GetID_returns_item id i s s' :
  InsertID id i s = Ok tt s' →
  metadata s' = <[id := i]> (metadata s) ∧
  GetID id s' = Ok (Some i) s' ∧
  ∀ k, k ≠ id → GetID k s' = Ok (metadata s !! k) s'.
Proof.
  intros Hrun.
  assert (Hm : metadata s' = <[id := i]> (metadata s)).
  { unfold InsertID in Hrun. unfold bind at 1 in Hrun.
    unfold metadata_Store at 1, modify in Hrun.
    match type of Hrun with
    | ?m ?s0 = _ => assert (Hk : registry_kept m) by repeat rstep
    end.
    by rewrite (Hk _ _ _ Hrun). }
  split; [done|]. unfold GetID, gets. rewrite Hm. split.
  - by rewrite lookup_insert_eq.
  - intros k Hk. by rewrite lookup_insert_ne.
Qed.

Lemma InsertID_then_GetID_returns_item_witness :
  let s := cache_of [folder "r" "root" EmptyString (Some ["x"]) 0; file "x" "x.txt" "r";
                     file "y" "y.txt" "r"]
                    {["r" := 0%nat; "x" := 1%nat]} "r" in
  ∃ s', InsertID "y" 2%nat s = Ok tt s' ∧
    metadata s' = <["y" := 2%nat]> (metadata s) ∧
    GetID "y" s' = Ok (Some 2%nat) s' ∧
    ∀ k, k ≠ "y" → GetID k s' = Ok (metadata s !! k) s'.
Proof.
  intros s. eexists. split; [vm_compute; reflexivity|].
  apply (InsertID_then_GetID_returns_item "y" 2%nat s). vm_compute. reflexivity.
Defined.
